(** * Amanzi: MFD diffusion operator, Richards flow kernel, DG mass matrix

    A shallow embedding of the parts of
    - [OperatorDiffusionMFD] (local matrices, boundary conditions, flux,
      Newton correction, initialization),
    - [Richards_PK] (time stepping, derived quantities),
    - [DG_Modal] (mass, stiffness and penalty matrices) and
      [Basis_Regularized]
    that the specification talks about or that work next to them, and the
    properties proved of them.

    Conventions.
    - [double] is an abstract scalar type with the operations the code uses
      (class [Double]).  Statements that only move values around hold for any
      implementation of it.  [F_double] is IEEE binary64, on which the
      statements that need more than that are tested; [Z_double] and
      [Q_double] are exact.  Where a statement relies on algebra (row sums)
      the exact laws of a commutative ring appear as a condition inside it
      ([ring_theory]).
    - [int] counters are integers that wrap around at 32 bits.
    - [Epetra_Vector] and [std::vector] are lists addressed with stdpp's
      lookup and insert; C++ leaves out-of-range accesses undefined, the
      theorems carry the bounds they need.
    - [for] loops are [for_loop lo hi body], a left fold over [lo .. hi-1].
    - Collaborators whose bodies are not part of the sources under study
      (mesh, WhetStone kernels, time integrators) are parameters; those of
      the Richards kernel may write any member and may throw. *)

From Stdlib Require Import ZArith QArith Ring Lia String.
From Stdlib Require PrimFloat.
From stdpp Require Import base option list.

(* ===================================================================== *)
(** * Part I. The model                                                   *)
(* ===================================================================== *)

(** ** Scalars *)

Class Double := {
  double : Type;
  d_zero : double;                          (* 0.0 *)
  d_one : double;                           (* 1.0 *)
  d_add : double -> double -> double;
  d_sub : double -> double -> double;
  d_mul : double -> double -> double;
  d_div : double -> double -> double;
  d_opp : double -> double;
  d_eqb : double -> double -> bool;         (* operator== *)
  d_ltb : double -> double -> bool;         (* operator<  *)
  d_leb : double -> double -> bool;         (* operator<= *)
  d_of_int : Z -> double                    (* int -> double, and literals *)
}.

Declare Scope double_scope.
Delimit Scope double_scope with D.
Bind Scope double_scope with double.
Infix "+" := d_add : double_scope.
Infix "-" := d_sub : double_scope.
Infix "*" := d_mul : double_scope.
Infix "/" := d_div : double_scope.
Notation "- x" := (d_opp x) : double_scope.

(** [std::min<double>(a, b)] is [(b < a) ? b : a] and
    [std::max<double>(a, b)] is [(a < b) ? b : a]. *)
Definition std_min `{Double} (a b : double) : double := if d_ltb b a then b else a.
Definition std_max `{Double} (a b : double) : double := if d_ltb a b then b else a.

(** Exact integers.  Division is the floor division of [Z]; this instance is
    used where the laws of a ring are wanted, never to evaluate a quotient. *)
Definition Z_double : Double := {|
  double := Z;
  d_zero := 0%Z; d_one := 1%Z;
  d_add := Z.add; d_sub := Z.sub; d_mul := Z.mul; d_div := Z.div;
  d_opp := Z.opp;
  d_eqb := Z.eqb; d_ltb := Z.ltb; d_leb := Z.leb;
  d_of_int := fun z => z
|}.

(** Exact rationals kept in lowest terms, to evaluate the code on concrete
    data. *)
Definition Q_double : Double := {|
  double := Q;
  d_zero := 0%Q; d_one := 1%Q;
  d_add := fun x y => Qred (x + y)%Q;
  d_sub := fun x y => Qred (x - y)%Q;
  d_mul := fun x y => Qred (x * y)%Q;
  d_div := fun x y => Qred (x / y)%Q;
  d_opp := fun x => Qred (- x)%Q;
  d_eqb := Qeq_bool;
  d_ltb := fun x y => negb (Qle_bool y x);
  d_leb := Qle_bool;
  d_of_int := inject_Z
|}.

(** IEEE 754 binary64 with rounding to nearest, the kernel's primitive
    floating-point numbers: the arithmetic the code runs on.  A conversion
    from [int] is exact. *)
Fixpoint float_of_positive (p : positive) : PrimFloat.float :=
  match p with
  | xH => PrimFloat.one
  | xO p => PrimFloat.mul PrimFloat.two (float_of_positive p)
  | xI p => PrimFloat.add (PrimFloat.mul PrimFloat.two (float_of_positive p)) PrimFloat.one
  end.

Definition float_of_Z (z : Z) : PrimFloat.float :=
  match z with
  | Z0 => PrimFloat.zero
  | Zpos p => float_of_positive p
  | Zneg p => PrimFloat.opp (float_of_positive p)
  end.

Definition F_double : Double := {|
  double := PrimFloat.float;
  d_zero := PrimFloat.zero; d_one := PrimFloat.one;
  d_add := PrimFloat.add; d_sub := PrimFloat.sub;
  d_mul := PrimFloat.mul; d_div := PrimFloat.div;
  d_opp := PrimFloat.opp;
  d_eqb := PrimFloat.eqb; d_ltb := PrimFloat.ltb; d_leb := PrimFloat.leb;
  d_of_int := float_of_Z
|}.

(** The double nearest to [p / q], for [p] and [q] of at most 53 bits. *)
Definition F_ratio (p q : Z) : PrimFloat.float :=
  PrimFloat.div (float_of_Z p) (float_of_Z q).

(** ** Loops *)

Definition for_loop {S : Type} (lo hi : nat) (body : nat -> S -> S) (s : S) : S :=
  foldl (fun s i => body i s) s (seq lo (hi - lo)).

(** ** Vectors *)

Section Vectors.
  Context `{Double}.

  (** [v[i]] read, [v[i] = x] write. *)
Definition vec_get (v : list double) (i : nat) : double := default d_zero (v !! i).
Definition vec_set (v : list double) (i : nat) (x : double) : list double := <[i := x]> v.

  (** [acc += f(i)] for [i = 0 .. n-1], starting from [acc = 0.0]. *)
Definition d_sum (n : nat) (f : nat -> double) : double :=
    for_loop 0 n (fun i acc => (acc + f i)%D) d_zero.
End Vectors.

(** ** WhetStone::DenseMatrix

    Column-major storage: [A(i, j)] is [data_[j * m_ + i]]. *)

Module DenseMatrix.
Section Def.
  Context `{Double}.

Record t := mk { NumRows : nat; NumCols : nat; data : list double }.

Definition get (A : t) (i j : nat) : double :=
    default d_zero (data A !! (j * NumRows A + i)).

Definition set (A : t) (i j : nat) (v : double) : t :=
    mk (NumRows A) (NumCols A) (<[j * NumRows A + i := v]> (data A)).

Definition wf (A : t) : Prop := length (data A) = NumRows A * NumCols A.

  (** An [m] by [n] matrix with its [m * n] entries allocated. *)
Definition shape (m n : nat) (A : t) : Prop :=
    NumRows A = m /\ NumCols A = n /\ length (data A) = m * n.

  (** [DenseMatrix A(m, n)] and [Reshape(m, n)] allocate without
      initialising; [junk] stands for whatever the storage holds. *)
Definition alloc (junk : nat -> double) (m n : nat) : t :=
    mk m n (map junk (seq 0 (m * n))).

  (** The default-constructed matrix has no rows. *)
Definition empty : t := mk 0 0 [].

  (** [A = v], [A.PutScalar(v)]. *)
Definition PutScalar (A : t) (v : double) : t :=
    mk (NumRows A) (NumCols A) (replicate (length (data A)) v).

  (** [A *= v]. *)
Definition scale (A : t) (v : double) : t :=
    mk (NumRows A) (NumCols A) (map (fun x => (x * v)%D) (data A)).

  (** [A.Multiply(v, av, false)]: [av(i) = sum_j A(i, j) * v(j)]. *)
Definition Multiply (A : t) (v : list double) : list double :=
    map (fun i => d_sum (NumCols A) (fun j => (get A i j * vec_get v j)%D))
        (seq 0 (NumRows A)).

  (** Sum of the entries of row [i]. *)
Definition row_sum (A : t) (i : nat) : double := d_sum (NumCols A) (get A i).

Definition zero_row_sums (A : t) : Prop :=
    forall i, i < NumRows A -> row_sum A i = d_zero.

Definition is_symmetric (A : t) : Prop :=
    forall k l, k < NumRows A -> l < NumRows A -> get A k l = get A l k.
End Def.
End DenseMatrix.

Abbreviation DenseMatrix := DenseMatrix.t.

(** ** The mesh (external collaborator)

    Entity ids are non-negative C++ [int]s; only the queries the code calls
    are listed. *)

Inductive Parallel_type := OWNED | USED.

Record Mesh `{Double} := {
  ncells_owned : nat;
  nfaces_owned : nat;
  nfaces_wghost : nat;
  cell_get_faces : nat -> list nat;
  (* the [dirs] output of [cell_get_faces_and_dirs] *)
  cell_get_dirs : nat -> list Z;
  cell_get_nodes : nat -> list nat;
  face_get_cells : Parallel_type -> nat -> list nat;
  face_area : nat -> double;
  cell_volume : nat -> double
}.

(** [faces[n]] and [dirs[n]] on [std::vector<int>]. *)
Definition id_at (l : list nat) (n : nat) : nat := default 0 (l !! n).
Definition dir_at (l : list Z) (n : nat) : Z := default 0%Z (l !! n).

(** ** OperatorDiffusionMFD *)

Module OperatorDiffusionMFD.

Inductive Upwind :=
| OPERATOR_UPWIND_NONE
| OPERATOR_UPWIND_FLUX
| OPERATOR_UPWIND_AMANZI_ARTIFICIAL_DIFFUSION
| OPERATOR_UPWIND_AMANZI_DIVK
| OPERATOR_UPWIND_AMANZI_SECOND_ORDER.

Definition Upwind_eqb (a b : Upwind) : bool :=
  match a, b with
  | OPERATOR_UPWIND_NONE, OPERATOR_UPWIND_NONE
  | OPERATOR_UPWIND_FLUX, OPERATOR_UPWIND_FLUX
  | OPERATOR_UPWIND_AMANZI_ARTIFICIAL_DIFFUSION, OPERATOR_UPWIND_AMANZI_ARTIFICIAL_DIFFUSION
  | OPERATOR_UPWIND_AMANZI_DIVK, OPERATOR_UPWIND_AMANZI_DIVK
  | OPERATOR_UPWIND_AMANZI_SECOND_ORDER, OPERATOR_UPWIND_AMANZI_SECOND_ORDER => true
  | _, _ => false
  end.

Inductive BCModel :=
| OPERATOR_BC_NONE
| OPERATOR_BC_DIRICHLET
| OPERATOR_BC_NEUMANN
| OPERATOR_BC_MIXED.

#[global] Instance BCModel_eq_dec : EqDecision BCModel.
Proof. solve_decision. Defined.

Section Mixed.
  Context `{Double}.
  Import DenseMatrix.

  Variable mesh_ : Mesh.
  Variable upwind_ : Upwind.
  Variable scaled_constraint_ : bool.
  (* storage of a freshly constructed [DenseMatrix] *)
  Variable junk : nat -> double.
  (* components "cell", "face", "twin" of the nonlinear coefficient [k_];
     a missing component is a null pointer *)
  Variable k_cell : option (list double).
  Variable k_face : list double.
  Variable k_twin : option (list double).

  (** Lines 305-325: the cell value [kc] and the face values [kf] of the
      nonlinear coefficient. *)
Definition mixed_kc (c : nat) : double :=
    match upwind_ with
    | OPERATOR_UPWIND_AMANZI_ARTIFICIAL_DIFFUSION
    | OPERATOR_UPWIND_AMANZI_DIVK =>
        match k_cell with Some kv => vec_get kv c | None => d_one end
    | OPERATOR_UPWIND_NONE =>
        match k_cell with Some kv => vec_get kv c | None => d_one end
    | _ => d_one
    end.

Definition mixed_kf (c : nat) (faces : list nat) : list double :=
    let nfaces := length faces in
    let kf := replicate nfaces d_one in
    let kc := mixed_kc c in
    match upwind_ with
    | OPERATOR_UPWIND_AMANZI_ARTIFICIAL_DIFFUSION =>
        for_loop 0 nfaces (fun n kf => vec_set kf n kc) kf
    | OPERATOR_UPWIND_AMANZI_DIVK =>
        match k_twin with
        | None =>
            for_loop 0 nfaces (fun n kf => vec_set kf n (vec_get k_face (id_at faces n))) kf
        | Some twin =>
            for_loop 0 nfaces (fun n kf =>
              let f := id_at faces n in
              let cells := face_get_cells mesh_ USED f in
              vec_set kf n (if Nat.eqb c (id_at cells 0)
                            then vec_get k_face f else vec_get twin f)) kf
        end
    | OPERATOR_UPWIND_NONE =>
        match k_cell with
        | Some _ => for_loop 0 nfaces (fun n kf => vec_set kf n kc) kf
        | None => kf
        end
    | OPERATOR_UPWIND_FLUX =>
        for_loop 0 nfaces (fun n kf => vec_set kf n (vec_get k_face (id_at faces n))) kf
    | OPERATOR_UPWIND_AMANZI_SECOND_ORDER => kf
    end.

  (** Lines 331-349, "not scaled constraint: kr > 0". *)
Definition fill_not_scaled (nfaces : nat) (Wff : DenseMatrix) (kf : list double)
      (Acell : DenseMatrix) : DenseMatrix :=
    let '(Acell, matsum) :=
      for_loop 0 nfaces (fun n '(Acell, matsum) =>
        let '(Acell, rowsum) :=
          for_loop 0 nfaces (fun m '(Acell, rowsum) =>
            let tmp := (get Wff n m * vec_get kf n)%D in
            (set Acell n m tmp, (rowsum + tmp)%D)) (Acell, d_zero) in
        (set Acell n nfaces (- rowsum)%D, (matsum + rowsum)%D)) (Acell, d_zero) in
    let Acell := set Acell nfaces nfaces matsum in
    for_loop 0 nfaces (fun n Acell =>
      let colsum := for_loop 0 nfaces (fun m colsum => (colsum + get Acell m n)%D) d_zero in
      set Acell nfaces n (- colsum)%D) Acell.

  (** Lines 353-371, "scaled constraint: kr >= 0". *)
Definition fill_scaled (nfaces : nat) (Wff : DenseMatrix) (kf : list double)
      (Acell : DenseMatrix) : DenseMatrix :=
    let '(Acell, matsum) :=
      for_loop 0 nfaces (fun n '(Acell, matsum) =>
        let '(Acell, rowsum) :=
          for_loop 0 nfaces (fun m '(Acell, rowsum) =>
            let tmp := get Wff n m in
            (set Acell n m tmp, (rowsum + tmp)%D)) (Acell, d_zero) in
        (set Acell n nfaces (- rowsum)%D, (matsum + rowsum * vec_get kf n)%D))
        (Acell, d_zero) in
    let Acell := set Acell nfaces nfaces matsum in
    for_loop 0 nfaces (fun n Acell =>
      let colsum :=
        for_loop 0 nfaces (fun m colsum => (colsum + get Acell m n * vec_get kf m)%D) d_zero in
      set Acell nfaces n (- colsum)%D) Acell.

  (** Lines 376-389, "Amanzi's first upwind: add additional flux".
      [alpha > 0] is [0 < alpha]. *)
Definition add_artificial_diffusion (nfaces : nat) (faces : list nat) (Wff : DenseMatrix)
      (kc : double) (Acell : DenseMatrix) : DenseMatrix :=
    for_loop 0 nfaces (fun n Acell =>
      let f := id_at faces n in
      let alpha := (vec_get k_face f - kc)%D in
      if d_ltb d_zero alpha then
        let alpha := (alpha * get Wff n n)%D in
        let Acell := set Acell n n (get Acell n n + alpha)%D in
        let Acell := set Acell n nfaces (get Acell n nfaces - alpha)%D in
        let Acell := set Acell nfaces n (get Acell nfaces n - alpha)%D in
        set Acell nfaces nfaces (get Acell nfaces nfaces + alpha)%D
      else Acell) Acell.

  (** Lines 392-408, "Amanzi's second upwind: replace the matrix". *)
Definition fill_divk (nfaces : nat) (Wff : DenseMatrix) (kc : double) (kf : list double)
      (Acell : DenseMatrix) : DenseMatrix :=
    let '(Acell, matsum) :=
      for_loop 0 nfaces (fun n '(Acell, matsum) =>
        let '(Acell, rowsum) :=
          for_loop 0 nfaces (fun m '(Acell, rowsum) =>
            let tmp := (get Wff n m * vec_get kf n * vec_get kf m / kc)%D in
            (set Acell n m tmp, (rowsum + tmp)%D)) (Acell, d_zero) in
        let Acell := set Acell n nfaces (- rowsum)%D in
        let Acell := set Acell nfaces n (- rowsum)%D in
        (Acell, (matsum + rowsum)%D)) (Acell, d_zero) in
    set Acell nfaces nfaces matsum.

  (** One iteration of the cell loop of [UpdateMatricesMixed_]
      (lines 297-411): the local matrix of cell [c] from its inverse mass
      matrix [Wff].  The two [ASSERT(!scaled_constraint_)] are debugging
      checks; the model computes on, as a build without them does. *)
Definition UpdateMatricesMixed_cell (c : nat) (Wff : DenseMatrix) : DenseMatrix :=
    let faces := cell_get_faces mesh_ c in
    let nfaces := length faces in
    let Acell := alloc junk (nfaces + 1) (nfaces + 1) in
    let kc := mixed_kc c in
    let kf := mixed_kf c faces in
    let Acell :=
      if negb (Upwind_eqb upwind_ OPERATOR_UPWIND_AMANZI_DIVK) then
        if negb scaled_constraint_ then fill_not_scaled nfaces Wff kf Acell
        else fill_scaled nfaces Wff kf Acell
      else Acell in
    let Acell :=
      if Upwind_eqb upwind_ OPERATOR_UPWIND_AMANZI_ARTIFICIAL_DIFFUSION
      then add_artificial_diffusion nfaces faces Wff kc Acell else Acell in
    let Acell :=
      if Upwind_eqb upwind_ OPERATOR_UPWIND_AMANZI_DIVK
      then fill_divk nfaces Wff kc kf Acell else Acell in
    Acell.

  (** [UpdateMatricesMixed_]: [local_op_->matrices[c] = Acell] for every
      owned cell. *)
Definition UpdateMatricesMixed_ (Wff_cells_ : list DenseMatrix)
      (matrices : list DenseMatrix) : list DenseMatrix :=
    for_loop 0 (ncells_owned mesh_) (fun c matrices =>
      <[c := UpdateMatricesMixed_cell c (default empty (Wff_cells_ !! c))]> matrices)
      matrices.

  (** [UpdateMatricesMixedWithGrad_] (lines 202-270).  The inverse mass
      matrix comes from [MassMatrixInverseDivKScaled], a WhetStone routine
      given here as the parameter [Wff_divk]. *)
Definition withgrad_kf (c : nat) (faces : list nat) : list double :=
    let nfaces := length faces in
    let kf := replicate nfaces d_one in
    match k_twin with
    | None =>
        for_loop 0 nfaces (fun n kf => vec_set kf n (vec_get k_face (id_at faces n))) kf
    | Some twin =>
        for_loop 0 nfaces (fun n kf =>
          let f := id_at faces n in
          let cells := face_get_cells mesh_ USED f in
          vec_set kf n (if Nat.eqb c (id_at cells 0)
                        then vec_get k_face f else vec_get twin f)) kf
    end.

Definition fill_withgrad (nfaces : nat) (Wff : DenseMatrix) (kf : list double)
      (Acell : DenseMatrix) : DenseMatrix :=
    let '(Acell, matsum) :=
      for_loop 0 nfaces (fun n '(Acell, matsum) =>
        let '(Acell, rowsum) :=
          for_loop 0 nfaces (fun m '(Acell, rowsum) =>
            let tmp := (get Wff n m * vec_get kf n * vec_get kf m)%D in
            (set Acell n m tmp, (rowsum + tmp)%D)) (Acell, d_zero) in
        let Acell := set Acell n nfaces (- rowsum)%D in
        let Acell := set Acell nfaces n (- rowsum)%D in
        (Acell, (matsum + rowsum)%D)) (Acell, d_zero) in
    set Acell nfaces nfaces matsum.

Definition UpdateMatricesMixedWithGrad_cell (Wff_divk : nat -> DenseMatrix) (c : nat)
      : DenseMatrix :=
    let faces := cell_get_faces mesh_ c in
    let nfaces := length faces in
    let kf := withgrad_kf c faces in
    let Wff := Wff_divk c in
    let Acell := alloc junk (nfaces + 1) (nfaces + 1) in
    fill_withgrad nfaces Wff kf Acell.

Definition UpdateMatricesMixedWithGrad_ (Wff_divk : nat -> DenseMatrix)
      (matrices : list DenseMatrix) : list DenseMatrix :=
    for_loop 0 (ncells_owned mesh_) (fun c matrices =>
      <[c := UpdateMatricesMixedWithGrad_cell Wff_divk c]> matrices) matrices.

  (** The local matrix of a cell with [nf] faces annihilates constant
      pressure vectors: every row of the [(nf+1) x (nf+1)] matrix sums to
      zero, so the cell-column entry of a row is the negated sum of its face
      entries, and the product with a constant vector vanishes. *)
Definition annihilates_constants (nf : nat) (A : DenseMatrix) : Prop :=
    shape (nf + 1) (nf + 1) A /\
    zero_row_sums A /\
    (forall n, n <= nf -> get A n nf = (- d_sum nf (get A n))%D) /\
    (forall p, Multiply A (replicate (nf + 1) p) = replicate (nf + 1) d_zero).
End Mixed.

(** *** ApplyBCs, FACE+CELL system (lines 537-596) *)

Section ApplyBCs.
  Context `{Double}.
  Import DenseMatrix.

  Variable mesh_ : Mesh.
  Variable bc_model : list BCModel.
  Variables bc_value bc_mixed : list double.
  (* [CompositeVector::PutScalarGhosted] and [GatherGhostedToMaster] on the
     "face" component of the right-hand side (parallel communication) *)
  Variable PutScalarGhosted : double -> list double -> list double.
  Variable GatherGhostedToMaster : list double -> list double.

Definition bc_model_at (f : nat) : BCModel := default OPERATOR_BC_NONE (bc_model !! f).

  (** What the body of the loop over the faces of one cell reads and writes:
      the local matrix (a reference into [local_op_->matrices]), its shadow
      copy, the [flag] that tells whether the copy is still to be made, and
      the two components of the right-hand side. *)
Record Work := mkWork {
    Acell : DenseMatrix;
    shadow : DenseMatrix;
    flag : bool;
    rhs_face : list double;
    rhs_cell : list double
  }.

  (** The conditions whose branch changes the local matrix. *)
Definition touches_matrix (m : BCModel) : bool :=
    match m with
    | OPERATOR_BC_DIRICHLET | OPERATOR_BC_MIXED => true
    | _ => false
    end.

  (** [if (flag) { matrices_shadow[c] = Acell; flag = false; }] *)
Definition save_shadow (w : Work) : Work :=
    if flag w then mkWork (Acell w) (Acell w) false (rhs_face w) (rhs_cell w) else w.

  (** Lines 569-572:
      [rhs_face[0][faces[m]] -= Acell(m, n) * value;
       Acell(n, m) = Acell(m, n) = 0.0;] for [m = 0 .. nfaces-1]. *)
Definition eliminate_face_block (faces : list nat) (nfaces n : nat) (value : double)
      (w : Work) : Work :=
    for_loop 0 nfaces (fun m w =>
      let fm := id_at faces m in
      let rf := vec_set (rhs_face w) fm
                  (vec_get (rhs_face w) fm - get (Acell w) m n * value)%D in
      let A := set (Acell w) m n d_zero in
      let A := set A n m d_zero in
      mkWork A (shadow w) (flag w) rf (rhs_cell w)) w.

  (** Lines 564-581, the Dirichlet branch. *)
Definition ApplyBCs_Dirichlet (primary : bool) (c : nat) (faces : list nat)
      (nfaces n f : nat) (value : double) (w : Work) : Work :=
    let w := save_shadow w in
    let w := eliminate_face_block faces nfaces n value w in
    let w :=
      if primary
      then mkWork (set (Acell w) n n d_one) (shadow w) (flag w)
                  (vec_set (rhs_face w) f value) (rhs_cell w)
      else w in
    let rc := vec_set (rhs_cell w) c
                (vec_get (rhs_cell w) c - get (Acell w) nfaces n * value)%D in
    let A := set (Acell w) nfaces n d_zero in
    let A := set A n nfaces d_zero in
    mkWork A (shadow w) (flag w) (rhs_face w) rc.

  (** Lines 560-593, one face [n] of cell [c]. *)
Definition ApplyBCs_face (primary : bool) (c : nat) (faces : list nat) (nfaces : nat)
      (n : nat) (w : Work) : Work :=
    let f := id_at faces n in
    let value := vec_get bc_value f in
    match bc_model_at f with
    | OPERATOR_BC_DIRICHLET => ApplyBCs_Dirichlet primary c faces nfaces n f value w
    | OPERATOR_BC_NEUMANN =>
        mkWork (Acell w) (shadow w) (flag w)
               (vec_set (rhs_face w) f (vec_get (rhs_face w) f - value * face_area mesh_ f)%D)
               (rhs_cell w)
    | OPERATOR_BC_MIXED =>
        let w := save_shadow w in
        let area := face_area mesh_ f in
        mkWork (set (Acell w) n n (get (Acell w) n n + vec_get bc_mixed f * area)%D)
               (shadow w) (flag w)
               (vec_set (rhs_face w) f (vec_get (rhs_face w) f - value * area)%D)
               (rhs_cell w)
    | OPERATOR_BC_NONE => w
    end.

  (** The operator's local matrices, their shadows and the right-hand side. *)
Record Op := mkOp {
    matrices : list DenseMatrix;
    matrices_shadow : list DenseMatrix;
    op_rhs_face : list double;
    op_rhs_cell : list double
  }.

  (** Lines 553-594, one owned cell. *)
Definition ApplyBCs_cell (primary : bool) (c : nat) (op : Op) : Op :=
    let faces := cell_get_faces mesh_ c in
    let nfaces := length faces in
    let w := mkWork (default empty (matrices op !! c))
                    (default empty (matrices_shadow op !! c))
                    true (op_rhs_face op) (op_rhs_cell op) in
    let w := for_loop 0 nfaces (ApplyBCs_face primary c faces nfaces) w in
    mkOp (<[c := Acell w]> (matrices op)) (<[c := shadow w]> (matrices_shadow op))
         (rhs_face w) (rhs_cell w).

  (** [ApplyBCs(primary)] when the local schema is CELL base with FACE and
      CELL unknowns. *)
Definition ApplyBCs (primary : bool) (op : Op) : Op :=
    let op := mkOp (matrices op) (matrices_shadow op)
                   (PutScalarGhosted d_zero (op_rhs_face op)) (op_rhs_cell op) in
    let op := for_loop 0 (ncells_owned mesh_) (ApplyBCs_cell primary) op in
    mkOp (matrices op) (matrices_shadow op)
         (GatherGhostedToMaster (op_rhs_face op)) (op_rhs_cell op).

  (** The loops of [ApplyBCs] cut at local face [n] of cell [c]:
      [ApplyBCs_reaches] is what the body of the inner loop finds when the
      loops come to that face, and [ApplyBCs_resumes] is the rest of the run
      from what the body leaves there. *)
Definition ApplyBCs_reaches (primary : bool) (c n : nat) (op : Op) : Work :=
    let faces := cell_get_faces mesh_ c in
    let nfaces := length faces in
    let op := mkOp (matrices op) (matrices_shadow op)
                   (PutScalarGhosted d_zero (op_rhs_face op)) (op_rhs_cell op) in
    let op := for_loop 0 c (ApplyBCs_cell primary) op in
    let w := mkWork (default empty (matrices op !! c))
                    (default empty (matrices_shadow op !! c))
                    true (op_rhs_face op) (op_rhs_cell op) in
    for_loop 0 n (ApplyBCs_face primary c faces nfaces) w.

Definition ApplyBCs_resumes (primary : bool) (c n : nat) (op : Op) (w : Work) : Op :=
    let faces := cell_get_faces mesh_ c in
    let nfaces := length faces in
    let op := mkOp (matrices op) (matrices_shadow op)
                   (PutScalarGhosted d_zero (op_rhs_face op)) (op_rhs_cell op) in
    let op := for_loop 0 c (ApplyBCs_cell primary) op in
    let w := for_loop (S n) nfaces (ApplyBCs_face primary c faces nfaces) w in
    let op := mkOp (<[c := Acell w]> (matrices op)) (<[c := shadow w]> (matrices_shadow op))
                   (rhs_face w) (rhs_cell w) in
    let op := for_loop (S c) (ncells_owned mesh_) (ApplyBCs_cell primary) op in
    mkOp (matrices op) (matrices_shadow op)
         (GatherGhostedToMaster (op_rhs_face op)) (op_rhs_cell op).

  (** Local face [i] of a cell with the faces [faces] carries a condition of
      kind [b] and comes before [k] in the loop over the faces. *)
Definition met (faces : list nat) (b : BCModel) (k i : nat) : Prop :=
    i < k /\ i < length faces /\ bc_model_at (id_at faces i) = b.

#[global] Instance met_dec (faces : list nat) (b : BCModel) (k i : nat) :
    Decision (met faces b k i).
  Proof. unfold met. apply _. Defined.

  (** What the operator must look like for the loops to stay inside its
      vectors: a local matrix of [nfaces + 1] rows and columns for every
      owned cell, an entry of the right-hand side for the cell and for each
      of its faces, and no face listed twice in a cell. *)
Definition fits (op : Op) : Prop :=
    forall c, c < ncells_owned mesh_ ->
      let faces := cell_get_faces mesh_ c in
      c < length (matrices op) /\
      shape (length faces + 1) (length faces + 1) (default empty (matrices op !! c)) /\
      c < length (op_rhs_cell op) /\
      NoDup faces /\
      (forall g, g ∈ faces -> g < length (PutScalarGhosted d_zero (op_rhs_face op))).
End ApplyBCs.

(** *** UpdateFlux (lines 783-822) *)

Section UpdateFlux.
  Context `{Double}.
  Import DenseMatrix.

  Variable mesh_ : Mesh.
  Variables matrices matrices_shadow : list DenseMatrix.
  (* the views [u_cell] and [u_face] of the solution, the latter with its
     ghost entries filled by [ScatterMasterToGhosted] *)
  Variables u_cell u_face : list double.

  (** The flux vector, the [flag] of the faces already done, and a record of
      the faces whose entry was written, in the order of the writes (the
      last one is bookkeeping, not data of the program). *)
Record FluxWork := mkFluxWork {
    flux_data : list double;
    done_flag : list bool;
    writes : list nat
  }.

  (** Lines 802-812: [v] collects the face values and the cell value, [av]
      is the product with the shadow matrix when there is one. *)
Definition local_v (c : nat) : list double :=
    let faces := cell_get_faces mesh_ c in
    map (fun n => vec_get u_face (id_at faces n)) (seq 0 (length faces))
      ++ [vec_get u_cell c].

Definition local_av (c : nat) : list double :=
    let Ashadow := default empty (matrices_shadow !! c) in
    if Nat.eqb (NumRows Ashadow) 0
    then Multiply (default empty (matrices !! c)) (local_v c)
    else Multiply Ashadow (local_v c).

  (** The contribution [av(n) * dirs[n]] of local face [n] of cell [c]. *)
Definition local_flux (c n : nat) : double :=
    (vec_get (local_av c) n * d_of_int (dir_at (cell_get_dirs mesh_ c) n))%D.

  (** Lines 815-819. *)
Definition UpdateFlux_face (c n : nat) (w : FluxWork) : FluxWork :=
    let f := id_at (cell_get_faces mesh_ c) n in
    if Nat.ltb f (nfaces_owned mesh_) && negb (default false (done_flag w !! f))
    then mkFluxWork
           (vec_set (flux_data w) f (vec_get (flux_data w) f - local_flux c n)%D)
           (<[f := true]> (done_flag w))
           (writes w ++ [f])
    else w.

Definition UpdateFlux_cell (c : nat) (w : FluxWork) : FluxWork :=
    for_loop 0 (length (cell_get_faces mesh_ c)) (UpdateFlux_face c) w.

Definition UpdateFlux_work (flux : list double) : FluxWork :=
    let w := mkFluxWork (replicate (length flux) d_zero)
                        (replicate (nfaces_wghost mesh_) false) [] in
    for_loop 0 (ncells_owned mesh_) UpdateFlux_cell w.

  (** [UpdateFlux(u, flux)]: the new content of [flux]. *)
Definition UpdateFlux (flux : list double) : list double :=
    flux_data (UpdateFlux_work flux).

  (** How many times the entry of face [f] was written. *)
Definition write_count (f : nat) (w : FluxWork) : nat :=
    length (filter (fun g => g = f) (writes w)).

  (** Local face [n] of cell [c] is the first place, in the order of the two
      loops, where face [f] shows up. *)
Definition first_visit (f c n : nat) : Prop :=
    c < ncells_owned mesh_ /\ cell_get_faces mesh_ c !! n = Some f /\
    forall c' n', c' < c \/ (c' = c /\ n' < n) ->
      cell_get_faces mesh_ c' !! n' <> Some f.

  (** The position [(c', n')] comes before [(c, n)] in the two loops. *)
Definition visited_before (c n c' n' : nat) : Prop := c' < c \/ (c' = c /\ n' < n).

  (** State of the loops when they stand at position [(c, n)], for a flux
      vector of length [L]: a face not met so far is untouched, a face met
      before holds the contribution of its first visit and was written
      once. *)
Definition flux_invariant (L c n : nat) (w : FluxWork) : Prop :=
    length (flux_data w) = L /\
    length (done_flag w) = nfaces_wghost mesh_ /\
    (forall g, nfaces_owned mesh_ <= g -> g < L -> flux_data w !! g = Some d_zero) /\
    forall g, g < nfaces_owned mesh_ ->
      ((forall c' n', visited_before c n c' n' -> cell_get_faces mesh_ c' !! n' <> Some g) /\
       done_flag w !! g = Some false /\ flux_data w !! g = Some d_zero /\
       write_count g w = 0)
      \/
      (exists c1 n1, visited_before c n c1 n1 /\ cell_get_faces mesh_ c1 !! n1 = Some g /\
         (forall c' n', visited_before c1 n1 c' n' ->
            cell_get_faces mesh_ c' !! n' <> Some g) /\
         done_flag w !! g = Some true /\
         flux_data w !! g = Some (d_zero - local_flux c1 n1)%D /\
         write_count g w = 1).
End UpdateFlux.

(** *** UpdateMatricesTPFA_ (lines 469-529) *)

(** Where a quotient [1.0 / x] is evaluated: in the accumulation over the
    cells, for local face [n] of cell [c], or when the matrix of face [f] is
    filled. *)
Inductive DivSite :=
| DivHalf (c n : nat)
| DivFace (f : nat).

Section TPFA.
  Context `{Double}.
  Import DenseMatrix.

  Variable mesh_ : Mesh.
  Variable junk : nat -> double.
  (* [WhetStone::Tensor], its unit value and [isZero()] *)
  Variable Tensor : Type.
  Variable Tensor_unit : Tensor.
  Variable isZero : Tensor -> bool.
  Variable K_ : option (list Tensor).
  (* [mfd.MassMatrixInverseTPFA(c, Kc, Mff)] *)
  Variable MassMatrixInverseTPFA : nat -> Tensor -> DenseMatrix -> DenseMatrix.
  Variable GatherGhostedToMaster : list double -> list double.

  (** [Kc] in iteration [c]: entry [c] of [K_] when [K_] is set, else the unit
      tensor it was initialised with. *)
Definition Kc_of (c : nat) : Tensor :=
    match K_ with
    | Some K => default Tensor_unit (K !! c)
    | None => Tensor_unit
    end.

  (** The values computed together with the divisors of the quotients
      evaluated on the way. *)
Definition Traced (A : Type) : Type := A * list (DivSite * double).

  (** Lines 486-501. *)
Definition accumulate_cell (c : nat) (s : Traced (list double)) : Traced (list double) :=
    let Kc := Kc_of c in
    if isZero Kc then s
    else
      let faces := cell_get_faces mesh_ c in
      let nfaces := length faces in
      let Mff := MassMatrixInverseTPFA c Kc (alloc junk nfaces nfaces) in
      for_loop 0 nfaces (fun n '(Ttmp, log) =>
        let f := id_at faces n in
        (vec_set Ttmp f (vec_get Ttmp f + d_one / get Mff n n)%D,
         log ++ [(DivHalf c n, get Mff n n)])) s.

Definition transmissibilities : Traced (list double) :=
    let '(Ttmp, log) :=
      for_loop 0 (ncells_owned mesh_) accumulate_cell
        (replicate (nfaces_wghost mesh_) d_zero, []) in
    (GatherGhostedToMaster Ttmp, log).

  (** Lines 505-528, one owned face. *)
Definition populate_face (Ttmp : list double) (f : nat)
      (s : Traced (list DenseMatrix)) : Traced (list DenseMatrix) :=
    let '(matrices, log) := s in
    let cells := face_get_cells mesh_ USED f in
    let ncells := length cells in
    let Aface := alloc junk ncells ncells in
    if d_eqb (vec_get Ttmp f) d_zero then
      (<[f := PutScalar Aface d_zero]> matrices, log)
    else if Nat.eqb ncells 2 then
      let coef := (d_one / vec_get Ttmp f)%D in
      let Aface := set Aface 0 0 coef in
      let Aface := set Aface 1 1 coef in
      let Aface := set Aface 0 1 (- coef)%D in
      let Aface := set Aface 1 0 (- coef)%D in
      (<[f := Aface]> matrices, log ++ [(DivFace f, vec_get Ttmp f)])
    else
      let coef := (d_one / vec_get Ttmp f)%D in
      let Aface := set Aface 0 0 coef in
      (<[f := Aface]> matrices, log ++ [(DivFace f, vec_get Ttmp f)]).

Definition UpdateMatricesTPFA_ (matrices : list DenseMatrix) : Traced (list DenseMatrix) :=
    let '(Ttmp, log) := transmissibilities in
    for_loop 0 (nfaces_owned mesh_) (populate_face Ttmp) (matrices, log).

  (** A divisor met while accumulating, among the cells below [k]: an entry
      of the matrix computed for a cell whose tensor is not zero. *)
Definition half_event (k : nat) (e : DivSite * double) : Prop :=
    exists c n, c < k /\ isZero (Kc_of c) = false /\
      e = (DivHalf c n,
           get (MassMatrixInverseTPFA c (Kc_of c)
                  (alloc junk (length (cell_get_faces mesh_ c))
                              (length (cell_get_faces mesh_ c)))) n n).

  (** A divisor met while filling the face matrices, among the faces below
      [k]: an accumulated value that compared unequal to [0.0]. *)
Definition face_event (Ttmp : list double) (k : nat) (e : DivSite * double) : Prop :=
    exists f, f < k /\ d_eqb (vec_get Ttmp f) d_zero = false /\
              e = (DivFace f, vec_get Ttmp f).

  (** The matrix stored for a face with zero transmissibility. *)
Definition zero_face (f : nat) : DenseMatrix :=
    let ncells := length (face_get_cells mesh_ USED f) in
    PutScalar (alloc junk ncells ncells) d_zero.

  (** The matrix stored for a face whose accumulated value [t] is not zero
      (lines 515-527). *)
Definition coef_face (f : nat) (t : double) : DenseMatrix :=
    let ncells := length (face_get_cells mesh_ USED f) in
    let Aface := alloc junk ncells ncells in
    let coef := (d_one / t)%D in
    if Nat.eqb ncells 2
    then set (set (set (set Aface 0 0 coef) 1 1 coef) 0 1 (- coef)%D) 1 0 (- coef)%D
    else set Aface 0 0 coef.
End TPFA.

(** *** CreateMassMatrices_ (lines 828-892) and UpdateMatricesNodal_
        (lines 418-463) *)

(** The discretization variants a parameter list can select
    ([InitDiffusion_], lines 905-936). *)
Inductive DiffusionMethod :=
| DIFFUSION_HEXAHEDRA_MONOTONE
| DIFFUSION_OPTIMIZED_FOR_MONOTONICITY
| DIFFUSION_TPFA
| DIFFUSION_OPTIMIZED_FOR_SPARSITY
| DIFFUSION_SUPPORT_OPERATOR
| DIFFUSION_POLYHEDRA_SCALED.

(** The routines of [WhetStone::MFD3D_Diffusion] the two functions call. *)
Module MFD3D_Diffusion.
Inductive Routine :=
| MassMatrixInverseSurface
| MassMatrixInverseMMatrixHex
| MassMatrixInverseMMatrix
| MassMatrixInverseOptimizedScaled
| MassMatrixInverseTPFA
| MassMatrixInverseSO
| MassMatrixInverseScaled
| StiffnessMatrixMMatrix
| StiffnessMatrix.
End MFD3D_Diffusion.

(** The mass-matrix routine [CreateMassMatrices_] runs for a variant. *)
Definition routine_of (method : DiffusionMethod) : MFD3D_Diffusion.Routine :=
  match method with
  | DIFFUSION_HEXAHEDRA_MONOTONE => MFD3D_Diffusion.MassMatrixInverseMMatrixHex
  | DIFFUSION_OPTIMIZED_FOR_MONOTONICITY => MFD3D_Diffusion.MassMatrixInverseMMatrix
  | DIFFUSION_TPFA => MFD3D_Diffusion.MassMatrixInverseTPFA
  | DIFFUSION_OPTIMIZED_FOR_SPARSITY => MFD3D_Diffusion.MassMatrixInverseOptimizedScaled
  | DIFFUSION_SUPPORT_OPERATOR => MFD3D_Diffusion.MassMatrixInverseSO
  | DIFFUSION_POLYHEDRA_SCALED => MFD3D_Diffusion.MassMatrixInverseScaled
  end.

(** The variants tried first and followed by the secondary one. *)
Definition is_monotone (method : DiffusionMethod) : bool :=
  match method with
  | DIFFUSION_HEXAHEDRA_MONOTONE | DIFFUSION_OPTIMIZED_FOR_MONOTONICITY => true
  | _ => false
  end.

Section MassMatrices.
  Context `{Double}.
  Import DenseMatrix.

  Variable mesh_ : Mesh.
  Variable junk : nat -> double.
  (* the status codes of WhetStoneDefs.hh *)
  Variables WHETSTONE_ELEMENTAL_MATRIX_OK WHETSTONE_ELEMENTAL_MATRIX_FAILED : Z.
  Variable Tensor : Type.
  Variable Tensor_unit : Tensor.
  Variable K_ : option (list Tensor).
  (* [mfd.R(c, K, W)]: the status returned and the matrix left in [W] *)
  Variable mfd : MFD3D_Diffusion.Routine -> nat -> Tensor -> DenseMatrix -> Z * DenseMatrix.
  Variables mfd_primary_ mfd_secondary_ : DiffusionMethod.
  Variable surface_mesh : bool.
  Variable scalar_rho_mu_ : bool.
  Variables rho_ mu_ : double.
  Variables rho_cv_ mu_cv_ : list double.

  (** The status [ok], the matrix, and the routines run so far (the last is
      bookkeeping for the statements). *)
Record Attempt := mkAttempt {
    calls : list MFD3D_Diffusion.Routine;
    ok : Z;
    Wff : DenseMatrix
  }.

  (** [ok = mfd.R(c, Kc, Wff)]. *)
Definition run (R : MFD3D_Diffusion.Routine) (c : nat) (Kc : Tensor) (a : Attempt)
      : Attempt :=
    let '(status, W) := mfd R c Kc (Wff a) in
    mkAttempt (calls a ++ [R]) status W.

  (** Lines 849-875. *)
Definition mass_matrix_attempt (c : nat) (Kc : Tensor) (Wff0 : DenseMatrix) : Attempt :=
    if surface_mesh then
      run MFD3D_Diffusion.MassMatrixInverseSurface c Kc
          (mkAttempt [] WHETSTONE_ELEMENTAL_MATRIX_FAILED Wff0)
    else
      let method := mfd_primary_ in
      let a := mkAttempt [] WHETSTONE_ELEMENTAL_MATRIX_FAILED Wff0 in
      (* try primary and then secondary discretization methods. *)
      let '(a, method) :=
        match method with
        | DIFFUSION_HEXAHEDRA_MONOTONE =>
            (run MFD3D_Diffusion.MassMatrixInverseMMatrixHex c Kc a, mfd_secondary_)
        | DIFFUSION_OPTIMIZED_FOR_MONOTONICITY =>
            (run MFD3D_Diffusion.MassMatrixInverseMMatrix c Kc a, mfd_secondary_)
        | _ => (a, method)
        end in
      if negb (Z.eqb (ok a) WHETSTONE_ELEMENTAL_MATRIX_OK) then
        match method with
        | DIFFUSION_OPTIMIZED_FOR_SPARSITY =>
            run MFD3D_Diffusion.MassMatrixInverseOptimizedScaled c Kc a
        | DIFFUSION_TPFA => run MFD3D_Diffusion.MassMatrixInverseTPFA c Kc a
        | DIFFUSION_SUPPORT_OPERATOR => run MFD3D_Diffusion.MassMatrixInverseSO c Kc a
        | DIFFUSION_POLYHEDRA_SCALED => run MFD3D_Diffusion.MassMatrixInverseScaled c Kc a
        | _ => a
        end
      else a.

  (** The attempt made for cell [c] in the loop. *)
Definition mass_matrix_of_cell (c : nat) : Attempt :=
    let nfaces := length (cell_get_faces mesh_ c) in
    mass_matrix_attempt c (Kc_of Tensor Tensor_unit K_ c) (alloc junk nfaces nfaces).

  (** An exception leaves the loop; [Some msg] is the message thrown. *)
Definition Thrown : Type := option string.

  (** Lines 841-891, one owned cell: the matrix is scaled and stored, then
      the status is looked at. *)
Definition CreateMassMatrices_cell (c : nat) (s : list DenseMatrix * Thrown)
      : list DenseMatrix * Thrown :=
    match s with
    | (Wff_cells_, Some msg) => (Wff_cells_, Some msg)
    | (Wff_cells_, None) =>
        let a := mass_matrix_of_cell c in
        let factor :=
          if scalar_rho_mu_ then (rho_ / mu_)%D
          else (vec_get rho_cv_ c / vec_get mu_cv_ c)%D in
        let Wff_cells_ := <[c := scale (Wff a) factor]> Wff_cells_ in
        if Z.eqb (ok a) WHETSTONE_ELEMENTAL_MATRIX_FAILED
        then (Wff_cells_, Some "OperatorDiffusion: unexpected failure in WhetStone."%string)
        else (Wff_cells_, None)
    end.

Definition CreateMassMatrices_ (Wff_cells_ : list DenseMatrix) : list DenseMatrix * Thrown :=
    for_loop 0 (ncells_owned mesh_) CreateMassMatrices_cell
      (resize (ncells_owned mesh_) empty Wff_cells_, None).

  (** Lines 440-449 of [UpdateMatricesNodal_]: the first attempt.
      [method = mfd_secondary_] is assigned in both branches and never
      read. *)
Definition stiffness_first (c : nat) (K : Tensor) (Acell0 : DenseMatrix) : Attempt :=
    let a := mkAttempt [] WHETSTONE_ELEMENTAL_MATRIX_FAILED Acell0 in
    match mfd_primary_ with
    | DIFFUSION_OPTIMIZED_FOR_MONOTONICITY =>
        run MFD3D_Diffusion.StiffnessMatrixMMatrix c K a
    | _ => run MFD3D_Diffusion.StiffnessMatrix c K a
    end.

  (** Lines 451-454: the second attempt. *)
Definition stiffness_attempt (c : nat) (K : Tensor) (Acell0 : DenseMatrix) : Attempt :=
    let a := stiffness_first c K Acell0 in
    if negb (Z.eqb (ok a) WHETSTONE_ELEMENTAL_MATRIX_OK)
    then run MFD3D_Diffusion.StiffnessMatrix c K a
    else a.

Definition stiffness_of_cell (Tensor_unit_2d : Tensor) (c : nat) : Attempt :=
    let nnodes := length (cell_get_nodes mesh_ c) in
    stiffness_attempt c (Kc_of Tensor Tensor_unit_2d K_ c) (alloc junk nnodes nnodes).

  (** The local matrices, [nfailed_primary_], and the exception if any. *)
Record NodalState := mkNodal {
    nodal_matrices : list DenseMatrix;
    nfailed_primary_ : Z;
    nodal_thrown : Thrown
  }.

  (** Lines 432-462, one owned cell: here the status is looked at before
      the matrix is stored. *)
Definition UpdateMatricesNodal_cell (Tensor_unit_2d : Tensor) (c : nat) (s : NodalState)
      : NodalState :=
    match nodal_thrown s with
    | Some _ => s
    | None =>
        let nnodes := length (cell_get_nodes mesh_ c) in
        let first := stiffness_first c (Kc_of Tensor Tensor_unit_2d K_ c)
                       (alloc junk nnodes nnodes) in
        let nfailed :=
          if negb (Z.eqb (ok first) WHETSTONE_ELEMENTAL_MATRIX_OK)
          then (nfailed_primary_ s + 1)%Z else nfailed_primary_ s in
        let a := stiffness_of_cell Tensor_unit_2d c in
        if Z.eqb (ok a) WHETSTONE_ELEMENTAL_MATRIX_FAILED
        then mkNodal (nodal_matrices s) nfailed
               (Some "Stiffness_MFD: unexpected failure of LAPACK in WhetStone."%string)
        else mkNodal (<[c := Wff a]> (nodal_matrices s)) nfailed None
    end.

Definition UpdateMatricesNodal_ (Tensor_unit_2d : Tensor) (matrices : list DenseMatrix)
      : NodalState :=
    for_loop 0 (ncells_owned mesh_) (UpdateMatricesNodal_cell Tensor_unit_2d)
      (mkNodal matrices 0%Z None).
End MassMatrices.

(** *** ApplyBCs, CELL system (lines 598-633) *)

Section ApplyBCs_Cell.
  Context `{Double}.
  Import DenseMatrix.

  Variable mesh_ : Mesh.
  Variable bc_model : list BCModel.
  Variables bc_value bc_mixed : list double.

  (** Lines 611-632, one owned face; [Aface] is a reference into
      [local_op_->matrices].  The right-hand side is the "cell" component,
      the "face" component is not touched. *)
Definition ApplyBCs_Cell_face (f : nat) (op : Op) : Op :=
    let Aface := default empty (matrices op !! f) in
    let c0 := id_at (face_get_cells mesh_ USED f) 0 in
    let rhs_cell := op_rhs_cell op in
    match bc_model_at bc_model f with
    | OPERATOR_BC_DIRICHLET =>
        mkOp (matrices op) (matrices_shadow op) (op_rhs_face op)
             (vec_set rhs_cell c0
                (vec_get rhs_cell c0 + vec_get bc_value f * get Aface 0 0)%D)
    | OPERATOR_BC_NEUMANN =>
        mkOp (<[f := scale Aface d_zero]> (matrices op))
             (<[f := Aface]> (matrices_shadow op)) (op_rhs_face op)
             (vec_set rhs_cell c0
                (vec_get rhs_cell c0 - vec_get bc_value f * face_area mesh_ f)%D)
    | OPERATOR_BC_MIXED =>
        (* solve system of two equations in three unknowns *)
        let area := face_area mesh_ f in
        let factor := (area / (d_one + vec_get bc_mixed f * area / get Aface 0 0))%D in
        mkOp (<[f := set Aface 0 0 (vec_get bc_mixed f * factor)%D]> (matrices op))
             (<[f := Aface]> (matrices_shadow op)) (op_rhs_face op)
             (vec_set rhs_cell c0 (vec_get rhs_cell c0 - vec_get bc_value f * factor)%D)
    | OPERATOR_BC_NONE => op
    end.

  (** [ApplyBCs(primary)] when the local schema is FACE base with CELL
      unknowns; [primary] is not read on this path. *)
Definition ApplyBCs_Cell (op : Op) : Op :=
    for_loop 0 (nfaces_owned mesh_) ApplyBCs_Cell_face op.

  (** The matrix and the shadow copy the loop leaves for face [f], from
      those it found. *)
Definition Cell_face_matrix (f : nat) (Aface : DenseMatrix) : DenseMatrix :=
    match bc_model_at bc_model f with
    | OPERATOR_BC_NEUMANN => scale Aface d_zero
    | OPERATOR_BC_MIXED =>
        let area := face_area mesh_ f in
        let factor := (area / (d_one + vec_get bc_mixed f * area / get Aface 0 0))%D in
        set Aface 0 0 (vec_get bc_mixed f * factor)%D
    | _ => Aface
    end.

Definition Cell_face_saves_shadow (f : nat) : bool :=
    match bc_model_at bc_model f with
    | OPERATOR_BC_NEUMANN | OPERATOR_BC_MIXED => true
    | _ => false
    end.
End ApplyBCs_Cell.

(** *** ApplyBCs, NODE system (lines 634-676) *)

Section ApplyBCs_Node.
  Context `{Double}.
  Import DenseMatrix.

  Variable mesh_ : Mesh.
  Variable bc_model : list BCModel.
  Variable bc_value : list double.
  (* [mesh_->node_get_cells(v, AmanziMesh::USED, &cells)] *)
  Variable node_get_cells : nat -> list nat.
  Variables nnodes_owned nnodes_wghost : nat.
  Variable PutScalarGhosted : double -> list double -> list double.
  Variable GatherGhostedToMaster : list double -> list double.

  (** Lines 652-671, one node [n] of cell [c].  The state is that of the
      FACE+CELL loop; its [rhs_face] holds the "node" component of the
      right-hand side here and [rhs_cell] is not used. *)
Definition ApplyBCs_Node_node (primary : bool) (nodes : list nat) (nnodes n : nat)
      (w : Work) : Work :=
    let v := id_at nodes n in
    let value := vec_get bc_value v in
    match bc_model_at bc_model v with
    | OPERATOR_BC_DIRICHLET =>
        let w := save_shadow w in
        let w := eliminate_face_block nodes nnodes n value w in
        if primary then
          let cells := node_get_cells v in
          mkWork (set (Acell w) n n (d_one / d_of_int (Z.of_nat (length cells)))%D)
                 (shadow w) (flag w) (vec_set (rhs_face w) v value) (rhs_cell w)
        else w
    | _ => w
    end.

  (** Lines 645-672, one owned cell. *)
Definition ApplyBCs_Node_cell (primary : bool) (c : nat) (op : Op) : Op :=
    let nodes := cell_get_nodes mesh_ c in
    let nnodes := length nodes in
    let w := mkWork (default empty (matrices op !! c))
                    (default empty (matrices_shadow op !! c))
                    true (op_rhs_face op) (op_rhs_cell op) in
    let w := for_loop 0 nnodes (ApplyBCs_Node_node primary nodes nnodes) w in
    mkOp (<[c := Acell w]> (matrices op)) (<[c := shadow w]> (matrices_shadow op))
         (rhs_face w) (rhs_cell w).

  (** [ApplyBCs(primary)] when the local schema is CELL base with NODE
      unknowns. *)
Definition ApplyBCs_Node (primary : bool) (op : Op) : Op :=
    let rhs_node := PutScalarGhosted d_zero (op_rhs_face op) in
    let rhs_node :=
      for_loop nnodes_owned nnodes_wghost (fun v rhs => vec_set rhs v d_zero) rhs_node in
    let op := mkOp (matrices op) (matrices_shadow op) rhs_node (op_rhs_cell op) in
    let op := for_loop 0 (ncells_owned mesh_) (ApplyBCs_Node_cell primary) op in
    mkOp (matrices op) (matrices_shadow op)
         (GatherGhostedToMaster (op_rhs_face op)) (op_rhs_cell op).
End ApplyBCs_Node.

(** *** ModifyMatrices (lines 745-777) *)

Section ModifyMatrices.
  Context `{Double}.
  Import DenseMatrix.

  Variable mesh_ : Mesh.
  Variable PutScalarGhosted : double -> list double -> list double.
  (* [GatherGhostedToMaster("face", Add)] *)
  Variable GatherGhostedToMaster_Add : list double -> list double.

  (** Lines 765-769: the cell column of the face rows goes to the
      right-hand side with the cell value [u_c[c]], and the coupling between
      faces and cell is cut. *)
Definition ModifyMatrices_faces (nfaces : nat) (faces : list nat) (uc : double)
      (s : DenseMatrix * list double) : DenseMatrix * list double :=
    for_loop 0 nfaces (fun n '(Acell, rhs_f) =>
      let f := id_at faces n in
      let rhs_f := vec_set rhs_f f (vec_get rhs_f f - get Acell n nfaces * uc)%D in
      let Acell := set Acell n nfaces d_zero in
      let Acell := set Acell nfaces n d_zero in
      (Acell, rhs_f)) s.

  (** Lines 759-770, one owned cell. *)
Definition ModifyMatrices_cell (u_c : list double) (c : nat) (op : Op) : Op :=
    let faces := cell_get_faces mesh_ c in
    let nfaces := length faces in
    let '(Acell, rhs_f) :=
      ModifyMatrices_faces nfaces faces (vec_get u_c c)
        (default empty (matrices op !! c), op_rhs_face op) in
    mkOp (<[c := Acell]> (matrices op)) (matrices_shadow op) rhs_f (op_rhs_cell op).

  (** [ModifyMatrices(u)] on the FACE+CELL schema, the only one it accepts
      (lines 747-751). *)
Definition ModifyMatrices (u_c : list double) (op : Op) : Op :=
    let op := mkOp (matrices op) (matrices_shadow op)
                   (PutScalarGhosted d_zero (op_rhs_face op)) (op_rhs_cell op) in
    let op := for_loop 0 (ncells_owned mesh_) (ModifyMatrices_cell u_c) op in
    mkOp (matrices op) (matrices_shadow op)
         (GatherGhostedToMaster_Add (op_rhs_face op)) (op_rhs_cell op).
End ModifyMatrices.

(** *** AddNewtonCorrectionCell_ (lines 687-740) *)

Section NewtonCorrection.
  Context `{Double}.
  Import DenseMatrix.

  Variable mesh_ : Mesh.
  Variable junk : nat -> double.
  (* [fabs] *)
  Variable fabs : double -> double.
  (* the [dir] that [mesh_->face_normal(f, false, c1, &dir)] gives back *)
  Variable face_normal_dir : nat -> nat -> Z.
  (* the "face" components of [k_], [dkdp_] and [flux]; a null pointer is
     [None] *)
  Variables k_ dkdp_ flux : option (list double).
  Variable scalar_rho_mu_ : bool.
  Variable rho_ : double.
  (* the matrices of a freshly made [Op_Face_Cell] *)
  Variable new_Op_Face_Cell : list DenseMatrix.

  (** Lines 718-725: the index, among the cells of the face, of the cell the
      flux [v] leaves. *)
Definition upwind_index (f : nat) (v : double) : nat :=
    let c1 := id_at (face_get_cells mesh_ USED f) 0 in
    let dir := face_normal_dir f c1 in
    if d_leb d_zero (v * d_of_int dir)%D then 0 else 1.

  (** Lines 713-718.  [ASSERT(false)] stands where the densities are not
      scalar; a build without the check goes on with the unscaled value. *)
Definition newton_vmod (kf dkdp_f : list double) (f : nat) (v : double) : double :=
    let vmod := (fabs v * vec_get dkdp_f f / vec_get kf f)%D in
    if scalar_rho_mu_ then (vmod * rho_)%D else vmod.

  (** Lines 706-738, the matrix of one owned face. *)
Definition Newton_face_matrix (kf dkdp_f flux_f : list double) (f : nat) : DenseMatrix :=
    let cells := face_get_cells mesh_ USED f in
    let ncells := length cells in
    let Aface := PutScalar (alloc junk ncells ncells) d_zero in
    let v := vec_get flux_f f in
    let vmod := newton_vmod kf dkdp_f f v in
    let i := upwind_index f v in
    if Nat.eqb ncells 2 then
      let Aface := set Aface i i vmod in
      set Aface (1 - i) i (- vmod)%D
    else if Nat.eqb i 0 then set Aface 0 0 vmod
    else Aface.

  (** [AddNewtonCorrectionCell_(flux, u)]: what becomes of the matrices of
      [jac_op_], [None] as long as the operator has not been created. *)
Definition AddNewtonCorrectionCell_ (jac_op_ : option (list DenseMatrix))
      : option (list DenseMatrix) :=
    match flux with
    | None => jac_op_      (* hack: ignore correction if no flux provided. *)
    | Some flux_f =>
        match k_, dkdp_ with
        | Some kf, Some dkdp_f =>
            (* lazy creation of local op *)
            let jac := match jac_op_ with Some m => m | None => new_Op_Face_Cell end in
            Some (for_loop 0 (nfaces_owned mesh_) (fun f jac =>
                    <[f := Newton_face_matrix kf dkdp_f flux_f f]> jac) jac)
        | _, _ => jac_op_  (* Correction is zero for linear problems *)
        end
    end.
End NewtonCorrection.

(** *** InitDiffusion_, the discretization methods (lines 901-937) *)

(** The character that the messages put around the name they quote. *)
Definition dquote : string := String (Ascii.ascii_of_nat 34) EmptyString.

(** Primary discretization methods *)
Definition primary_method (primary : string) : option DiffusionMethod :=
  if String.eqb primary "mfd: monotone for hex" then Some DIFFUSION_HEXAHEDRA_MONOTONE
  else if String.eqb primary "mfd: optimized for monotonicity"
  then Some DIFFUSION_OPTIMIZED_FOR_MONOTONICITY
  else if String.eqb primary "mfd: two-point flux approximation" then Some DIFFUSION_TPFA
  else if String.eqb primary "mfd: optimized for sparsity"
  then Some DIFFUSION_OPTIMIZED_FOR_SPARSITY
  else if String.eqb primary "mfd: support operator" then Some DIFFUSION_SUPPORT_OPERATOR
  else if String.eqb primary "mfd: default" then Some DIFFUSION_POLYHEDRA_SCALED
  else None.

(** Secondary discretization methods *)
Definition secondary_method (secondary : string) : option DiffusionMethod :=
  if String.eqb secondary "mfd: two-point flux approximation" then Some DIFFUSION_TPFA
  else if String.eqb secondary "mfd: optimized for sparsity"
  then Some DIFFUSION_OPTIMIZED_FOR_SPARSITY
  else if String.eqb secondary "mfd: support operator" then Some DIFFUSION_SUPPORT_OPERATOR
  else if String.eqb secondary "mfd: default" then Some DIFFUSION_POLYHEDRA_SCALED
  else None.

Definition not_supported (which name : string) : string :=
  ("OperatorDiffusion: " ++ which ++ " discretization method " ++ dquote ++ name
   ++ dquote ++ " is not supported.")%string.

(** [mfd_primary_] and [mfd_secondary_] as [InitDiffusion_] sets them from
    the parameters "discretization primary" and "discretization secondary"
    ([None] when the list has no such parameter), or the message of the
    exception raised. *)
Definition InitDiffusion_discretization (primary : string) (secondary : option string)
    : string + DiffusionMethod * DiffusionMethod :=
  let secondary := default primary secondary in
  match primary_method primary with
  | None => inl (not_supported "primary" primary)
  | Some mfd_primary_ =>
      match secondary_method secondary with
      | None => inl (not_supported "secondary" secondary)
      | Some mfd_secondary_ => inr (mfd_primary_, mfd_secondary_)
      end
  end.

End OperatorDiffusionMFD.

(** ** Richards_PK *)

Module Richards_PK.

Inductive FlowStatus :=
| FLOW_STATUS_INIT
| FLOW_STATUS_STEADY_STATE_INIT
| FLOW_STATUS_TRANSIENT_STATE_INIT
| FLOW_STATUS_TRANSIENT_STATE_COMPLETE.

(** The time integration methods the code tests for; any other value of
    [ti_method] is [FLOW_TIME_INTEGRATION_OTHER]. *)
Inductive TI_Method :=
| FLOW_TIME_INTEGRATION_PICARD
| FLOW_TIME_INTEGRATION_BDF1
| FLOW_TIME_INTEGRATION_BDF2
| FLOW_TIME_INTEGRATION_OTHER.

(** [int] is 32 bits wide in two's complement: [num_itrs++] past
    [INT_MAX] comes back at [INT_MIN]. *)
Definition wrap_int (z : Z) : Z :=
  ((z + 2147483648) mod 4294967296 - 2147483648)%Z.

Section Kernel.
  Context `{Double}.

  (* matrices, preconditioner, integrator histories, flow state: what the
     collaborators work on besides the fields below *)
  Context {Env : Type}.

  (** The fields that steer [Advance].  [num_itrs] is an [int];
      [bdf1_dae] and [bdf2_dae] tell whether the pointer is set. *)
Record Control := mkControl {
    flow_status_ : FlowStatus;
    ti_method : TI_Method;
    num_itrs : Z;
    block_picard : Z;
    bdf1_dae : bool;
    bdf2_dae : bool
  }.

  (** The numerical part of the kernel. *)
Record Numeric := mkNumeric {
    solution : list double;
    dT : double;
    dTnext : double;
    T_physics : double;
    env : Env
  }.

Record PK := mkPK { control : Control; numeric : Numeric }.

  (** How a call ends: it returns a value and leaves the kernel in some
      state, an exception leaves it, or it goes through a null integrator
      pointer. *)
Inductive Outcome (A : Type) :=
  | Returned (a : A) (s : PK)
  | Exception
  | NullPointer.
  Arguments Returned {A} a s.
  Arguments Exception {A}.
  Arguments NullPointer {A}.

  (** Code running on the kernel. *)
Definition Run (A : Type) : Type := PK -> Outcome A.

Definition ret {A : Type} (a : A) : Run A := fun s => Returned a s.

Definition bind {A B : Type} (m : Run A) (k : A -> Run B) : Run B :=
    fun s =>
      match m s with
      | Returned a s => k a s
      | Exception => Exception
      | NullPointer => NullPointer
      end.

  Notation "'let*' x ':=' m 'in' k" := (bind m (fun x => k))
    (at level 10, x name, m at level 100, k at level 200).

  (** Reading and writing members. *)
Definition get {A : Type} (f : PK -> A) : Run A := fun s => Returned (f s) s.
Definition put (f : PK -> PK) : Run unit := fun s => Returned tt (f s).

  (** A call of a member function or of an integrator method whose body is
      outside the sources under study: it may read and write the whole
      kernel, and it may throw ([None]). *)
Definition call (f : PK -> option PK) : Run unit :=
    fun s => match f s with Some s => Returned tt s | None => Exception end.
Definition call_for {A : Type} (f : PK -> option (A * PK)) : Run A :=
    fun s => match f s with Some (a, s) => Returned a s | None => Exception end.

  (** [p->...] for an integrator pointer [p]. *)
Definition through (p : Control -> bool) : Run unit :=
    fun s => if p (control s) then Returned tt s else NullPointer.

  (** The callees of [Advance].  Arguments that are members ([*solution],
      [dT], [dTnext]) are read from the kernel; [time] and [udot] are locals
      of [Advance] and are passed.  [get_time] and [most_recent_time] are
      accessors. *)
Record Collaborators := {
    FS_get_time : PK -> double;
    ComputeUDot : double -> PK -> option (list double * PK);
    bdf2_set_initial_state : double -> list double -> PK -> option PK;
    bdf1_set_initial_state : double -> list double -> PK -> option PK;
    AdvanceToSteadyState : PK -> option PK;
    update_precon : double -> PK -> option PK;
    bdf2_step : PK -> option PK;
    bdf2_commit_solution : PK -> option PK;
    write_bdf2_stepping_statistics : PK -> option PK;
    bdf2_most_recent_time : PK -> double;
    bdf1_step : PK -> option PK;
    bdf1_commit_solution : PK -> option PK;
    write_bdf1_stepping_statistics : PK -> option PK;
    bdf1_most_recent_time : PK -> double;
    PicardTimeStep : double -> PK -> option PK
  }.

  Variable ext : Collaborators.

Definition set_dT (x : double) (nu : Numeric) : Numeric :=
    mkNumeric (solution nu) x (dTnext nu) (T_physics nu) (env nu).
Definition set_dTnext (x : double) (nu : Numeric) : Numeric :=
    mkNumeric (solution nu) (dT nu) x (T_physics nu) (env nu).
Definition set_T_physics (x : double) (nu : Numeric) : Numeric :=
    mkNumeric (solution nu) (dT nu) (dTnext nu) x (env nu).
Definition set_block_picard (x : Z) (ctl : Control) : Control :=
    mkControl (flow_status_ ctl) (ti_method ctl) (num_itrs ctl) x
              (bdf1_dae ctl) (bdf2_dae ctl).
Definition set_num_itrs (x : Z) (ctl : Control) : Control :=
    mkControl (flow_status_ ctl) (ti_method ctl) x (block_picard ctl)
              (bdf1_dae ctl) (bdf2_dae ctl).
Definition set_flow_status_ (x : FlowStatus) (ctl : Control) : Control :=
    mkControl x (ti_method ctl) (num_itrs ctl) (block_picard ctl)
              (bdf1_dae ctl) (bdf2_dae ctl).

Definition on_control (f : Control -> Control) (s : PK) : PK :=
    mkPK (f (control s)) (numeric s).
Definition on_numeric (f : Numeric -> Numeric) (s : PK) : PK :=
    mkPK (control s) (f (numeric s)).


  (** [CalculateFlowDt] (lines 536-540): the value returned and the kernel
      afterwards. *)
Definition CalculateFlowDt (s : PK) : double * PK :=
    let ctl := control s in
    let nu := numeric s in
    let nu :=
      match ti_method ctl with
      | FLOW_TIME_INTEGRATION_PICARD =>
          if Z.eqb (block_picard ctl) 1
          then set_dT (dT nu * d_of_int 10000)%D nu else nu
      | _ => nu
      end in
    (dT nu, mkPK ctl nu).

  (** Lines 556-574, the block run when [num_itrs == 0]. *)
Definition Advance_init (time : double) : Run unit :=
    let* udot := call_for (ComputeUDot ext time) in
    let* ti := get (fun s => ti_method (control s)) in
    let* _ :=
      match ti with
      | FLOW_TIME_INTEGRATION_BDF2 =>
          let* _ := through bdf2_dae in
          call (bdf2_set_initial_state ext time udot)
      | FLOW_TIME_INTEGRATION_BDF1 =>
          let* _ := through bdf1_dae in
          call (bdf1_set_initial_state ext time udot)
      | FLOW_TIME_INTEGRATION_PICARD =>
          let* status := get (fun s => flow_status_ (control s)) in
          match status with
          | FLOW_STATUS_STEADY_STATE_INIT =>
              let* _ := call (AdvanceToSteadyState ext) in
              (* We will wait for transient initialization. *)
              put (on_control (set_block_picard 1))
          | _ => ret tt
          end
      | FLOW_TIME_INTEGRATION_OTHER => ret tt
      end in
    call (update_precon ext time).

  (** Lines 576-597, the step itself. *)
Definition Advance_step (time : double) : Run unit :=
    let* ti := get (fun s => ti_method (control s)) in
    match ti with
    | FLOW_TIME_INTEGRATION_BDF2 =>
        let* _ := through bdf2_dae in
        let* _ := call (bdf2_step ext) in
        let* _ := call (bdf2_commit_solution ext) in
        let* _ := call (write_bdf2_stepping_statistics ext) in
        let* t := get (bdf2_most_recent_time ext) in
        put (on_numeric (set_T_physics t))
    | FLOW_TIME_INTEGRATION_BDF1 =>
        let* _ := through bdf1_dae in
        let* _ := call (bdf1_step ext) in
        let* _ := call (bdf1_commit_solution ext) in
        let* _ := call (write_bdf1_stepping_statistics ext) in
        let* t := get (bdf1_most_recent_time ext) in
        put (on_numeric (set_T_physics t))
    | FLOW_TIME_INTEGRATION_PICARD =>
        let* block := get (fun s => block_picard (control s)) in
        if Z.eqb block 0
        then call (PicardTimeStep ext time)  (* Updates solution vector. *)
        else put (on_numeric (fun nu => set_dTnext (dT nu) nu))
    | FLOW_TIME_INTEGRATION_OTHER => ret tt
    end.

  (** Lines 598-601. *)
Definition Advance_count : Run Z :=
    let* _ := put (on_control (fun ctl => set_num_itrs (wrap_int (num_itrs ctl + 1)) ctl)) in
    let* _ := put (on_control (set_flow_status_ FLOW_STATUS_TRANSIENT_STATE_COMPLETE)) in
    ret 0%Z.

  (** [Advance(dT_MPC)] (lines 548-602). *)
Definition Advance (dT_MPC : double) : Run Z :=
    let* _ := put (on_numeric (set_dT dT_MPC)) in
    let* time := get (FS_get_time ext) in
    let* _ := if d_leb d_zero time then put (on_numeric (set_T_physics time)) else ret tt in
    (* predict water mass change during time step *)
    let* time := get (fun s => T_physics (numeric s)) in
    let* itrs := get (fun s => num_itrs (control s)) in
    let* _ := if Z.eqb itrs 0 then Advance_init time else ret tt in
    let* _ := Advance_step time in
    Advance_count.

  (** [Advance] called once for each step length of [dTs], in turn. *)
Fixpoint Advance_all (dTs : list double) : Run unit :=
    match dTs with
    | [] => ret tt
    | dT_MPC :: dTs => let* _ := Advance dT_MPC in Advance_all dTs
    end.

  (** The kernel after lines 550-552: [dT] set, [T_physics] taken from the
      flow state when its time is not negative. *)
Definition entered (dT_MPC : double) (s : PK) : PK :=
    let s := on_numeric (set_dT dT_MPC) s in
    let time := FS_get_time ext s in
    if d_leb d_zero time then on_numeric (set_T_physics time) s else s.

  (** Line 595, [dTnext = dT], and lines 598-600. *)
Definition handed_on (s : PK) : PK :=
    on_numeric (fun nu => set_dTnext (dT nu) nu) s.
Definition counted (s : PK) : PK :=
    mkPK (mkControl FLOW_STATUS_TRANSIENT_STATE_COMPLETE (ti_method (control s))
            (wrap_int (num_itrs (control s) + 1)) (block_picard (control s))
            (bdf1_dae (control s)) (bdf2_dae (control s)))
         (numeric s).

  (** The kernel a call of [Advance] leaves when lines 556-574 are not run
      and the Picard step is blocked: nothing is called, the step length is
      handed on and the call is counted. *)
Definition passed_through (dT_MPC : double) (s : PK) : PK :=
    let time := FS_get_time ext (on_numeric (set_dT dT_MPC) s) in
    mkPK (mkControl FLOW_STATUS_TRANSIENT_STATE_COMPLETE (ti_method (control s))
            (wrap_int (num_itrs (control s) + 1)) (block_picard (control s))
            (bdf1_dae (control s)) (bdf2_dae (control s)))
         (mkNumeric (solution (numeric s)) dT_MPC dT_MPC
            (if d_leb d_zero time then time else T_physics (numeric s))
            (env (numeric s))).

  (** The values of an [int], and the number of calls after which a counter
      at [n] stands at 0 again. *)
Definition is_int (n : Z) : Prop := (-2147483648 <= n < 2147483648)%Z.
Definition calls_until_zero (n : Z) : Z :=
    (if Z.ltb n 0 then - n else 4294967296 - n)%Z.

End Kernel.

Arguments Numeric {_} Env.
Arguments PK {_} Env.
Arguments Collaborators {_} Env.
Arguments Outcome {_} Env A.
Arguments Run {_} Env A.
Arguments Returned {_ _ _} a s.
Arguments Exception {_ _ _}.
Arguments NullPointer {_ _ _}.

Section Derived.
  Context `{Double}.

  Variable mesh_ : Mesh.

  (** [DeriveFaceValuesFromCellValues] (lines 711-728). *)
Definition DeriveFaceValuesFromCellValues (atm_pressure : double)
      (ucells ufaces : list double) : list double :=
    for_loop 0 (nfaces_owned mesh_) (fun f ufaces =>
      let cells := face_get_cells mesh_ OWNED f in
      let ncells := length cells in
      if Nat.ltb 0 ncells then
        let face_value :=
          for_loop 0 ncells (fun n face_value =>
            (face_value + vec_get ucells (id_at cells n))%D) d_zero in
        vec_set ufaces f (face_value / d_of_int (Z.of_nat ncells))%D
      else vec_set ufaces f atm_pressure) ufaces.

  (* [mfd.cell_get_face_adj_cell(c, f)], an [int] *)
  Variable cell_get_face_adj_cell : nat -> nat -> Z.
  (* [FS->CopyMasterFace2GhostFace] and [FS->CopyMasterCell2GhostCell] *)
  Variable CopyMasterFace2GhostFace : list double -> list double.
  Variable CopyMasterCell2GhostCell : list double -> list double.

  (** [v[i]] for an [int] index; outside the vector the access is undefined
      and the model stops with [None]. *)
Definition vec_at (v : list double) (i : Z) : option double :=
    if Z.ltb i 0 then None else v !! Z.to_nat i.

  (** Lines 803-811: [wsmin] and [wsmax] of cell [c], read from [ws]. *)
Definition saturation_range (ws : list double) (c : nat) (faces : list nat)
      : option (double * double) :=
    match ws !! c with
    | None => None
    | Some wsc =>
        for_loop 0 (length faces) (fun n r =>
          match r with
          | None => None
          | Some (wsmin, wsmax) =>
              let f := id_at faces n in
              let c2 := cell_get_face_adj_cell c f in
              match vec_at ws c2 with
              | None => None
              | Some w2 => Some (std_min wsmin w2, std_max wsmax w2)
              end
          end) (Some (wsc, wsc))
    end.

  (** Lines 799-824, one owned cell. *)
Definition ImproveAlgebraicConsistency_cell (dT : double) (phi flux_d ws_prev : list double)
      (c : nat) (ws : option (list double)) : option (list double) :=
    match ws with
    | None => None
    | Some ws =>
        let faces := cell_get_faces mesh_ c in
        let dirs := cell_get_dirs mesh_ c in
        let nfaces := length faces in
        (* calculate min/max values *)
        match saturation_range ws c faces with
        | None => None
        | Some (wsmin, wsmax) =>
            (* predict new saturation *)
            let wsc := vec_get ws_prev c in
            let factor := (dT / (vec_get phi c * cell_volume mesh_ c))%D in
            let wsc :=
              for_loop 0 nfaces (fun n wsc =>
                let f := id_at faces n in
                (wsc - factor * vec_get flux_d f * d_of_int (dir_at dirs n))%D) wsc in
            (* limit new saturation *)
            let wsc := std_max wsc wsmin in
            let wsc := std_min wsc wsmax in
            Some (vec_set ws c wsc)
        end
    end.

  (** [ImproveAlgebraicConsistency(flux, ws_prev, ws)] (lines 781-825): the
      new content of [ws].  The copy [ws_d] made at lines 790-792 is not
      read afterwards and has no counterpart here. *)
Definition ImproveAlgebraicConsistency (dT : double) (phi flux ws_prev ws : list double)
      : option (list double) :=
    let flux_d :=
      for_loop 0 (nfaces_owned mesh_) (fun f flux_d => vec_set flux_d f (vec_get flux f))
        (replicate (nfaces_wghost mesh_) d_zero) in
    let flux_d := CopyMasterFace2GhostFace flux_d in
    for_loop 0 (ncells_owned mesh_)
      (ImproveAlgebraicConsistency_cell dT phi flux_d ws_prev) (Some ws).

  (** The interval spanned by the values [ws0] holds in cell [c] and in the
      cells across its faces: [x] lies in it when it is not below all of
      them and not above all of them. *)
Definition within_neighbour_range (ws0 : list double) (c : nat) (x : double) : Prop :=
    let cs := Z.of_nat c :: map (cell_get_face_adj_cell c) (cell_get_faces mesh_ c) in
    (exists c1 w1, c1 ∈ cs /\ vec_at ws0 c1 = Some w1 /\ d_leb w1 x = true) /\
    (exists c2 w2, c2 ∈ cs /\ vec_at ws0 c2 = Some w2 /\ d_leb x w2 = true).
End Derived.

(** *** AddTimeDerivative_MFD (lines 755-773) *)

Section TimeDerivative.
  Context `{Double}.

  Variable mesh_ : Mesh.
  Variable rho : double.
  Variable phi : list double.
  (* [DerivedSdP(pressure_cells, dSdP)] *)
  Variable DerivedSdP : list double -> list double.

  (** The new content of [Acc_cells] and [Fc_cells]. *)
Definition AddTimeDerivative_MFD (pressure_cells : list double) (dT_prec : double)
      (s : list double * list double) : list double * list double :=
    let dSdP := DerivedSdP pressure_cells in
    let ncells := ncells_owned mesh_ in
    for_loop 0 ncells (fun c '(Acc_cells, Fc_cells) =>
      let volume := cell_volume mesh_ c in
      let factor := (rho * vec_get phi c * vec_get dSdP c * volume / dT_prec)%D in
      (vec_set Acc_cells c (vec_get Acc_cells c + factor)%D,
       vec_set Fc_cells c (vec_get Fc_cells c + factor * vec_get pressure_cells c)%D)) s.
End TimeDerivative.

End Richards_PK.

(** ** DG_Modal *)

Module DG_Modal.
Section MassMatrix.
  Context `{Double}.
  Import DenseMatrix.

  Variable junk : nat -> double.
  (* space dimension *)
  Variable d_ : nat.
  (* the monomials of [Polynomial p(d_, order_)] in the order of its
     iterator, each by its multi-index; [PolynomialPosition()] of the
     [k]-th one is [k], and [p.size()] is their number *)
  Variable monomials : list (list nat).
  Variable MonomialSetPosition : list nat -> nat.
  (* [integrals(n, m)], the integrals of monomials of the cell after
     [UpdateIntegrals_] or [UpdateMonomialIntegralsCell] *)
  Variable integrals : nat -> nat -> double.
  Variable K00 : double.
  (* [basis_[c]->BilinearFormNaturalToMy(M)], a virtual member of the basis
     of the cell *)
  Variable BilinearFormNaturalToMy : DenseMatrix -> DenseMatrix.

Definition multi_index_of (k : nat) : list nat := default [] (monomials !! k).

  (** Lines 75-79: [multi_index[i] = idx_p[i] + idx_q[i]] and their sum [n]. *)
Definition add_multi_index (idx_p idx_q : list nat) : list nat * nat :=
    for_loop 0 d_ (fun i '(multi_index, n) =>
      let x := id_at idx_p i + id_at idx_q i in
      (<[i := x]> multi_index, n + x)) (replicate 3 0, 0).

  (** The value stored for the pair [(k, l)]. *)
Definition mass_entry (k l : nat) : double :=
    let '(multi_index, n) := add_multi_index (multi_index_of k) (multi_index_of l) in
    (K00 * integrals n (MonomialSetPosition multi_index))%D.

  (** Lines 67-83: [M(l, k) = M(k, l) = ...] for [l] from [k] on. *)
Definition assemble (M : DenseMatrix) : DenseMatrix :=
    let nrows := length monomials in
    for_loop 0 nrows (fun k M =>
      for_loop k nrows (fun l M =>
        let v := mass_entry k l in
        let M := set M k l v in
        set M l k v) M) M.

  (** Lines 109-126: [M(k, l) = ...; M(l, k) = M(k, l);]. *)
Definition assemble_readback (M : DenseMatrix) : DenseMatrix :=
    let nrows := length monomials in
    for_loop 0 nrows (fun k M =>
      for_loop k nrows (fun l M =>
        let M := set M k l (mass_entry k l) in
        set M l k (get M k l)) M) M.

  (** [MassMatrix(c, K, M)] (lines 52-88), the matrix left in [M]. *)
Definition MassMatrix : DenseMatrix :=
    let nrows := length monomials in
    BilinearFormNaturalToMy (assemble (alloc junk nrows nrows)).

  (** [MassMatrix(c, K, integrals, M)] (lines 94-131). *)
Definition MassMatrix_integrals : DenseMatrix :=
    let nrows := length monomials in
    BilinearFormNaturalToMy (assemble_readback (alloc junk nrows nrows)).
End MassMatrix.
Section StiffnessMatrix.
  Context `{Double}.
  Import DenseMatrix.

  Variable junk : nat -> double.
  Variable d_ : nat.
  Variable monomials : list (list nat).
  Variable MonomialSetPosition : list nat -> nat.
  Variable integrals : nat -> nat -> double.
  (* [Ktmp(i, j)]: the tensor [K] when its rank is 2, the diagonal tensor
     made of [K(0, 0)] otherwise (lines 270-275) *)
  Variable Ktmp : nat -> nat -> double.
  Variable BilinearFormNaturalToMy : DenseMatrix -> DenseMatrix.

  (** Lines 299-317: the value stored for the pair [(k, l)].  The two
      decrements are undone before the next pair of directions, so every pair
      starts from the sum of the two multi-indices. *)
Definition stiffness_entry (k l : nat) : double :=
    let index := multi_index_of monomials k in
    let jndex := multi_index_of monomials l in
    let '(multi_index, n) := add_multi_index d_ index jndex in
    for_loop 0 d_ (fun i sum =>
      for_loop 0 d_ (fun j sum =>
        if Nat.ltb 0 (id_at index i) && Nat.ltb 0 (id_at jndex j) then
          let mi := <[i := id_at multi_index i - 1]> multi_index in
          let mi := <[j := id_at mi j - 1]> mi in
          let tmp := integrals (n - 2) (MonomialSetPosition mi) in
          (sum + Ktmp i j * tmp * d_of_int (Z.of_nat (id_at index i))
                 * d_of_int (Z.of_nat (id_at jndex j)))%D
        else sum) sum) d_zero.

  (** Lines 291-320: [A(l, k) = A(k, l) = sum] for [l] from [k] on. *)
Definition stiffness_assemble (A : DenseMatrix) : DenseMatrix :=
    let nrows := length monomials in
    for_loop 0 nrows (fun k A =>
      for_loop k nrows (fun l A =>
        let sum := stiffness_entry k l in
        let A := set A k l sum in
        set A l k sum) A) A.

  (** [StiffnessMatrix(c, K, A)] (lines 268-326), the matrix left in [A]. *)
Definition StiffnessMatrix : DenseMatrix :=
    let nrows := length monomials in
    BilinearFormNaturalToMy (stiffness_assemble (alloc junk nrows nrows)).
End StiffnessMatrix.

Section FaceMatrixPenalty.
  Context `{Double}.
  Import DenseMatrix.

  Variable junk : nat -> double.
  (* [poly0.size()], the number of monomials, and [cells.size()] *)
  Variable size : nat.
  Variable ncells : nat.
  (* the values [numi_.IntegratePolynomialsFace(f, polys)] returns for the
     monomials at positions [k] and [l]: both taken about the centroid of
     [c1] ([coef00]), the first about [c1] and the second about [c2]
     ([coef01]), both about [c2] ([coef11]) *)
  Variables coef00 coef01 coef11 : nat -> nat -> double.
  Variable Kf : double.
  (* [basis_[c1]->BilinearFormNaturalToMy(A)] and its two-basis overload *)
  Variable basis_cell : DenseMatrix -> DenseMatrix.
  Variable basis_interface : DenseMatrix -> DenseMatrix.

  (** Lines 841-878; [c2 >= 0] is [ncells > 1]. *)
Definition penalty_fill (A : DenseMatrix) : DenseMatrix :=
    for_loop 0 size (fun k A =>
      for_loop 0 size (fun l A =>
        let A := set A k l (Kf * coef00 k l)%D in
        if Nat.ltb 1 ncells then
          let A := set A k (size + l) (- Kf * coef01 k l)%D in
          let A := set A (size + k) (size + l) (Kf * coef11 k l)%D in
          set A (size + l) k (- Kf * coef01 k l)%D
        else A) A) A.

  (** [FaceMatrixPenalty(f, Kf, A)] (lines 818-887), the matrix left in
      [A]. *)
Definition FaceMatrixPenalty : DenseMatrix :=
    let nrows := ncells * size in
    let A := penalty_fill (alloc junk nrows nrows) in
    if Nat.eqb ncells 1 then basis_cell A else basis_interface A.
End FaceMatrixPenalty.

End DG_Modal.

(** ** Basis_Regularized

    The regularized basis of the dG methods: the monomial of degree [m] is
    scaled by [monomial_scales_[m]]. *)

Module Basis_Regularized.
Section Def.
  Context `{Double}.
  Import DenseMatrix.

  (* [std::pow] *)
  Variable pow : double -> double -> double.
  (* [MonomialSetOrder()] of the monomials [PolynomialIterator it(d_)]
     visits from [it.begin()] for as long as the order is at most [order_],
     in sequence; [PolynomialPosition()] of the [n]-th one is [n] *)
  Variable orders : list nat.

Record t := mk {
    order_ : nat;
    d_ : nat;
    monomial_scales_ : list double
  }.

  (** [Init(mesh, c, order)] (lines 948-963), with the space dimension and
      the volume of the cell read from the mesh.  [resize] fills the new
      places with [0.0]. *)
Definition Init (space_dimension : nat) (volume : double) (order : nat) (b : t) : t :=
    let k0 := length (monomial_scales_ b) in
    if Nat.ltb k0 (order + 1) then
      let scales := resize (order + 1) d_zero (monomial_scales_ b) in
      let scales :=
        for_loop k0 (order + 1) (fun k scales =>
          vec_set scales k
            (pow volume (- d_of_int (Z.of_nat k) / d_of_int (Z.of_nat space_dimension))%D))
          scales in
      mk order space_dimension scales
    else b.

  (** Lines 972-979 and 1014-1022: the scale of every monomial position, in
      a vector of [size] zeros. *)
Definition position_scales (size : nat) (scales : list double) : list double :=
    for_loop 0 (length orders) (fun n a =>
      vec_set a n (vec_get scales (id_at orders n))) (replicate size d_zero).

  (** [BilinearFormNaturalToMy(A)] (lines 969-987), "R^T * A * R". *)
Definition BilinearFormNaturalToMy (b : t) (A : DenseMatrix) : DenseMatrix :=
    let nrows := NumRows A in
    let a := position_scales nrows (monomial_scales_ b) in
    for_loop 0 nrows (fun k A =>
      for_loop 0 nrows (fun i A =>
        set A i k (get A i k * vec_get a k * vec_get a i)%D) A) A.

  (** [BilinearFormNaturalToMy(bl, br, A)] (lines 1007-1036) for the matrix
      of an interface; [bll] and [brr] are the two bases. *)
Definition BilinearFormNaturalToMy_interface (bll brr : t) (A : DenseMatrix)
      : DenseMatrix :=
    let nrows := NumRows A in
    let m := nrows / 2 in
    let a1 := position_scales m (monomial_scales_ bll) in
    let a2 := position_scales m (monomial_scales_ brr) in
    for_loop 0 m (fun k A =>
      for_loop 0 m (fun i A =>
        let A := set A i k (get A i k * vec_get a1 k * vec_get a1 i)%D in
        let A := set A i (k + m) (get A i (k + m) * vec_get a1 i * vec_get a2 k)%D in
        let A := set A (i + m) k (get A (i + m) k * vec_get a2 i * vec_get a1 k)%D in
        set A (i + m) (k + m) (get A (i + m) (k + m) * vec_get a2 i * vec_get a2 k)%D)
        A) A.

End Def.

Section Interface.
  Context `{Double}.

  (* half the number of rows, and the scales [a1] and [a2] of the positions *)
  Variable m : nat.
  Variables a1 a2 : list double.

  (** The scale of row or column [r] of the matrix of an interface: of the
      first basis in the first half, of the second basis in the second. *)
Definition side_scale (r : nat) : double :=
    if decide (r < m) then vec_get a1 r else vec_get a2 (r - m).

  (** Lines 1027-1034 apply the two factors column first in the leading
      block and row first in the three others. *)
Definition interface_scaled (r c : nat) (x : double) : double :=
    if decide (r < m /\ c < m) then (x * side_scale c * side_scale r)%D
    else (x * side_scale r * side_scale c)%D.
End Interface.
End Basis_Regularized.

(** ** Concrete data

    Small meshes and matrices on which the definitions above are run. *)

(** One cell with two faces. *)
Definition one_cell_mesh : @Mesh Z_double :=
  @Build_Mesh Z_double 1 2 2
    (fun _ => [0; 1]) (fun _ => [(-1)%Z; 1%Z]) (fun _ => [])
    (fun _ _ => [0]) (fun _ => 1%Z) (fun _ => 1%Z).

(** An inverse mass matrix of its face block. *)
Definition one_cell_Wff : @DenseMatrix Z_double :=
  @DenseMatrix.mk Z_double 2 2 [5; 1; 1; 4]%Z.

(** The local matrix [UpdateMatricesMixed_] builds from it with flux
    upwinding and face coefficients 2 and 3: rows 10 2 -12, 3 12 -15 and
    -13 -14 27. *)
Definition one_cell_Acell : @DenseMatrix Z_double :=
  @DenseMatrix.mk Z_double 3 3 [10; 3; -13; 2; 12; -14; -12; -15; 27]%Z.

(** Two owned faces: face 0 lies between the owned cells 0 and 1, face 1
    has no owned cell; a third, ghost face follows. *)
Definition two_face_mesh : @Mesh Q_double :=
  @Build_Mesh Q_double 2 2 3
    (fun c => [0; 1]) (fun _ => [(-1)%Z; 1%Z]) (fun _ => [])
    (fun _ f => match f with 0 => [0; 1] | _ => [] end)
    (fun _ => 1%Q) (fun _ => 1%Q).

(** Four cells in a closed ring: face [f] lies between cells [f - 1] and
    [f] (modulo 4), cell [c] has the faces [c] and [c + 1]; every face has
    two cells and all of them are owned. *)
Definition ring_mesh : @Mesh Q_double :=
  @Build_Mesh Q_double 4 4 4
    (fun c => [c; (c + 1) mod 4]) (fun _ => [(-1)%Z; 1%Z]) (fun _ => [])
    (fun _ f => [(f + 3) mod 4; f])
    (fun _ => 1%Q) (fun _ => 1%Q).

(** The cell on the other side of face [f] of cell [c] in the ring. *)
Definition ring_adj (c f : nat) : Z :=
  if Nat.eqb f c then Z.of_nat ((c + 3) mod 4) else Z.of_nat ((c + 1) mod 4).

(** The operator over the one-cell mesh before boundary conditions are
    applied: no shadow matrix yet. *)
Definition one_cell_op : @OperatorDiffusionMFD.Op Z_double :=
  @OperatorDiffusionMFD.mkOp Z_double [one_cell_Acell] [@DenseMatrix.empty Z_double]
    [0; 0]%Z [0]%Z.

(** Status codes, and a WhetStone in which only the support-operator routine
    succeeds. *)
Definition code_OK : Z := 0.
Definition code_FAILED : Z := 4.

Definition only_SO_succeeds (R : OperatorDiffusionMFD.MFD3D_Diffusion.Routine) (c : nat)
    (K : unit) (W : @DenseMatrix Z_double) : Z * @DenseMatrix Z_double :=
  match R with
  | OperatorDiffusionMFD.MFD3D_Diffusion.MassMatrixInverseSO => (code_OK, W)
  | _ => (code_FAILED, W)
  end.

(** Collaborators of the Richards kernel that return at once and change
    nothing, over an empty environment. *)
Definition idle_collaborators : @Richards_PK.Collaborators Q_double unit :=
  @Richards_PK.Build_Collaborators Q_double unit
    (fun _ => 0%Q)                 (* FS_get_time *)
    (fun _ s => Some ([], s))      (* ComputeUDot *)
    (fun _ _ s => Some s)          (* bdf2_set_initial_state *)
    (fun _ _ s => Some s)          (* bdf1_set_initial_state *)
    (fun s => Some s)              (* AdvanceToSteadyState *)
    (fun _ s => Some s)            (* update_precon *)
    (fun s => Some s)              (* bdf2_step *)
    (fun s => Some s)              (* bdf2_commit_solution *)
    (fun s => Some s)              (* write_bdf2_stepping_statistics *)
    (fun _ => 0%Q)                 (* bdf2_most_recent_time *)
    (fun s => Some s)              (* bdf1_step *)
    (fun s => Some s)              (* bdf1_commit_solution *)
    (fun s => Some s)              (* write_bdf1_stepping_statistics *)
    (fun _ => 0%Q)                 (* bdf1_most_recent_time *)
    (fun _ s => Some s).           (* PicardTimeStep *)


(** A kernel in the blocked Picard phase whose counter stands at
    [INT_MAX], with a step length of 2. *)
Definition blocked_kernel : @Richards_PK.PK Q_double unit :=
  @Richards_PK.mkPK Q_double unit
    (Richards_PK.mkControl Richards_PK.FLOW_STATUS_TRANSIENT_STATE_COMPLETE
       Richards_PK.FLOW_TIME_INTEGRATION_PICARD 2147483647%Z 1%Z false false)
    (@Richards_PK.mkNumeric Q_double unit [1 # 1]%Q (2 # 1)%Q 0%Q 0%Q tt).

(** Polynomials of degree at most 3 in one variable on a cell of length
    0.1 about its centroid: the integral of [x^n] is [0.1^(n+1) / ((n+1) 2^n)]
    for even [n] and 0 for odd [n]; the scales of the regularized basis are
    1, 10, 100 and 1000. *)
Definition short_cell_integrals (n m : nat) : PrimFloat.float :=
  match n with
  | 0 => F_ratio 1 10
  | 2 => F_ratio 1 12000
  | 4 => F_ratio 1 8000000
  | 6 => F_ratio 1 4480000000
  | _ => PrimFloat.zero
  end.

Definition short_cell_basis : @Basis_Regularized.t F_double :=
  @Basis_Regularized.mk F_double 3 1
    [float_of_Z 1; float_of_Z 10; float_of_Z 100; float_of_Z 1000].

Definition short_cell_MassMatrix : @DenseMatrix F_double :=
  @DG_Modal.MassMatrix F_double (fun _ => PrimFloat.zero) 1 [[0]; [1]; [2]; [3]]
    (fun _ => 0) short_cell_integrals PrimFloat.one
    (@Basis_Regularized.BilinearFormNaturalToMy F_double [0; 1; 2; 3] short_cell_basis).

(** One cell with two faces over binary64, an inverse mass matrix with rows
    1 1 and 1 0.5, and the face coefficients 0.1 and 1 of flux upwinding. *)
Definition flux_cell_mesh : @Mesh F_double :=
  @Build_Mesh F_double 1 2 2
    (fun _ => [0; 1]) (fun _ => [(-1)%Z; 1%Z]) (fun _ => [])
    (fun _ _ => [0]) (fun _ => PrimFloat.one) (fun _ => PrimFloat.one).

Definition flux_cell_Wff : @DenseMatrix F_double :=
  @DenseMatrix.mk F_double 2 2
    [PrimFloat.one; PrimFloat.one; PrimFloat.one; F_ratio 1 2].

Definition flux_cell_k_face : list PrimFloat.float := [F_ratio 1 10; PrimFloat.one].

Definition flux_cell_matrices : list (@DenseMatrix F_double) :=
  @OperatorDiffusionMFD.UpdateMatricesMixed_ F_double flux_cell_mesh
    OperatorDiffusionMFD.OPERATOR_UPWIND_FLUX false (fun _ => PrimFloat.zero)
    None flux_cell_k_face None [flux_cell_Wff] [@DenseMatrix.empty F_double].

(** A permeability that vanishes across face 0 of the one-cell mesh and is 1
    across face 1, with a mass-matrix routine in the place of WhetStone's
    whose diagonal entry for a face is the component of the tensor across
    it; one process, so that gathering changes nothing. *)
Definition axis_tensor_isZero (K : PrimFloat.float * PrimFloat.float) : bool :=
  PrimFloat.eqb K.1 PrimFloat.zero && PrimFloat.eqb K.2 PrimFloat.zero.

Definition axis_MassMatrixInverseTPFA (c : nat) (K : PrimFloat.float * PrimFloat.float)
    (Mff : @DenseMatrix F_double) : @DenseMatrix F_double :=
  @DenseMatrix.set F_double
    (@DenseMatrix.set F_double (@DenseMatrix.PutScalar F_double Mff PrimFloat.zero) 0 0 K.1)
    1 1 K.2.

Definition layered_K : list (PrimFloat.float * PrimFloat.float) :=
  [(PrimFloat.zero, PrimFloat.one)].

Definition layered_transmissibilities :
    @OperatorDiffusionMFD.Traced F_double (list PrimFloat.float) :=
  @OperatorDiffusionMFD.transmissibilities F_double flux_cell_mesh
    (fun _ => PrimFloat.zero) (PrimFloat.float * PrimFloat.float)
    (PrimFloat.one, PrimFloat.one) axis_tensor_isZero (Some layered_K)
    axis_MassMatrixInverseTPFA (fun T => T).

Definition layered_UpdateMatricesTPFA :
    @OperatorDiffusionMFD.Traced F_double (list (@DenseMatrix F_double)) :=
  @OperatorDiffusionMFD.UpdateMatricesTPFA_ F_double flux_cell_mesh
    (fun _ => PrimFloat.zero) (PrimFloat.float * PrimFloat.float)
    (PrimFloat.one, PrimFloat.one) axis_tensor_isZero (Some layered_K)
    axis_MassMatrixInverseTPFA (fun T => T)
    [@DenseMatrix.empty F_double; @DenseMatrix.empty F_double].


(* ===================================================================== *)
(** * Part II. Properties                                                 *)
(* ===================================================================== *)

(** ** Loops and sums *)

Lemma for_loop_nil {S : Type} (lo : nat) (body : nat -> S -> S) (s : S) :
  for_loop lo lo body s = s.
Proof. unfold for_loop. by rewrite Nat.sub_diag. Qed.

Lemma for_loop_S {S : Type} (lo hi : nat) (body : nat -> S -> S) (s : S) :
  lo <= hi -> for_loop lo (Datatypes.S hi) body s = body hi (for_loop lo hi body s).
Proof.
  intros Hle. unfold for_loop.
  replace (Datatypes.S hi - lo) with (Datatypes.S (hi - lo)) by lia.
  rewrite seq_S, foldl_app. simpl. do 2 f_equal. lia.
Qed.

(** The loop-invariant rule. *)
Lemma for_loop_ind {S : Type} (P : nat -> S -> Prop) (lo hi : nat)
    (body : nat -> S -> S) (s : S) :
  lo <= hi ->
  P lo s ->
  (forall i t, lo <= i < hi -> P i t -> P (Datatypes.S i) (body i t)) ->
  P hi (for_loop lo hi body s).
Proof.
  intros Hle H0 Hstep. induction hi as [|hi IH].
  - assert (lo = 0) as -> by lia. by rewrite for_loop_nil.
  - destruct (decide (lo = Datatypes.S hi)) as [->|Hne].
    + by rewrite for_loop_nil.
    + rewrite for_loop_S by lia. apply Hstep; [lia|].
      apply IH; [lia|]. intros i t Hi. apply Hstep. lia.
Qed.

Lemma for_loop_ext {S : Type} (lo hi : nat) (f g : nat -> S -> S) (s : S) :
  (forall i t, lo <= i < hi -> f i t = g i t) ->
  for_loop lo hi f s = for_loop lo hi g s.
Proof.
  intros Hfg. destruct (decide (lo <= hi)) as [Hle|Hgt].
  - induction hi as [|hi IH].
    + assert (lo = 0) as -> by lia. by rewrite !for_loop_nil.
    + destruct (decide (lo = Datatypes.S hi)) as [->|Hne].
      * by rewrite !for_loop_nil.
      * rewrite !for_loop_S by lia. rewrite IH; [apply Hfg; lia | | lia].
        intros i t Hi. apply Hfg. lia.
  - unfold for_loop. by replace (hi - lo) with 0 by lia.
Qed.

Section Sums.
  Context `{Double}.

Lemma d_sum_0 (f : nat -> double) : d_sum 0 f = d_zero.
  Proof. reflexivity. Qed.

Lemma d_sum_S (n : nat) (f : nat -> double) :
    d_sum (S n) f = (d_sum n f + f n)%D.
  Proof. unfold d_sum. by rewrite for_loop_S by lia. Qed.

Lemma d_sum_ext (n : nat) (f g : nat -> double) :
    (forall i, i < n -> f i = g i) -> d_sum n f = d_sum n g.
  Proof.
    intros Hfg. unfold d_sum. apply for_loop_ext.
    intros i t Hi. rewrite Hfg; [done | lia].
  Qed.
End Sums.

Section ExactSums.
  Context `{Double}.
  Hypothesis Dring : ring_theory d_zero d_one d_add d_mul d_sub d_opp (@eq double).
  Add Ring double_ring : Dring.

Lemma d_sum_opp (n : nat) (f : nat -> double) :
    d_sum n (fun i => (- f i)%D) = (- d_sum n f)%D.
  Proof.
    induction n as [|n IH]; [rewrite !d_sum_0; ring|].
    rewrite !d_sum_S, IH. ring.
  Qed.

Lemma d_sum_mul_r (n : nat) (f : nat -> double) (a : double) :
    d_sum n (fun i => (f i * a)%D) = (d_sum n f * a)%D.
  Proof.
    induction n as [|n IH]; [rewrite !d_sum_0; ring|].
    rewrite !d_sum_S, IH. ring.
  Qed.

Lemma d_sum_add (n : nat) (f g : nat -> double) :
    d_sum n (fun i => (f i + g i)%D) = (d_sum n f + d_sum n g)%D.
  Proof.
    induction n as [|n IH]; [rewrite !d_sum_0; ring|].
    rewrite !d_sum_S, IH. ring.
  Qed.

Lemma d_sum_zero (n : nat) : d_sum n (fun _ => d_zero) = d_zero.
  Proof.
    induction n as [|n IH]; [done|]. rewrite d_sum_S, IH. ring.
  Qed.

  (** Summation order can be exchanged. *)
Lemma d_sum_exchange (n m : nat) (f : nat -> nat -> double) :
    d_sum n (fun i => d_sum m (fun j => f i j)) =
    d_sum m (fun j => d_sum n (fun i => f i j)).
  Proof.
    induction n as [|n IH].
    - rewrite d_sum_0. symmetry. apply d_sum_zero.
    - rewrite d_sum_S, IH. rewrite <- d_sum_add.
      apply d_sum_ext. intros j _. by rewrite d_sum_S.
  Qed.

End ExactSums.

(** ** Dense matrices *)

Section DenseMatrixFacts.
  Context `{Double}.
  Import DenseMatrix.

Lemma shape_set (m n : nat) (A : DenseMatrix) (i j : nat) (v : double) :
    shape m n A -> shape m n (set A i j v).
  Proof.
    intros (Hr & Hc & Hl). unfold shape, set. simpl.
    by rewrite length_insert.
  Qed.

Lemma shape_alloc (junk : nat -> double) (m n : nat) : shape m n (alloc junk m n).
  Proof. unfold shape, alloc. simpl. by rewrite length_map, length_seq. Qed.

Lemma index_lt (m n i j : nat) : i < m -> j < n -> j * m + i < m * n.
  Proof. nia. Qed.

Lemma index_inj (m i j i' j' : nat) :
    i < m -> i' < m -> j * m + i = j' * m + i' -> i = i' /\ j = j'.
  Proof.
    intros Hi Hi' Heq.
    assert (j = j') as ->; [|lia].
    destruct (Nat.lt_trichotomy j j') as [Hlt|[Heq'|Hgt]]; [|done|].
    - assert (exists k, j' = j + S k) as [k ->] by (exists (j' - j - 1); lia). nia.
    - assert (exists k, j = j' + S k) as [k ->] by (exists (j - j' - 1); lia). nia.
  Qed.

  (** Reading after a write. *)
Lemma get_set (m n : nat) (A : DenseMatrix) (i j i' j' : nat) (v : double) :
    shape m n A -> i < m -> j < n -> i' < m ->
    get (set A i j v) i' j' = if decide (i' = i /\ j' = j) then v else get A i' j'.
  Proof.
    intros (Hr & Hc & Hl) Hi Hj Hi'. unfold get, set. simpl. rewrite Hr.
    case_decide as Hd.
    - destruct Hd as [-> ->].
      rewrite list_lookup_insert_eq; [done|]. rewrite Hl. by apply index_lt.
    - rewrite list_lookup_insert_ne; [done|].
      intros Heq. apply Hd. symmetry in Heq.
      destruct (index_inj m i' j' i j Hi' Hi Heq). done.
  Qed.

Lemma get_set_eq (m n : nat) (A : DenseMatrix) (i j : nat) (v : double) :
    shape m n A -> i < m -> j < n -> get (set A i j v) i j = v.
  Proof.
    intros Hs Hi Hj. rewrite (get_set m n) by done. by rewrite decide_True.
  Qed.

Lemma get_set_ne (m n : nat) (A : DenseMatrix) (i j i' j' : nat) (v : double) :
    shape m n A -> i < m -> j < n -> i' < m -> (i' <> i \/ j' <> j) ->
    get (set A i j v) i' j' = get A i' j'.
  Proof.
    intros Hs Hi Hj Hi' Hne. rewrite (get_set m n) by done.
    rewrite decide_False; [done | tauto].
  Qed.
End DenseMatrixFacts.

(** ** Local matrices of the mixed discretization *)

Section MixedFacts.
  Context `{Double}.
  Import DenseMatrix OperatorDiffusionMFD.

  (** The inner loop over [m]: row [n] receives [g m], [rowsum] their sum. *)
Lemma row_fill (M N : nat)
      (body : nat -> DenseMatrix * double -> DenseMatrix * double)
      (g : nat -> double) (n k : nat) (A : DenseMatrix) :
    (forall m B r, body m (B, r) = (set B n m (g m), (r + g m)%D)) ->
    shape M N A -> n < M -> k <= N ->
    exists A', for_loop 0 k body (A, d_zero) = (A', d_sum k g) /\ shape M N A' /\
      forall i j, i < M ->
        get A' i j = if decide (i = n /\ j < k) then g j else get A i j.
  Proof.
    intros Hbody Hs Hn Hk.
    pose (P := fun (m : nat) (s : DenseMatrix * double) =>
      exists A', s = (A', d_sum m g) /\ shape M N A' /\
        forall i j, i < M ->
          get A' i j = if decide (i = n /\ j < m) then g j else get A i j).
    assert (P k (for_loop 0 k body (A, d_zero))) as HP; [|exact HP].
    apply for_loop_ind; [lia | |].
    - exists A. split; [done|]. split; [done|].
      intros i j Hi. rewrite decide_False; [done | lia].
    - intros m s Hm (A1 & -> & Hs1 & He1).
      rewrite Hbody. eexists. split; [by rewrite d_sum_S|].
      split; [by apply shape_set|].
      intros i j Hi. rewrite (get_set M N) by (done || lia). rewrite He1 by done.
      repeat case_decide; try done; try lia.
      match goal with Hd : _ /\ _ |- _ => destruct Hd as [-> ->] end. done.
  Qed.

  (** The outer loop over [n] shared by the four fillings: the face block
      receives [g n m], the cell column the negated row sums, the cell row
      too when [mirror] is set, and [matsum] accumulates [h n rowsum]. *)
Lemma rows_fill (nf : nat)
      (body : nat -> DenseMatrix * double -> DenseMatrix * double)
      (inner : nat -> nat -> DenseMatrix * double -> DenseMatrix * double)
      (g : nat -> nat -> double) (h : nat -> double -> double) (mirror : bool)
      (A0 : DenseMatrix) :
    (forall n B ms, body n (B, ms) =
       let '(B1, rs) := for_loop 0 nf (inner n) (B, d_zero) in
       ((if mirror then set (set B1 n nf (- rs)%D) nf n (- rs)%D
         else set B1 n nf (- rs)%D), (ms + h n rs)%D)) ->
    (forall n m B r, inner n m (B, r) = (set B n m (g n m), (r + g n m)%D)) ->
    shape (nf + 1) (nf + 1) A0 ->
    exists A', for_loop 0 nf body (A0, d_zero)
               = (A', d_sum nf (fun n => h n (d_sum nf (g n)))) /\
      shape (nf + 1) (nf + 1) A' /\
      forall i j, i <= nf -> j <= nf ->
        get A' i j =
          if decide (i < nf) then
            if decide (j < nf) then g i j else (- d_sum nf (g i))%D
          else if decide (mirror = true /\ j < nf) then (- d_sum nf (g j))%D
          else get A0 i j.
  Proof.
    intros Hbody Hinner Hs.
    pose (P := fun (n : nat) (s : DenseMatrix * double) =>
      exists A', s = (A', d_sum n (fun n => h n (d_sum nf (g n)))) /\
        shape (nf + 1) (nf + 1) A' /\
        forall i j, i <= nf -> j <= nf ->
          get A' i j =
            if decide (i < n) then
              if decide (j < nf) then g i j else (- d_sum nf (g i))%D
            else if decide (mirror = true /\ i = nf /\ j < n) then (- d_sum nf (g j))%D
            else get A0 i j).
    assert (P nf (for_loop 0 nf body (A0, d_zero))) as (A' & Heq & Hs' & He).
    { apply for_loop_ind; [lia | |].
      - exists A0. split; [done|]. split; [done|].
        intros i j Hi Hj. rewrite decide_False by lia. rewrite decide_False by lia. done.
      - intros n s Hn (A1 & -> & Hs1 & He1).
        rewrite Hbody.
        destruct (row_fill (nf + 1) (nf + 1) (inner n) (g n) n nf A1 (Hinner n) Hs1)
          as (A2 & Heq2 & Hs2 & He2); [lia | lia |].
        rewrite Heq2. eexists. split; [by rewrite d_sum_S|].
        destruct mirror.
        + split; [by do 2 apply shape_set|].
          intros i j Hi Hj.
          rewrite (get_set (nf + 1) (nf + 1)) by (try apply shape_set; done || lia).
          rewrite (get_set (nf + 1) (nf + 1)) by (done || lia).
          rewrite He2 by lia. rewrite He1 by lia.
          repeat case_decide; try done; try lia; intuition (subst; try done; try lia).
        + split; [by apply shape_set|].
          intros i j Hi Hj.
          rewrite (get_set (nf + 1) (nf + 1)) by (done || lia).
          rewrite He2 by lia. rewrite He1 by lia.
          repeat case_decide; try done; try lia; intuition (subst; try done; try lia). }
    exists A'. split; [done|]. split; [done|].
    intros i j Hi Hj. rewrite He by done.
    repeat case_decide; try done; try lia; intuition (subst; try done; try lia).
  Qed.

  (** The loop that writes the cell row from the columns of the face block;
      [phi m x] is [x] or [x * kf[m]]. *)
Lemma cell_row_fill (nf : nat) (body : nat -> DenseMatrix -> DenseMatrix)
      (phi : nat -> double -> double) (A1 : DenseMatrix) :
    (forall n B, body n B = set B nf n (- d_sum nf (fun m => phi m (get B m n)))%D) ->
    shape (nf + 1) (nf + 1) A1 ->
    shape (nf + 1) (nf + 1) (for_loop 0 nf body A1) /\
    forall i j, i <= nf -> j <= nf ->
      get (for_loop 0 nf body A1) i j =
        if decide (i = nf /\ j < nf)
        then (- d_sum nf (fun m => phi m (get A1 m j)))%D else get A1 i j.
  Proof.
    intros Hbody Hs.
    pose (P := fun (n : nat) (A : DenseMatrix) =>
      shape (nf + 1) (nf + 1) A /\
      forall i j, i <= nf -> j <= nf ->
        get A i j = if decide (i = nf /\ j < n)
                    then (- d_sum nf (fun m => phi m (get A1 m j)))%D else get A1 i j).
    assert (P nf (for_loop 0 nf body A1)) as HP; [|exact HP].
    apply for_loop_ind; [lia | |].
    - split; [done|]. intros i j Hi Hj. rewrite decide_False; [done | lia].
    - intros n A Hn (HsA & HeA). rewrite Hbody. split; [by apply shape_set|].
      intros i j Hi Hj. rewrite (get_set (nf + 1) (nf + 1)) by (done || lia).
      rewrite HeA by done.
      repeat case_decide; try done; try lia.
      match goal with Hd : i = nf /\ j = n |- _ => destruct Hd as [-> ->] end.
      f_equal. apply d_sum_ext. intros m Hm. rewrite HeA by lia.
      rewrite decide_False; [done | lia].
  Qed.
  (** The unscaled filling, entry by entry: the face block holds
      [Wff(n, m) * kf[n]], the cell column of a face row the negated sum of
      the row, the cell row the negated column sums of the face block, and
      the corner the sum of the row sums.  No law of arithmetic is used. *)
Lemma fill_not_scaled_entries (nf : nat) (Wff : DenseMatrix) (kf : list double)
      (A0 : DenseMatrix) :
    shape (nf + 1) (nf + 1) A0 ->
    let A := fill_not_scaled nf Wff kf A0 in
    (forall n m, n < nf -> m < nf -> get A n m = (get Wff n m * vec_get kf n)%D) /\
    (forall n, n < nf -> get A n nf = (- d_sum nf (get A n))%D) /\
    (forall n, n < nf -> get A nf n = (- d_sum nf (fun m => get A m n))%D) /\
    get A nf nf = d_sum nf (fun n => d_sum nf (get A n)).
  Proof.
    intros Hs A. unfold A, fill_not_scaled.
    pose (g := fun n m => (get Wff n m * vec_get kf n)%D).
    match goal with |- context [for_loop 0 nf ?b (A0, d_zero)] =>
      destruct (rows_fill nf b
        (fun n m '(Acell, rowsum) => (set Acell n m (g n m), (rowsum + g n m)%D))
        g (fun _ rs => rs) false A0) as (A1 & Heq & Hs1 & He1); [done..|]
    end.
    rewrite Heq.
    set (A2 := set A1 nf nf _).
    match goal with |- context [for_loop 0 nf ?b A2] =>
      destruct (cell_row_fill nf b (fun _ x => x) A2) as (Hs2 & He2);
        [done | by apply shape_set |];
      set (A3 := for_loop 0 nf b A2) in *
    end.
    assert (forall n m, n < nf -> m < nf -> get A2 n m = g n m) as HA2.
    { intros n m Hn Hm. unfold A2.
      rewrite (get_set_ne (nf + 1) (nf + 1)) by (done || lia).
      rewrite He1 by lia. by rewrite !decide_True by lia. }
    assert (forall n m, n < nf -> m < nf -> get A3 n m = g n m) as HA3.
    { intros n m Hn Hm. rewrite He2 by lia. rewrite decide_False by lia. by apply HA2. }
    split_and!.
    - done.
    - intros n Hn. rewrite He2 by lia. rewrite decide_False by lia. unfold A2.
      rewrite (get_set_ne (nf + 1) (nf + 1)) by (done || lia).
      rewrite He1 by lia. rewrite decide_True by lia. rewrite decide_False by lia.
      f_equal. apply d_sum_ext. intros m Hm. symmetry. by apply HA3.
    - intros n Hn. rewrite He2 by lia. rewrite decide_True by lia.
      f_equal. apply d_sum_ext. intros m Hm. rewrite HA2, HA3 by done. done.
    - rewrite He2 by lia. rewrite decide_False by lia. unfold A2.
      rewrite (get_set_eq (nf + 1) (nf + 1)) by (done || lia).
      apply d_sum_ext. intros n Hn. apply d_sum_ext. intros m Hm.
      symmetry. by apply HA3.
  Qed.
End MixedFacts.

Section MixedRowSums.
  Context `{Double}.
  Import DenseMatrix OperatorDiffusionMFD.
  Hypothesis Dring : ring_theory d_zero d_one d_add d_mul d_sub d_opp (@eq double).
  Add Ring double_ring_mixed : Dring.

  (** A filled matrix has zero row sums as soon as the face rows end with
      their negated sum and the cell row sums to zero. *)
Lemma zero_row_sums_intro (nf : nat) (A : DenseMatrix) (g : nat -> nat -> double) :
    shape (nf + 1) (nf + 1) A ->
    (forall i j, i < nf -> j < nf -> get A i j = g i j) ->
    (forall i, i < nf -> get A i nf = (- d_sum nf (g i))%D) ->
    (d_sum nf (get A nf) + get A nf nf)%D = d_zero ->
    zero_row_sums A.
  Proof.
    intros (Hr & Hc & Hl) Hg Hlast Hcell i Hi.
    unfold row_sum. rewrite Hc. replace (nf + 1) with (S nf) by lia.
    rewrite d_sum_S. rewrite Hr in Hi.
    destruct (decide (i = nf)) as [->|Hne]; [done|].
    rewrite Hlast by lia.
    rewrite (d_sum_ext nf (get A i) (g i)); [ring|].
    intros j Hj. apply Hg; lia.
  Qed.

Lemma fill_not_scaled_rows (nf : nat) (Wff : DenseMatrix) (kf : list double)
      (A0 : DenseMatrix) :
    shape (nf + 1) (nf + 1) A0 ->
    shape (nf + 1) (nf + 1) (fill_not_scaled nf Wff kf A0) /\
    zero_row_sums (fill_not_scaled nf Wff kf A0).
  Proof.
    intros Hs. unfold fill_not_scaled.
    pose (g := fun n m => (get Wff n m * vec_get kf n)%D).
    match goal with |- context [for_loop 0 nf ?b (A0, d_zero)] =>
      destruct (rows_fill nf b
        (fun n m '(Acell, rowsum) => (set Acell n m (g n m), (rowsum + g n m)%D))
        g (fun _ rs => rs) false A0) as (A1 & Heq & Hs1 & He1); [done..|]
    end.
    rewrite Heq.
    match goal with |- context [for_loop 0 nf ?b ?A] =>
      destruct (cell_row_fill nf b (fun _ x => x) A) as (Hs2 & He2);
        [done | by apply shape_set |]
    end.
    split; [done|].
    apply (zero_row_sums_intro nf _ g); [done | | |].
    - intros i j Hi Hj. rewrite He2 by lia. rewrite decide_False by lia.
      rewrite (get_set_ne (nf + 1) (nf + 1)) by (done || lia).
      rewrite He1 by lia. by rewrite !decide_True by lia.
    - intros i Hi. rewrite He2 by lia. rewrite decide_False by lia.
      rewrite (get_set_ne (nf + 1) (nf + 1)) by (done || lia).
      rewrite He1 by lia. rewrite decide_True by lia. by rewrite decide_False by lia.
    - rewrite He2 by lia. rewrite decide_False by lia.
      rewrite (get_set_eq (nf + 1) (nf + 1)) by (done || lia).
      set (A2 := set A1 nf nf _) in *.
      rewrite (d_sum_ext nf _ (fun j => (- d_sum nf (fun m => g m j))%D)).
      + rewrite (d_sum_opp Dring).
        assert (d_sum nf (fun j => d_sum nf (fun m => g m j))
                = d_sum nf (fun n => d_sum nf (g n))) as ->
          by (symmetry; apply (d_sum_exchange Dring nf nf g)).
        ring.
      + intros j Hj. rewrite He2 by lia. rewrite decide_True by lia.
        f_equal. apply d_sum_ext. intros m Hm. unfold A2.
        rewrite (get_set_ne (nf + 1) (nf + 1)) by (done || lia).
        rewrite He1 by lia. by rewrite !decide_True by lia.
  Qed.

Lemma fill_scaled_rows (nf : nat) (Wff : DenseMatrix) (kf : list double)
      (A0 : DenseMatrix) :
    shape (nf + 1) (nf + 1) A0 ->
    shape (nf + 1) (nf + 1) (fill_scaled nf Wff kf A0) /\
    zero_row_sums (fill_scaled nf Wff kf A0).
  Proof.
    intros Hs. unfold fill_scaled.
    pose (g := fun n m => get Wff n m).
    match goal with |- context [for_loop 0 nf ?b (A0, d_zero)] =>
      destruct (rows_fill nf b
        (fun n m '(Acell, rowsum) => (set Acell n m (g n m), (rowsum + g n m)%D))
        g (fun n rs => (rs * vec_get kf n)%D) false A0) as (A1 & Heq & Hs1 & He1); [done..|]
    end.
    rewrite Heq.
    match goal with |- context [for_loop 0 nf ?b ?A] =>
      destruct (cell_row_fill nf b (fun m x => (x * vec_get kf m)%D) A) as (Hs2 & He2);
        [done | by apply shape_set |]
    end.
    split; [done|].
    apply (zero_row_sums_intro nf _ g); [done | | |].
    - intros i j Hi Hj. rewrite He2 by lia. rewrite decide_False by lia.
      rewrite (get_set_ne (nf + 1) (nf + 1)) by (done || lia).
      rewrite He1 by lia. by rewrite !decide_True by lia.
    - intros i Hi. rewrite He2 by lia. rewrite decide_False by lia.
      rewrite (get_set_ne (nf + 1) (nf + 1)) by (done || lia).
      rewrite He1 by lia. rewrite decide_True by lia. by rewrite decide_False by lia.
    - rewrite He2 by lia. rewrite decide_False by lia.
      rewrite (get_set_eq (nf + 1) (nf + 1)) by (done || lia).
      set (A2 := set A1 nf nf _) in *.
      rewrite (d_sum_ext nf _ (fun j => (- d_sum nf (fun m => (g m j * vec_get kf m)%D))%D)).
      + rewrite (d_sum_opp Dring).
        assert (d_sum nf (fun n => (d_sum nf (g n) * vec_get kf n)%D)
                = d_sum nf (fun j => d_sum nf (fun m => (g m j * vec_get kf m)%D))) as ->.
        { rewrite <- (d_sum_exchange Dring nf nf (fun m j => (g m j * vec_get kf m)%D)).
          apply d_sum_ext. intros n Hn. symmetry. apply (d_sum_mul_r Dring). }
        ring.
      + intros j Hj. rewrite He2 by lia. rewrite decide_True by lia.
        f_equal. apply d_sum_ext. intros m Hm. unfold A2.
        rewrite (get_set_ne (nf + 1) (nf + 1)) by (done || lia).
        rewrite He1 by lia. by rewrite !decide_True by lia.
  Qed.

  (** The two fillings that mirror the negated row sums into the cell row. *)
Lemma mirrored_rows (nf : nat)
      (body : nat -> DenseMatrix * double -> DenseMatrix * double)
      (inner : nat -> nat -> DenseMatrix * double -> DenseMatrix * double)
      (g : nat -> nat -> double) (A0 : DenseMatrix) :
    (forall n B ms, body n (B, ms) =
       let '(B1, rs) := for_loop 0 nf (inner n) (B, d_zero) in
       (set (set B1 n nf (- rs)%D) nf n (- rs)%D, (ms + rs)%D)) ->
    (forall n m B r, inner n m (B, r) = (set B n m (g n m), (r + g n m)%D)) ->
    shape (nf + 1) (nf + 1) A0 ->
    forall A1 matsum, for_loop 0 nf body (A0, d_zero) = (A1, matsum) ->
      shape (nf + 1) (nf + 1) (set A1 nf nf matsum) /\
      zero_row_sums (set A1 nf nf matsum).
  Proof.
    intros Hbody Hinner Hs A1 matsum Hloop.
    destruct (rows_fill nf body inner g (fun _ rs => rs) true A0)
      as (A1' & Heq & Hs1 & He1); [done..|].
    rewrite Hloop in Heq. injection Heq as -> ->.
    split; [by apply shape_set|].
    apply (zero_row_sums_intro nf _ g); [by apply shape_set | | |].
    - intros i j Hi Hj.
      rewrite (get_set_ne (nf + 1) (nf + 1)) by (done || lia).
      rewrite He1 by lia. by rewrite !decide_True by lia.
    - intros i Hi.
      rewrite (get_set_ne (nf + 1) (nf + 1)) by (done || lia).
      rewrite He1 by lia. rewrite decide_True by lia. by rewrite decide_False by lia.
    - rewrite (get_set_eq (nf + 1) (nf + 1)) by (done || lia).
      rewrite (d_sum_ext nf _ (fun j => (- d_sum nf (g j))%D)).
      + rewrite (d_sum_opp Dring). ring.
      + intros j Hj.
        rewrite (get_set_ne (nf + 1) (nf + 1)) by (done || lia).
        rewrite He1 by lia. rewrite decide_False by lia. by rewrite decide_True by lia.
  Qed.

Lemma fill_divk_rows (nf : nat) (Wff : DenseMatrix) (kc : double) (kf : list double)
      (A0 : DenseMatrix) :
    shape (nf + 1) (nf + 1) A0 ->
    shape (nf + 1) (nf + 1) (fill_divk nf Wff kc kf A0) /\
    zero_row_sums (fill_divk nf Wff kc kf A0).
  Proof.
    intros Hs. unfold fill_divk.
    match goal with |- context [for_loop 0 nf ?b (A0, d_zero)] =>
      destruct (for_loop 0 nf b (A0, d_zero)) as [A1 matsum] eqn:Hloop;
      apply (mirrored_rows nf b
        (fun n m '(Acell, rowsum) =>
           let tmp := (get Wff n m * vec_get kf n * vec_get kf m / kc)%D in
           (set Acell n m tmp, (rowsum + tmp)%D))
        (fun n m => (get Wff n m * vec_get kf n * vec_get kf m / kc)%D) A0); done
    end.
  Qed.

Lemma fill_withgrad_rows (nf : nat) (Wff : DenseMatrix) (kf : list double)
      (A0 : DenseMatrix) :
    shape (nf + 1) (nf + 1) A0 ->
    shape (nf + 1) (nf + 1) (fill_withgrad nf Wff kf A0) /\
    zero_row_sums (fill_withgrad nf Wff kf A0).
  Proof.
    intros Hs. unfold fill_withgrad.
    match goal with |- context [for_loop 0 nf ?b (A0, d_zero)] =>
      destruct (for_loop 0 nf b (A0, d_zero)) as [A1 matsum] eqn:Hloop;
      apply (mirrored_rows nf b
        (fun n m '(Acell, rowsum) =>
           let tmp := (get Wff n m * vec_get kf n * vec_get kf m)%D in
           (set Acell n m tmp, (rowsum + tmp)%D))
        (fun n m => (get Wff n m * vec_get kf n * vec_get kf m)%D) A0); done
    end.
  Qed.

  (** Row sums after one write. *)
Lemma d_sum_get_set (M N : nat) (A : DenseMatrix) (i j i' k : nat) (v : double) :
    shape M N A -> i < M -> j < N -> i' < M ->
    d_sum k (get (set A i j v) i') =
      if decide (i' = i /\ j < k) then (d_sum k (get A i) - get A i j + v)%D
      else d_sum k (get A i').
  Proof.
    intros Hs Hi Hj Hi'. induction k as [|k IH].
    - rewrite decide_False by lia. done.
    - rewrite !d_sum_S, IH. rewrite (get_set M N) by done.
      repeat case_decide; try done; try lia;
        repeat match goal with Hd : _ /\ _ |- _ => destruct Hd end; subst;
        try lia; try ring.
      all: try (exfalso; match goal with Hn : ~ _ |- _ => apply Hn end; lia).
  Qed.

Lemma row_sum_set (M N : nat) (A : DenseMatrix) (i j i' : nat) (v : double) :
    shape M N A -> i < M -> j < N -> i' < M ->
    row_sum (set A i j v) i' =
      if decide (i' = i) then (row_sum A i - get A i j + v)%D else row_sum A i'.
  Proof.
    intros Hs Hi Hj Hi'. unfold row_sum. simpl.
    destruct Hs as (Hr & Hc & Hl). rewrite Hc.
    rewrite (d_sum_get_set M N) by done.
    repeat case_decide; try done; try lia;
      repeat match goal with Hd : _ /\ _ |- _ => destruct Hd end; subst; try done.
    all: try (exfalso; match goal with Hn : ~ _ |- _ => apply Hn end; lia).
  Qed.

Lemma add_artificial_diffusion_rows (k_face : list double) (nf : nat)
      (faces : list nat) (Wff : DenseMatrix) (kc : double) (A0 : DenseMatrix) :
    shape (nf + 1) (nf + 1) A0 -> zero_row_sums A0 ->
    shape (nf + 1) (nf + 1) (add_artificial_diffusion k_face nf faces Wff kc A0) /\
    zero_row_sums (add_artificial_diffusion k_face nf faces Wff kc A0).
  Proof.
    intros Hs Hz. unfold add_artificial_diffusion.
    apply (for_loop_ind (fun _ A => shape (nf + 1) (nf + 1) A /\ zero_row_sums A));
      [lia | done |].
    intros n A Hn (HsA & HzA).
    destruct (d_ltb d_zero _); [|done].
    set (alpha := (_ * get Wff n n)%D).
    set (A1 := set A n n _). set (A2 := set A1 n nf _).
    set (A3 := set A2 nf n _). set (A4 := set A3 nf nf _).
    assert (shape (nf + 1) (nf + 1) A1) as Hs1 by by apply shape_set.
    assert (shape (nf + 1) (nf + 1) A2) as Hs2 by by apply shape_set.
    assert (shape (nf + 1) (nf + 1) A3) as Hs3 by by apply shape_set.
    assert (shape (nf + 1) (nf + 1) A4) as Hs4 by by apply shape_set.
    split; [done|].
    intros i Hi. destruct Hs4 as (Hr4 & _). rewrite Hr4 in Hi.
    assert (row_sum A i = d_zero) as HzAi.
    { apply HzA. destruct HsA as (-> & _). done. }
    assert (row_sum A n = d_zero) as HzAn.
    { apply HzA. destruct HsA as (-> & _). lia. }
    assert (row_sum A nf = d_zero) as HzAnf.
    { apply HzA. destruct HsA as (-> & _). lia. }
    unfold A4. rewrite (row_sum_set (nf + 1) (nf + 1)) by (done || lia).
    unfold A3. rewrite !(row_sum_set (nf + 1) (nf + 1) A2) by (done || lia).
    unfold A2. rewrite !(row_sum_set (nf + 1) (nf + 1) A1) by (done || lia).
    unfold A1. rewrite !(row_sum_set (nf + 1) (nf + 1) A) by (done || lia).
    repeat case_decide; subst; try lia; rewrite ?HzAi, ?HzAn, ?HzAnf; ring.
  Qed.
End MixedRowSums.

(** Storing one value per index: [for (c...) v[c] = F(c)]. *)
Lemma for_loop_insert_length {A : Type} (n : nat) (F : nat -> A) (l : list A) :
  length (for_loop 0 n (fun c l => <[c := F c]> l) l) = length l.
Proof.
  apply (for_loop_ind (fun _ l' => length l' = length l)); [lia | done |].
  intros i t _ Ht. by rewrite length_insert.
Qed.

Lemma for_loop_insert_lookup {A : Type} (n : nat) (F : nat -> A) (l : list A) (c : nat) :
  c < length l ->
  for_loop 0 n (fun c l => <[c := F c]> l) l !! c = if decide (c < n) then Some (F c) else l !! c.
Proof.
  intros Hc.
  pose (P := fun (k : nat) (l' : list A) =>
    length l' = length l /\
    l' !! c = if decide (c < k) then Some (F c) else l !! c).
  assert (P n (for_loop 0 n (fun c l => <[c := F c]> l) l)) as [_ HP]; [|exact HP].
  apply for_loop_ind; [lia | |].
  - split; [done|]. rewrite decide_False; [done | lia].
  - intros k l' _ (Hlen & Hl'). split; [by rewrite length_insert|].
    destruct (decide (c = k)) as [->|Hne].
    + rewrite list_lookup_insert_eq by lia. rewrite decide_True; [done | lia].
    + rewrite list_lookup_insert_ne by done. rewrite Hl'.
      repeat case_decide; try done; lia.
Qed.

Lemma map_seq_const {A : Type} (n : nat) (f : nat -> A) (x : A) :
  (forall i, i < n -> f i = x) -> map f (seq 0 n) = replicate n x.
Proof.
  assert (forall s, (forall i, s <= i < s + n -> f i = x) ->
                    map f (seq s n) = replicate n x) as Hgen.
  { induction n as [|n IH]; intros s Hf; [done|].
    simpl. rewrite Hf by lia. f_equal. apply IH. intros i Hi. apply Hf. lia. }
  intros Hf. apply Hgen. intros i Hi. apply Hf. lia.
Qed.

Section MixedRows.
  Context `{Double}.
  Import DenseMatrix OperatorDiffusionMFD.
  Hypothesis Dring : ring_theory d_zero d_one d_add d_mul d_sub d_opp (@eq double).
  Add Ring double_ring_rows : Dring.

  (** What zero row sums mean for a local matrix of a cell with [nf] faces. *)
Lemma zero_row_sums_consequences (nf : nat) (A : DenseMatrix) :
    shape (nf + 1) (nf + 1) A -> zero_row_sums A ->
    (forall n, n <= nf -> get A n nf = (- d_sum nf (get A n))%D) /\
    (forall p, Multiply A (replicate (nf + 1) p) = replicate (nf + 1) d_zero).
  Proof.
    intros (Hr & Hc & Hl) Hz. split.
    - intros n Hn. specialize (Hz n). unfold row_sum in Hz. rewrite Hr, Hc in Hz.
      replace (nf + 1) with (S nf) in Hz by lia. rewrite d_sum_S in Hz.
      specialize (Hz ltac:(lia)).
      transitivity (d_sum nf (get A n) + get A n nf - d_sum nf (get A n))%D; [ring|].
      rewrite Hz. ring.
    - intros p. unfold Multiply. rewrite Hr, Hc. apply map_seq_const.
      intros i Hi.
      rewrite (d_sum_ext _ _ (fun j => (get A i j * p)%D)).
      + rewrite (d_sum_mul_r Dring). specialize (Hz i). unfold row_sum in Hz.
        rewrite Hr, Hc in Hz. rewrite Hz by done. ring.
      + intros j Hj. unfold vec_get. by rewrite lookup_replicate_2.
  Qed.

Lemma UpdateMatricesMixed_cell_rows (mesh_ : Mesh) (upwind_ : Upwind)
      (scaled_constraint_ : bool) (junk : nat -> double) (k_cell : option (list double))
      (k_face : list double) (k_twin : option (list double)) (c : nat) (Wff : DenseMatrix) :
    let nf := length (cell_get_faces mesh_ c) in
    let A := UpdateMatricesMixed_cell mesh_ upwind_ scaled_constraint_ junk
               k_cell k_face k_twin c Wff in
    shape (nf + 1) (nf + 1) A /\ zero_row_sums A.
  Proof.
    intros nf A. unfold A, UpdateMatricesMixed_cell. fold nf.
    pose proof (shape_alloc junk (nf + 1) (nf + 1)) as Hs0.
    destruct upwind_; simpl.
    - destruct scaled_constraint_; simpl.
      + by apply fill_scaled_rows.
      + by apply fill_not_scaled_rows.
    - destruct scaled_constraint_; simpl.
      + by apply fill_scaled_rows.
      + by apply fill_not_scaled_rows.
    - destruct scaled_constraint_; simpl.
      + destruct (fill_scaled_rows Dring nf Wff
          (mixed_kf mesh_ OPERATOR_UPWIND_AMANZI_ARTIFICIAL_DIFFUSION k_cell k_face k_twin c
             (cell_get_faces mesh_ c)) _ Hs0) as [Hs1 Hz1].
        by apply add_artificial_diffusion_rows.
      + destruct (fill_not_scaled_rows Dring nf Wff
          (mixed_kf mesh_ OPERATOR_UPWIND_AMANZI_ARTIFICIAL_DIFFUSION k_cell k_face k_twin c
             (cell_get_faces mesh_ c)) _ Hs0) as [Hs1 Hz1].
        by apply add_artificial_diffusion_rows.
    - by apply fill_divk_rows.
    - destruct scaled_constraint_; simpl.
      + by apply fill_scaled_rows.
      + by apply fill_not_scaled_rows.
  Qed.

Lemma UpdateMatricesMixedWithGrad_cell_rows (mesh_ : Mesh) (junk : nat -> double)
      (k_face : list double) (k_twin : option (list double))
      (Wff_divk : nat -> DenseMatrix) (c : nat) :
    let nf := length (cell_get_faces mesh_ c) in
    let A := UpdateMatricesMixedWithGrad_cell mesh_ junk k_face k_twin Wff_divk c in
    shape (nf + 1) (nf + 1) A /\ zero_row_sums A.
  Proof.
    intros nf A. unfold A, UpdateMatricesMixedWithGrad_cell. fold nf.
    apply fill_withgrad_rows; [done|]. apply shape_alloc.
  Qed.
End MixedRows.


(** ** Vectors *)

Section VectorFacts.
  Context `{Double}.

Lemma vec_get_set_eq (v : list double) (i : nat) (x : double) :
    i < length v -> vec_get (vec_set v i x) i = x.
  Proof. intros Hi. unfold vec_get, vec_set. by rewrite list_lookup_insert_eq. Qed.

Lemma vec_get_set_ne (v : list double) (i j : nat) (x : double) :
    i <> j -> vec_get (vec_set v i x) j = vec_get v j.
  Proof. intros Hne. unfold vec_get, vec_set. by rewrite list_lookup_insert_ne. Qed.

Lemma vec_set_length (v : list double) (i : nat) (x : double) :
    length (vec_set v i x) = length v.
  Proof. apply length_insert. Qed.

Lemma id_at_lookup (l : list nat) (n f : nat) : l !! n = Some f -> id_at l n = f.
  Proof. intros Hl. unfold id_at. by rewrite Hl. Qed.
End VectorFacts.

(** ** Boundary conditions *)

Section ApplyBCsFacts.
  Context `{Double}.
  Import DenseMatrix OperatorDiffusionMFD.

  (** The loop over [m] of the Dirichlet branch: row and column [n] of the
      face block are zeroed and every face row of the right-hand side is
      corrected with the entry of column [n] read before it is zeroed. *)
Lemma eliminate_face_block_spec (faces : list nat) (n : nat) (value : double) (w : Work) :
    let nfaces := length faces in
    let w' := eliminate_face_block faces nfaces n value w in
    shape (nfaces + 1) (nfaces + 1) (Acell w) ->
    NoDup faces ->
    (forall g, g ∈ faces -> g < length (rhs_face w)) ->
    n < nfaces ->
    shape (nfaces + 1) (nfaces + 1) (Acell w') /\
    shadow w' = shadow w /\ flag w' = flag w /\ rhs_cell w' = rhs_cell w /\
    length (rhs_face w') = length (rhs_face w) /\
    (forall i j, i <= nfaces -> j <= nfaces ->
       get (Acell w') i j =
         if decide ((j = n /\ i < nfaces) \/ (i = n /\ j < nfaces))
         then d_zero else get (Acell w) i j) /\
    (forall m g, faces !! m = Some g ->
       vec_get (rhs_face w') g = (vec_get (rhs_face w) g - get (Acell w) m n * value)%D) /\
    (forall g, g ∉ faces -> rhs_face w' !! g = rhs_face w !! g).
  Proof.
    intros nfaces w' Hs Hnd Hrange Hn. unfold w', eliminate_face_block.
    pose (P := fun (k : nat) (t : Work) =>
      shape (nfaces + 1) (nfaces + 1) (Acell t) /\
      shadow t = shadow w /\ flag t = flag w /\ rhs_cell t = rhs_cell w /\
      length (rhs_face t) = length (rhs_face w) /\
      (forall i j, i <= nfaces -> j <= nfaces ->
         get (Acell t) i j =
           if decide ((j = n /\ i < k) \/ (i = n /\ j < k))
           then d_zero else get (Acell w) i j) /\
      (forall m g, faces !! m = Some g ->
         vec_get (rhs_face t) g =
           if decide (m < k) then (vec_get (rhs_face w) g - get (Acell w) m n * value)%D
           else vec_get (rhs_face w) g) /\
      (forall g, g ∉ faces -> rhs_face t !! g = rhs_face w !! g)).
    match goal with |- context [for_loop 0 nfaces ?b w] =>
      assert (P nfaces (for_loop 0 nfaces b w)) as HP end.
    { apply for_loop_ind; [lia | |].
      - unfold P. split_and!; try done.
        all: intros; rewrite decide_False by lia; done.
      - intros k t Hk (Hst & Hsh & Hfl & Hrc & Hlen & HA & Hrf & Hout).
        destruct (lookup_lt_is_Some_2 faces k ltac:(fold nfaces; lia)) as [gk Hgk].
        rewrite (id_at_lookup _ _ _ Hgk).
        assert (gk < length (rhs_face t)) as Hgk_lt.
        { rewrite Hlen. apply Hrange. by eapply list_elem_of_lookup_2. }
        unfold P; simpl. split_and!; try done.
        + by do 2 apply shape_set.
        + by rewrite vec_set_length.
        + intros i j Hi Hj.
          rewrite (get_set (nfaces + 1) (nfaces + 1)) by (try apply shape_set; done || lia).
          rewrite (get_set (nfaces + 1) (nfaces + 1)) by (done || lia).
          rewrite HA by done.
          repeat case_decide; try done; exfalso; intuition lia.
        + intros m g Hm.
          destruct (decide (m = k)) as [->|Hne].
          * assert (g = gk) as -> by congruence.
            rewrite vec_get_set_eq by done. rewrite decide_True by lia.
            rewrite (Hrf k gk Hgk). rewrite decide_False by lia.
            rewrite HA by lia. rewrite decide_False; [done | lia].
          * assert (gk <> g) as Hg.
            { intros ->. apply Hne. by eapply NoDup_lookup. }
            rewrite vec_get_set_ne by done. rewrite (Hrf m g Hm).
            repeat case_decide; try done; lia.
        + intros g Hg. unfold vec_set. rewrite list_lookup_insert_ne; [by apply Hout|].
          intros ->. apply Hg. by eapply list_elem_of_lookup_2. }
    destruct HP as (Hst & Hsh & Hfl & Hrc & Hlen & HA & Hrf & Hout).
    split_and!; try done.
    intros m g Hm. rewrite (Hrf m g Hm). rewrite decide_True; [done|].
    apply lookup_lt_Some in Hm. done.
  Qed.
  (** The loop over [m] leaves the shadow copy and its flag alone. *)
Lemma eliminate_face_block_shadow (faces : list nat) (nfaces n : nat) (value : double)
      (w : Work) :
    let w' := eliminate_face_block faces nfaces n value w in
    shadow w' = shadow w /\ flag w' = flag w.
  Proof.
    simpl. unfold eliminate_face_block.
    pose (P := fun (k : nat) (t : Work) => shadow t = shadow w /\ flag t = flag w).
    match goal with |- context [for_loop 0 nfaces ?b w] =>
      assert (P nfaces (for_loop 0 nfaces b w)) as HP end; [|done].
    apply for_loop_ind; [lia | done |].
    intros k t _ [Hsh Hfl]. done.
  Qed.

  (** What one face does to the shadow copy: it is taken from [Acell] the
      first time a Dirichlet or mixed condition is met, and a face with
      another condition leaves [Acell] as it is. *)
Lemma ApplyBCs_face_shadow (mesh_ : Mesh) (bc_model : list BCModel)
      (bc_value bc_mixed : list double) (primary : bool) (c : nat) (faces : list nat)
      (nfaces n : nat) (w : Work) :
    let w' := ApplyBCs_face mesh_ bc_model bc_value bc_mixed primary c faces nfaces n w in
    let touched := touches_matrix (bc_model_at bc_model (id_at faces n)) in
    flag w' = flag w && negb touched /\
    shadow w' = (if flag w && touched then Acell w else shadow w) /\
    (touched = false -> Acell w' = Acell w).
  Proof.
    simpl. unfold ApplyBCs_face.
    destruct (bc_model_at bc_model (id_at faces n)); simpl.
    - rewrite andb_true_r, andb_false_r. done.
    - unfold ApplyBCs_Dirichlet.
      destruct (eliminate_face_block_shadow faces nfaces n
                  (vec_get bc_value (id_at faces n)) (save_shadow w)) as [Hsh Hfl].
      rewrite andb_false_r, andb_true_r.
      assert (shadow (save_shadow w) = (if flag w then Acell w else shadow w) /\
              flag (save_shadow w) = false) as [Hsh0 Hfl0].
      { unfold save_shadow. by destruct (flag w) eqn:Hf. }
      destruct primary; simpl; rewrite Hsh, Hfl, Hsh0, Hfl0; done.
    - rewrite andb_true_r, andb_false_r. done.
    - rewrite andb_false_r, andb_true_r. unfold save_shadow.
      destruct (flag w) eqn:Hf; simpl; rewrite ?Hf; done.
  Qed.

  (** The loop over the faces of a cell: the shadow copy is the matrix the
      loop started with as soon as one face met so far changes it. *)
Lemma ApplyBCs_faces_shadow (mesh_ : Mesh) (bc_model : list BCModel)
      (bc_value bc_mixed : list double) (primary : bool) (c : nat) (faces : list nat)
      (A0 S0 : DenseMatrix) (rf rc : list double) :
    let nfaces := length faces in
    let w := for_loop 0 nfaces
               (ApplyBCs_face mesh_ bc_model bc_value bc_mixed primary c faces nfaces)
               (mkWork A0 S0 true rf rc) in
    let touched := existsb (fun f => touches_matrix (bc_model_at bc_model f)) faces in
    shadow w = (if touched then A0 else S0) /\
    (touched = false -> Acell w = A0).
  Proof.
    intros nfaces w touched.
    pose (touched_upto := fun k =>
      existsb (fun f => touches_matrix (bc_model_at bc_model f)) (take k faces)).
    pose (P := fun (k : nat) (t : Work) =>
      flag t = negb (touched_upto k) /\
      shadow t = (if touched_upto k then A0 else S0) /\
      (touched_upto k = false -> Acell t = A0)).
    assert (P nfaces w) as (_ & Hsh & HA).
    { apply for_loop_ind; [lia | done |].
      intros k t Hk (Hfl & Hsh & HA).
      destruct (ApplyBCs_face_shadow mesh_ bc_model bc_value bc_mixed primary c faces
                  nfaces k t) as (Hfl' & Hsh' & HA').
      destruct (lookup_lt_is_Some_2 faces k ltac:(fold nfaces; lia)) as [f Hf].
      assert (touched_upto (S k)
              = touched_upto k || touches_matrix (bc_model_at bc_model f)) as Hstep.
      { unfold touched_upto. rewrite (take_S_r _ _ _ Hf), existsb_app. simpl.
        by rewrite orb_false_r. }
      rewrite (id_at_lookup _ _ _ Hf) in Hfl', Hsh', HA'.
      unfold P. rewrite Hstep, Hfl', Hsh', Hfl, Hsh.
      destruct (touched_upto k); simpl.
      - done.
      - destruct (touches_matrix (bc_model_at bc_model f)) eqn:Ht; simpl.
        + split; [done|]. split; [by apply HA|done].
        + split; [done|]. split; [done|]. intros _. rewrite HA' by done. by apply HA. }
    unfold touched_upto, nfaces in Hsh, HA. rewrite firstn_all in Hsh, HA. done.
  Qed.
End ApplyBCsFacts.


(** ** Flux reconstruction *)

Section UpdateFluxFacts.
  Context `{Double}.
  Import DenseMatrix OperatorDiffusionMFD.

  Variable mesh_ : Mesh.
  Variables matrices matrices_shadow : list DenseMatrix.
  Variables u_cell u_face : list double.
  Variable L : nat.
  Hypothesis Hghost : nfaces_owned mesh_ <= nfaces_wghost mesh_.
  Hypothesis Hflux : nfaces_owned mesh_ <= L.

  Local Abbreviation faces_of := (cell_get_faces mesh_).
  Local Abbreviation lflux := (local_flux mesh_ matrices matrices_shadow u_cell u_face).

  Local Abbreviation before := visited_before.
  Local Abbreviation Inv :=
    (flux_invariant mesh_ matrices matrices_shadow u_cell u_face L).

Lemma write_count_snoc (g f : nat) (fl : list double) (dn : list bool) (ws : list nat) :
    write_count g (mkFluxWork fl dn (ws ++ [f]))
    = write_count g (mkFluxWork fl dn ws) + (if decide (f = g) then 1 else 0).
  Proof.
    unfold write_count. simpl. rewrite filter_app, length_app. f_equal.
    rewrite filter_cons, filter_nil. by case_decide.
  Qed.

Lemma UpdateFlux_face_inv (c n : nat) (w : FluxWork) :
    n < length (faces_of c) ->
    Inv c n w ->
    Inv c (S n) (UpdateFlux_face mesh_ matrices matrices_shadow u_cell u_face c n w).
  Proof.
    intros Hn (Hlen & Hdn & Hrest & Hinv).
    destruct (lookup_lt_is_Some_2 (faces_of c) n Hn) as [f Hf].
    unfold UpdateFlux_face. rewrite (id_at_lookup _ _ _ Hf).
    assert (forall g, faces_of c !! n <> Some g ->
              (forall c' n', before c n c' n' -> faces_of c' !! n' <> Some g) ->
              forall c' n', before c (S n) c' n' -> faces_of c' !! n' <> Some g) as Hext.
    { intros g Hg Hold c' n' [Hlt|[-> Hlt]]; [apply Hold; by left|].
      destruct (decide (n' = n)) as [->|Hne]; [done|]. apply Hold. right. split; [done|lia]. }
    assert (forall c1 n1, before c n c1 n1 -> before c (S n) c1 n1) as Hmono.
    { intros c1 n1 [Hlt|[-> Hlt]]; [by left|right; split; [done|lia]]. }
    destruct (Nat.ltb_spec f (nfaces_owned mesh_)) as [Hown|Hown]; simpl.
    - destruct (Hinv f Hown) as [(Hno & Hfl & Hfx & Hwc)|(c1 & n1 & Hb & Hocc & Hfirst & Hfl & Hfx & Hwc)].
      + (* first visit of [f]: the entry is written *)
        rewrite Hfl. unfold flux_invariant. simpl.
        split; [by rewrite vec_set_length|]. split; [by rewrite length_insert|].
        split.
        { intros g Hg HgL. unfold vec_set. rewrite list_lookup_insert_ne by lia.
          by apply Hrest. }
        intros g Hg. destruct (decide (g = f)) as [->|Hne].
        * right. exists c, n. split; [right; split; [done|lia]|].
          split; [done|]. split; [done|].
          split; [apply list_lookup_insert_eq; lia|].
          split.
          { unfold vec_set. rewrite list_lookup_insert_eq by lia.
            unfold vec_get. by rewrite Hfx. }
          rewrite write_count_snoc. rewrite decide_True by done.
          unfold write_count in *. simpl in *. lia.
        * assert (faces_of c !! n <> Some g) as Hng by congruence.
          destruct (Hinv g Hg) as [(Hno' & Hfl' & Hfx' & Hwc')
            |(c1 & n1 & Hb & Hocc & Hfirst & Hfl' & Hfx' & Hwc')].
          -- left. split; [by apply Hext|].
             split; [by rewrite list_lookup_insert_ne|].
             split; [unfold vec_set; by rewrite list_lookup_insert_ne|].
             rewrite write_count_snoc. rewrite decide_False by done.
             unfold write_count in *. simpl in *. lia.
          -- right. exists c1, n1. split; [by apply Hmono|].
             split; [done|]. split; [done|].
             split; [by rewrite list_lookup_insert_ne|].
             split; [unfold vec_set; by rewrite list_lookup_insert_ne|].
             rewrite write_count_snoc. rewrite decide_False by done.
             unfold write_count in *. simpl in *. lia.
      + (* [f] was met before: nothing is written *)
        rewrite Hfl. simpl.
        split; [done|]. split; [done|]. split; [done|].
        intros g Hg. destruct (decide (g = f)) as [->|Hne].
        * right. exists c1, n1. split; [by apply Hmono|]. done.
        * assert (faces_of c !! n <> Some g) as Hng by congruence.
          destruct (Hinv g Hg) as [(Hno' & Hfl' & Hfx' & Hwc')
            |(c2 & n2 & Hb' & Hocc' & Hfirst' & Hfl' & Hfx' & Hwc')].
          -- left. split; [by apply Hext|]. done.
          -- right. exists c2, n2. split; [by apply Hmono|]. done.
    - (* a face that is not owned *)
      split; [done|]. split; [done|]. split; [done|].
      intros g Hg.
      assert (faces_of c !! n <> Some g) as Hng by (intros Heq; simplify_eq; lia).
      destruct (Hinv g Hg) as [(Hno' & Hfl' & Hfx' & Hwc')
        |(c2 & n2 & Hb' & Hocc' & Hfirst' & Hfl' & Hfx' & Hwc')].
      + left. split; [by apply Hext|]. done.
      + right. exists c2, n2. split; [by apply Hmono|]. done.
  Qed.

Lemma UpdateFlux_cell_inv (c : nat) (w : FluxWork) :
    Inv c 0 w ->
    Inv (S c) 0 (UpdateFlux_cell mesh_ matrices matrices_shadow u_cell u_face c w).
  Proof.
    intros Hw. unfold UpdateFlux_cell.
    assert (Inv c (length (faces_of c))
              (for_loop 0 (length (faces_of c))
                 (UpdateFlux_face mesh_ matrices matrices_shadow u_cell u_face c) w))
      as (Hlen & Hdn & Hrest & Hinv).
    { apply (for_loop_ind (fun n t => Inv c n t)); [lia | done |].
      intros n t Hn Ht. apply UpdateFlux_face_inv; [lia | done]. }
    split; [done|]. split; [done|]. split; [done|].
    intros g Hg.
    assert (forall c1 n1, before c (length (faces_of c)) c1 n1 -> before (S c) 0 c1 n1)
      as Hmono.
    { intros c1 n1 [Hlt|[-> Hlt]]; left; lia. }
    destruct (Hinv g Hg) as [(Hno & Hfl & Hfx & Hwc)
      |(c1 & n1 & Hb & Hocc & Hfirst & Hfl & Hfx & Hwc)].
    - left. split; [|done].
      intros c' n' [Hlt|[-> Hlt]]; [|lia].
      destruct (decide (c' = c)) as [->|Hne].
      + destruct (decide (n' < length (faces_of c))) as [Hin|Hout].
        * apply Hno. right. done.
        * rewrite lookup_ge_None_2 by lia. done.
      + apply Hno. left. lia.
    - right. exists c1, n1. split; [by apply Hmono|]. done.
  Qed.

Lemma UpdateFlux_work_inv (flux : list double) :
    length flux = L ->
    Inv (ncells_owned mesh_) 0
        (UpdateFlux_work mesh_ matrices matrices_shadow u_cell u_face flux).
  Proof.
    intros HL. unfold UpdateFlux_work.
    apply (for_loop_ind (fun c t => Inv c 0 t)); [lia | |].
    - split; [simpl; by rewrite length_replicate|].
      split; [simpl; by rewrite length_replicate|].
      split.
      { intros g _ Hg. simpl. rewrite HL. by apply lookup_replicate_2. }
      intros g Hg. left. split.
      { intros c' n' [Hlt|[_ Hlt]]; lia. }
      simpl. split; [apply lookup_replicate_2; lia|].
      split; [rewrite HL; apply lookup_replicate_2; lia|]. done.
    - intros c t _ Ht. by apply UpdateFlux_cell_inv.
  Qed.

  (** What the invariant gives once the loops are through. *)
Lemma UpdateFlux_first_visit (flux : list double) (f c n : nat) :
    length flux = L ->
    f < nfaces_owned mesh_ ->
    first_visit mesh_ f c n ->
    let w := UpdateFlux_work mesh_ matrices matrices_shadow u_cell u_face flux in
    flux_data w !! f = Some (d_zero - lflux c n)%D /\ write_count f w = 1.
  Proof.
    intros HL Hf (Hc & Hocc & Hfirst) w.
    destruct (UpdateFlux_work_inv flux HL) as (_ & _ & _ & Hinv).
    destruct (Hinv f Hf) as [(Hno & _)|(c1 & n1 & Hb & Hocc1 & Hfirst1 & _ & Hfx & Hwc)].
    - exfalso. apply (Hno c n); [|done]. left. done.
    - assert (c1 = c /\ n1 = n) as [-> ->].
      { destruct (Nat.lt_trichotomy c1 c) as [Hlt|[Heq|Hgt]].
        - exfalso. apply (Hfirst c1 n1); [by left | done].
        - subst c1. destruct (Nat.lt_trichotomy n1 n) as [Hlt|[Heq|Hgt]].
          + exfalso. apply (Hfirst c n1); [right; done | done].
          + done.
          + exfalso. apply (Hfirst1 c n); [right; done | done].
        - exfalso. apply (Hfirst1 c n); [by left | done]. }
      done.
  Qed.

Lemma UpdateFlux_never_visited (flux : list double) (f : nat) :
    length flux = L ->
    f < nfaces_owned mesh_ ->
    (forall c n, c < ncells_owned mesh_ -> faces_of c !! n <> Some f) ->
    let w := UpdateFlux_work mesh_ matrices matrices_shadow u_cell u_face flux in
    flux_data w !! f = Some d_zero /\ write_count f w = 0.
  Proof.
    intros HL Hf Hno w.
    destruct (UpdateFlux_work_inv flux HL) as (_ & _ & _ & Hinv).
    destruct (Hinv f Hf) as [(_ & _ & Hfx & Hwc)|(c1 & n1 & Hb & Hocc1 & _)]; [done|].
    exfalso. destruct Hb as [Hlt|[_ Hlt]]; [|lia]. by apply (Hno c1 n1).
  Qed.

Lemma UpdateFlux_length (flux : list double) :
    length flux = L ->
    length (UpdateFlux mesh_ matrices matrices_shadow u_cell u_face flux) = L.
  Proof.
    intros HL. by destruct (UpdateFlux_work_inv flux HL) as (Hlen & _).
  Qed.
End UpdateFluxFacts.


(** ** Two-point flux approximation *)

Section TPFAFacts.
  Context `{Double}.
  Import DenseMatrix OperatorDiffusionMFD.

  Variable mesh_ : Mesh.
  Variable junk : nat -> double.
  Variable Tensor : Type.
  Variable Tensor_unit : Tensor.
  Variable isZero : Tensor -> bool.
  Variable K_ : option (list Tensor).
  Variable MassMatrixInverseTPFA : nat -> Tensor -> DenseMatrix -> DenseMatrix.
  Variable GatherGhostedToMaster : list double -> list double.

  Local Abbreviation Kc := (Kc_of Tensor Tensor_unit K_).
  Local Abbreviation Mff_of :=
    (fun c => MassMatrixInverseTPFA c (Kc c)
                (alloc junk (length (cell_get_faces mesh_ c))
                            (length (cell_get_faces mesh_ c)))).
  Local Abbreviation trans :=
    (transmissibilities mesh_ junk Tensor Tensor_unit isZero K_
       MassMatrixInverseTPFA GatherGhostedToMaster).

  Local Abbreviation half_event :=
    (half_event mesh_ junk Tensor Tensor_unit isZero K_ MassMatrixInverseTPFA).

Lemma accumulate_cell_log (c : nat) (s : Traced (list double)) :
    (forall e, e ∈ s.2 -> half_event c e) ->
    forall e, e ∈ (accumulate_cell mesh_ junk Tensor Tensor_unit isZero K_
                     MassMatrixInverseTPFA c s).2 -> half_event (S c) e.
  Proof.
    intros Hs. unfold accumulate_cell.
    assert (forall e, half_event c e -> half_event (S c) e) as Hmono.
    { intros e (c' & n' & Hc' & Hz & He). exists c', n'. split; [lia|done]. }
    destruct (isZero (Kc c)) eqn:Hz.
    - intros e He. apply Hmono. by apply Hs.
    - apply (for_loop_ind (fun _ (t : Traced (list double)) =>
                             forall e, e ∈ t.2 -> half_event (S c) e)); [lia | |].
      + intros e He. apply Hmono. by apply Hs.
      + intros n [Ttmp log] _ IH e He. simpl in *.
        apply elem_of_app in He as [He|He]; [by apply IH|].
        apply list_elem_of_singleton in He as ->.
        exists c, n. split; [lia|]. done.
  Qed.

Lemma transmissibilities_log (e : DivSite * double) :
    e ∈ trans.2 -> half_event (ncells_owned mesh_) e.
  Proof.
    unfold transmissibilities.
    match goal with |- context [for_loop 0 ?n ?b ?s0] =>
      assert (forall e, e ∈ (for_loop 0 n b s0).2 -> half_event n e) as Hlog;
      [|destruct (for_loop 0 n b s0) as [Ttmp log]; simpl in *; by apply Hlog]
    end.
    apply (for_loop_ind (fun k (t : Traced (list double)) =>
                           forall e, e ∈ t.2 -> half_event k e)); [lia | |].
    - simpl. intros e' He'. by apply elem_of_nil in He'.
    - intros c t _ IH. by apply accumulate_cell_log.
  Qed.

  Local Abbreviation zero_face := (zero_face mesh_ junk).

Lemma populate_inv (Ttmp : list double) (log0 : list (DivSite * double))
      (matrices : list DenseMatrix) :
    let r := for_loop 0 (nfaces_owned mesh_) (populate_face mesh_ junk Ttmp)
               (matrices, log0) in
    length r.1 = length matrices /\
    (forall e, e ∈ r.2 -> e ∈ log0 \/ face_event Ttmp (nfaces_owned mesh_) e) /\
    (forall f, f < nfaces_owned mesh_ -> f < length matrices ->
       d_eqb (vec_get Ttmp f) d_zero = true -> r.1 !! f = Some (zero_face f)).
  Proof.
    intros r. unfold r.
    apply (for_loop_ind (fun k (t : Traced (list DenseMatrix)) =>
      length t.1 = length matrices /\
      (forall e, e ∈ t.2 -> e ∈ log0 \/ face_event Ttmp k e) /\
      (forall f, f < k -> f < length matrices ->
         d_eqb (vec_get Ttmp f) d_zero = true -> t.1 !! f = Some (zero_face f))));
      [lia | |].
    - simpl. split; [done|]. split; [by left|]. intros f Hf. lia.
    - intros k [ms log] _ (Hlen & Hlog & Hzero). simpl in *.
      assert (forall e, face_event Ttmp k e -> face_event Ttmp (S k) e) as Hmono.
      { intros e (f & Hf & Hnz & He). exists f. split; [lia|done]. }
      unfold populate_face.
      destruct (d_eqb (vec_get Ttmp k) d_zero) eqn:Hk; simpl.
      + split; [by rewrite length_insert|]. split.
        * intros e He. destruct (Hlog e He) as [?|?]; [by left|right; by apply Hmono].
        * intros f Hf Hfl Hfz. destruct (decide (f = k)) as [->|Hne].
          -- rewrite list_lookup_insert_eq by lia. done.
          -- rewrite list_lookup_insert_ne by done. apply Hzero; [lia|done..].
      + assert (forall e, e ∈ log ++ [(DivFace k, vec_get Ttmp k)] ->
                  e ∈ log0 \/ face_event Ttmp (S k) e) as Hlog'.
        { intros e He. apply elem_of_app in He as [He|He].
          - destruct (Hlog e He) as [?|?]; [by left|right; by apply Hmono].
          - apply list_elem_of_singleton in He as ->. right. exists k. split; [lia|done]. }
        assert (forall (X : DenseMatrix) f, f < S k -> f < length matrices ->
                  d_eqb (vec_get Ttmp f) d_zero = true ->
                  <[k := X]> ms !! f = Some (zero_face f)) as Hzero'.
        { intros X f Hf Hfl Hfz. destruct (decide (f = k)) as [->|Hne]; [congruence|].
          rewrite list_lookup_insert_ne by done. apply Hzero; [lia|done..]. }
        destruct (Nat.eqb _ 2); simpl;
          (split; [by rewrite length_insert|]; split; [done|]; by apply Hzero').
  Qed.
  (** Every quotient of the accumulation is on record. *)
Lemma accumulate_cell_complete (c : nat) (s : Traced (list double)) :
    let r := accumulate_cell mesh_ junk Tensor Tensor_unit isZero K_
               MassMatrixInverseTPFA c s in
    (forall e, e ∈ s.2 -> e ∈ r.2) /\
    (isZero (Kc c) = false -> forall n, n < length (cell_get_faces mesh_ c) ->
       (DivHalf c n, get (Mff_of c) n n) ∈ r.2).
  Proof.
    simpl. unfold accumulate_cell. destruct (isZero (Kc c)) eqn:Hz; [done|].
    pose (P := fun (k : nat) (t : Traced (list double)) =>
      (forall e, e ∈ s.2 -> e ∈ t.2) /\
      (forall n, n < k -> (DivHalf c n, get (Mff_of c) n n) ∈ t.2)).
    match goal with |- context [for_loop 0 ?n ?b s] =>
      assert (P n (for_loop 0 n b s)) as [Hold Hnew] end.
    { apply for_loop_ind; [lia | |].
      - split; [done|]. intros n Hn. lia.
      - intros k [Ttmp log] _ [Hold Hnew]. simpl in *. split.
        + intros e He. apply elem_of_app. left. by apply Hold.
        + intros n Hn. apply elem_of_app. destruct (decide (n = k)) as [->|Hne].
          * right. by apply list_elem_of_singleton.
          * left. apply Hnew. lia. }
    split; [done|]. intros _ n Hn. by apply Hnew.
  Qed.

Lemma transmissibilities_complete (c n : nat) :
    c < ncells_owned mesh_ -> isZero (Kc c) = false ->
    n < length (cell_get_faces mesh_ c) ->
    (DivHalf c n, get (Mff_of c) n n) ∈ trans.2.
  Proof.
    intros Hc Hz Hn. unfold transmissibilities.
    pose (P := fun (k : nat) (t : Traced (list double)) =>
      forall c', c' < k -> isZero (Kc c') = false ->
        forall n', n' < length (cell_get_faces mesh_ c') ->
          (DivHalf c' n', get (Mff_of c') n' n') ∈ t.2).
    match goal with |- context [for_loop 0 ?m ?b ?s0] =>
      assert (P m (for_loop 0 m b s0)) as Hall;
      [|destruct (for_loop 0 m b s0) as [Ttmp log]; simpl in *; by apply Hall]
    end.
    apply for_loop_ind; [lia | |].
    - intros c' Hc'. lia.
    - intros k t _ IH c' Hc' Hz' n' Hn'.
      destruct (accumulate_cell_complete k t) as [Hold Hnew].
      destruct (decide (c' = k)) as [->|Hne].
      + by apply Hnew.
      + apply Hold. apply IH; [lia|done..].
  Qed.

  (** Every quotient of the loop over the faces is on record, and the matrix
      of a face with a non-zero value is the one built from its reciprocal. *)
Lemma populate_complete (Ttmp : list double) (log0 : list (DivSite * double))
      (matrices : list DenseMatrix) :
    let r := for_loop 0 (nfaces_owned mesh_) (populate_face mesh_ junk Ttmp)
               (matrices, log0) in
    (forall e, e ∈ log0 -> e ∈ r.2) /\
    (forall f, f < nfaces_owned mesh_ -> d_eqb (vec_get Ttmp f) d_zero = false ->
       (DivFace f, vec_get Ttmp f) ∈ r.2) /\
    (forall f, f < nfaces_owned mesh_ -> f < length matrices ->
       d_eqb (vec_get Ttmp f) d_zero = false ->
       r.1 !! f = Some (coef_face mesh_ junk f (vec_get Ttmp f))) /\
    (forall f, nfaces_owned mesh_ <= f -> r.1 !! f = matrices !! f).
  Proof.
    intros r. unfold r.
    pose (P := fun (k : nat) (t : Traced (list DenseMatrix)) =>
      length t.1 = length matrices /\
      (forall e, e ∈ log0 -> e ∈ t.2) /\
      (forall f, f < k -> d_eqb (vec_get Ttmp f) d_zero = false ->
         (DivFace f, vec_get Ttmp f) ∈ t.2) /\
      (forall f, f < k -> f < length matrices ->
         d_eqb (vec_get Ttmp f) d_zero = false ->
         t.1 !! f = Some (coef_face mesh_ junk f (vec_get Ttmp f))) /\
      (forall f, k <= f -> t.1 !! f = matrices !! f)).
    match goal with |- context [for_loop 0 ?m ?b ?s0] =>
      assert (P m (for_loop 0 m b s0)) as (_ & H1 & H2 & H3 & H4) end; [|done].
    apply for_loop_ind; [lia | |].
    - split; [done|]. split; [done|]. split; [intros f Hf; lia|].
      split; [intros f Hf; lia|done].
    - intros k [ms log] _ (Hlen & Hold & Hnew & Hmat & Hrest).
      simpl in Hlen, Hold, Hnew, Hmat, Hrest.
      destruct (d_eqb (vec_get Ttmp k) d_zero) eqn:Hk.
      + assert (populate_face mesh_ junk Ttmp k (ms, log)
                = (<[k := zero_face k]> ms, log)) as ->.
        { unfold populate_face, OperatorDiffusionMFD.zero_face. by rewrite Hk. }
        unfold P. simpl. split_and!.
        * by rewrite length_insert.
        * done.
        * intros f Hf Hnz. apply Hnew; [|done].
          destruct (decide (f = k)) as [->|Hne]; [congruence|lia].
        * intros f Hf Hfl Hnz.
          destruct (decide (f = k)) as [->|Hne]; [congruence|].
          rewrite list_lookup_insert_ne by done. apply Hmat; [lia|done..].
        * intros f Hf. rewrite list_lookup_insert_ne by lia. apply Hrest. lia.
      + assert (populate_face mesh_ junk Ttmp k (ms, log)
                = (<[k := coef_face mesh_ junk k (vec_get Ttmp k)]> ms,
                   log ++ [(DivFace k, vec_get Ttmp k)])) as ->.
        { unfold populate_face, coef_face. rewrite Hk. by destruct (Nat.eqb _ 2). }
        unfold P. simpl. split_and!.
        * by rewrite length_insert.
        * intros e He. apply elem_of_app. left. by apply Hold.
        * intros f Hf Hnz. apply elem_of_app. destruct (decide (f = k)) as [->|Hne].
          -- right. by apply list_elem_of_singleton.
          -- left. apply Hnew; [lia|done].
        * intros f Hf Hfl Hnz. destruct (decide (f = k)) as [->|Hne].
          -- rewrite list_lookup_insert_eq by lia. done.
          -- rewrite list_lookup_insert_ne by done. apply Hmat; [lia|done..].
        * intros f Hf. rewrite list_lookup_insert_ne by lia. apply Hrest. lia.
  Qed.
End TPFAFacts.


(** ** The DG mass matrix *)

(** Two loop bodies that agree on the states an invariant allows give the
    same loop. *)
Lemma for_loop_ext_inv {S : Type} (P : S -> Prop) (lo hi : nat)
    (f g : nat -> S -> S) (s : S) :
  P s ->
  (forall i t, lo <= i < hi -> P t -> f i t = g i t /\ P (g i t)) ->
  for_loop lo hi f s = for_loop lo hi g s /\ P (for_loop lo hi g s).
Proof.
  intros Hs Hstep. destruct (decide (lo <= hi)) as [Hle|Hgt].
  - induction hi as [|hi IH].
    + assert (lo = 0) as -> by lia. by rewrite !for_loop_nil.
    + destruct (decide (lo = Datatypes.S hi)) as [->|Hne].
      * by rewrite !for_loop_nil.
      * rewrite !for_loop_S by lia.
        assert (for_loop lo hi f s = for_loop lo hi g s /\ P (for_loop lo hi g s))
          as [Heq HP].
        { apply IH; [|lia]. intros i t Hi. apply Hstep. lia. }
        rewrite Heq. apply Hstep; [lia | done].
  - unfold for_loop. replace (hi - lo) with 0 by lia. done.
Qed.

Section MassMatrixFacts.
  Context `{Double}.
  Import DenseMatrix DG_Modal.

  Variable d_ : nat.
  Variable monomials : list (list nat).
  Variable MonomialSetPosition : list nat -> nat.
  Variable integrals : nat -> nat -> double.
  Variable K00 : double.

  Local Abbreviation nrows := (length monomials).
  Local Abbreviation entry := (mass_entry d_ monomials MonomialSetPosition integrals K00).

  (** After the loops every entry holds the value computed for the pair of
      its smaller and its larger index. *)
Lemma assemble_spec (M0 : DenseMatrix) :
    shape nrows nrows M0 ->
    let M := assemble d_ monomials MonomialSetPosition integrals K00 M0 in
    shape nrows nrows M /\
    forall i j, i < nrows -> j < nrows -> get M i j = entry (i `min` j) (i `max` j).
  Proof.
    intros Hs M. unfold M, assemble.
    pose (P := fun (K L : nat) (A : DenseMatrix) =>
      shape nrows nrows A /\
      forall i j, i < nrows -> j < nrows ->
        (i `min` j < K \/ (i `min` j = K /\ i `max` j < L)) ->
        get A i j = entry (i `min` j) (i `max` j)).
    match goal with |- context [for_loop 0 nrows ?b M0] =>
      assert (P nrows 0 (for_loop 0 nrows b M0)) as [HsM HM] end.
    { apply (for_loop_ind (fun K A => P K 0 A)); [lia | |].
      - split; [done|]. intros i j Hi Hj [Hlt|[_ Hlt]]; lia.
      - intros k A Hk [HsA HA].
        assert (P k nrows (for_loop k nrows
                  (fun l M1 => let v := entry k l in
                               let M2 := set M1 k l v in set M2 l k v) A)) as [HsB HB].
        { apply (for_loop_ind (fun L B => P k L B)); [lia | |].
          - split; [done|]. intros i j Hi Hj [Hlt|[Heq Hlt]]; [apply HA; auto|lia].
          - intros l B Hl [HsB HB]. split; [by do 2 apply shape_set|].
            intros i j Hi Hj Hij. simpl.
            rewrite (get_set nrows nrows) by (try apply shape_set; done || lia).
            rewrite (get_set nrows nrows) by (done || lia).
            destruct (decide (i = l /\ j = k)) as [[-> ->]|Hn1]; [f_equal; lia|].
            destruct (decide (i = k /\ j = l)) as [[-> ->]|Hn2]; [f_equal; lia|].
            apply HB; [done..|].
            destruct Hij as [Hlt|[Heq Hlt]]; [by left|]. right. split; [done|].
            destruct (decide (i `max` j = l)) as [Hmax|Hmax]; [|lia].
            exfalso. destruct (Nat.min_spec i j) as [[? ?]|[? ?]];
              destruct (Nat.max_spec i j) as [[? ?]|[? ?]]; intuition lia. }
        split; [done|]. intros i j Hi Hj [Hlt|[_ Hlt]]; [|lia].
        apply HB; [done..|].
        destruct (decide (i `min` j < k)) as [?|?]; [by left|]. right.
        split; [lia|]. destruct (Nat.max_spec i j) as [[? ->]|[? ->]]; lia. }
    split; [done|]. intros i j Hi Hj. apply HM; [done..|]. left.
    destruct (Nat.min_spec i j) as [[? ->]|[? ->]]; lia.
  Qed.

  (** Reading the entry back instead of reusing the value changes nothing. *)
Lemma assemble_readback_eq (M0 : DenseMatrix) :
    shape nrows nrows M0 ->
    assemble_readback d_ monomials MonomialSetPosition integrals K00 M0
    = assemble d_ monomials MonomialSetPosition integrals K00 M0.
  Proof.
    intros Hs. unfold assemble_readback, assemble.
    apply (for_loop_ext_inv (shape nrows nrows)); [done|].
    intros k A Hk HsA.
    apply (for_loop_ext_inv (shape nrows nrows)); [done|].
    intros l B Hl HsB. simpl. split; [|by do 2 apply shape_set].
    by rewrite (get_set_eq nrows nrows) by (done || lia).
  Qed.

Lemma assemble_symmetric (M0 : DenseMatrix) :
    shape nrows nrows M0 ->
    is_symmetric (assemble d_ monomials MonomialSetPosition integrals K00 M0).
  Proof.
    intros Hs. destruct (assemble_spec M0 Hs) as [(Hr & _) HM].
    intros k l Hk Hl. rewrite Hr in Hk, Hl.
    rewrite !HM by done. by rewrite Nat.min_comm, Nat.max_comm.
  Qed.
End MassMatrixFacts.


(** ** Fallback between discretization variants *)

Section FallbackFacts.
  Context `{Double}.
  Import DenseMatrix OperatorDiffusionMFD.

  Variable mesh_ : Mesh.
  Variable junk : nat -> double.
  Variables OK FAILED : Z.
  Variable Tensor : Type.
  Variable Tensor_unit : Tensor.
  Variable K_ : option (list Tensor).
  Variable mfd : MFD3D_Diffusion.Routine -> nat -> Tensor -> DenseMatrix -> Z * DenseMatrix.
  Variables mfd_primary_ mfd_secondary_ : DiffusionMethod.
  Variable surface_mesh : bool.
  Variable scalar_rho_mu_ : bool.
  Variables rho_ mu_ : double.
  Variables rho_cv_ mu_cv_ : list double.

  Local Abbreviation attempt_of :=
    (mass_matrix_of_cell mesh_ junk OK FAILED Tensor Tensor_unit K_ mfd
       mfd_primary_ mfd_secondary_ surface_mesh).

Lemma run_eq (R : MFD3D_Diffusion.Routine) (c : nat) (K : Tensor) (a : Attempt) :
    run Tensor mfd R c K a
    = mkAttempt (calls a ++ [R]) (mfd R c K (Wff a)).1 (mfd R c K (Wff a)).2.
  Proof. unfold run. by destruct (mfd R c K (Wff a)). Qed.

Lemma pair_eta {A B : Type} (x : A * B) : (x.1, x.2) = x.
  Proof. by destruct x. Qed.

  (** The loop of [CreateMassMatrices_] ends without an exception exactly
      when no cell ends with the status FAILED. *)
Lemma CreateMassMatrices_thrown (Wff_cells_ : list DenseMatrix) :
    (CreateMassMatrices_ mesh_ junk OK FAILED Tensor Tensor_unit K_ mfd
       mfd_primary_ mfd_secondary_ surface_mesh scalar_rho_mu_ rho_ mu_ rho_cv_ mu_cv_
       Wff_cells_).2 = None
    <-> forall c, c < ncells_owned mesh_ -> ok (attempt_of c) <> FAILED.
  Proof.
    unfold CreateMassMatrices_.
    apply (for_loop_ind (fun k (t : list DenseMatrix * Thrown) =>
             t.2 = None <-> forall c, c < k -> ok (attempt_of c) <> FAILED)); [lia | |].
    - simpl. split; [intros _ c Hc; lia | done].
    - intros k [W thrown] _ IH. simpl in IH. unfold CreateMassMatrices_cell.
      destruct thrown as [msg|]; simpl.
      + split; [done|]. intros Hall. apply IH. intros c Hc. apply Hall. lia.
      + destruct (Z.eqb_spec (ok (attempt_of k)) FAILED) as [Heq|Hne]; simpl.
        * split; [done|]. intros Hall. exfalso. by apply (Hall k); [lia|].
        * split; [|done]. intros _ c Hc.
          destruct (decide (c = k)) as [->|Hck]; [done|].
          apply IH; [done|lia].
  Qed.

Lemma UpdateMatricesNodal_thrown (Tensor_unit_2d : Tensor) (matrices : list DenseMatrix) :
    nodal_thrown
      (UpdateMatricesNodal_ mesh_ junk OK FAILED Tensor K_ mfd mfd_primary_
         Tensor_unit_2d matrices) = None
    <-> forall c, c < ncells_owned mesh_ ->
          ok (stiffness_of_cell mesh_ junk OK FAILED Tensor K_ mfd mfd_primary_
                Tensor_unit_2d c) <> FAILED.
  Proof.
    unfold UpdateMatricesNodal_.
    apply (for_loop_ind (fun k (t : NodalState) =>
             nodal_thrown t = None <->
             forall c, c < k ->
               ok (stiffness_of_cell mesh_ junk OK FAILED Tensor K_ mfd mfd_primary_
                     Tensor_unit_2d c) <> FAILED)); [lia | |].
    - simpl. split; [intros _ c Hc; lia | done].
    - intros k [ms nf thrown] _ IH. simpl in IH. unfold UpdateMatricesNodal_cell. simpl.
      destruct thrown as [msg|]; simpl.
      + split; [done|]. intros Hall. apply IH. intros c Hc. apply Hall. lia.
      + match goal with |- context [Z.eqb ?x FAILED] =>
          destruct (Z.eqb_spec x FAILED) as [Heq|Hne] end; simpl.
        * split; [done|]. intros Hall. exfalso. by apply (Hall k); [lia|].
        * split; [|done]. intros _ c Hc.
          destruct (decide (c = k)) as [->|Hck]; [done|].
          apply IH; [done|lia].
  Qed.
End FallbackFacts.

(** ** In-place loops over vectors and matrices *)

Section InPlaceLoops.
  Context `{Double}.
  Import DenseMatrix.

  (** [v[k] = G(k, v[k])] for [k = lo .. hi-1]. *)
Lemma vec_update_loop (lo hi : nat) (G : nat -> double -> double) (v : list double) :
    let v' := for_loop lo hi (fun k v => vec_set v k (G k (vec_get v k))) v in
    length v' = length v /\
    forall i, i < length v ->
      vec_get v' i = if decide (lo <= i < hi) then G i (vec_get v i) else vec_get v i.
  Proof.
    simpl. destruct (decide (lo <= hi)) as [Hle|Hgt].
    - pose (P := fun (k : nat) (t : list double) =>
        length t = length v /\
        forall i, i < length v ->
          vec_get t i = if decide (lo <= i < k) then G i (vec_get v i) else vec_get v i).
      match goal with |- context [for_loop lo hi ?b v] =>
        assert (P hi (for_loop lo hi b v)) as HP end; [|exact HP].
      apply for_loop_ind; [done | |].
      + split; [done|]. intros i Hi. rewrite decide_False; [done | lia].
      + intros k t Hk [Hlen Ht]. split; [by rewrite vec_set_length|].
        intros i Hi. destruct (decide (i = k)) as [->|Hne].
        * rewrite vec_get_set_eq by lia. rewrite decide_True by lia.
          rewrite Ht by done. rewrite decide_False; [done | lia].
        * rewrite vec_get_set_ne by done. rewrite Ht by done.
          repeat case_decide; try done; lia.
    - unfold for_loop. replace (hi - lo) with 0 by lia. simpl. split; [done|].
      intros i Hi. rewrite decide_False; [done | lia].
  Qed.

  (** [A(i, k) = F(i, k, A(i, k))] for every entry of a square matrix,
      column after column. *)
Lemma entrywise_loop (n : nat) (F : nat -> nat -> double -> double) (A : DenseMatrix) :
    shape n n A ->
    let A' := for_loop 0 n (fun k B =>
                for_loop 0 n (fun i B => set B i k (F i k (get B i k))) B) A in
    shape n n A' /\
    forall i k, i < n -> k < n -> get A' i k = F i k (get A i k).
  Proof.
    intros Hs A'. unfold A'.
    pose (P := fun (K I : nat) (B : DenseMatrix) =>
      shape n n B /\
      forall i k, i < n -> k < n ->
        get B i k = if decide (k < K \/ (k = K /\ i < I))
                    then F i k (get A i k) else get A i k).
    match goal with |- context [for_loop 0 n ?b A] =>
      assert (P n 0 (for_loop 0 n b A)) as [HsA HA] end.
    { apply (for_loop_ind (fun K B => P K 0 B)); [lia | |].
      - split; [done|]. intros i k Hi Hk. rewrite decide_False; [done | lia].
      - intros K B HK [HsB HB].
        assert (P K n (for_loop 0 n (fun i B => set B i K (F i K (get B i K))) B))
          as [HsC HC].
        { apply (for_loop_ind (fun I C => P K I C)); [lia | |].
          - split; [done|]. intros i k Hi Hk. rewrite HB by done.
            repeat case_decide; try done; exfalso; naive_solver lia.
          - intros I C HI [HsC HC]. split; [by apply shape_set|].
            intros i k Hi Hk. rewrite (get_set n n) by (done || lia).
            case_decide as Hd.
            + destruct Hd as [-> ->]. rewrite HC by lia.
              rewrite decide_False by lia. rewrite decide_True; [done | lia].
            + rewrite HC by done.
              repeat case_decide; try done; exfalso; naive_solver lia. }
        split; [done|]. intros i k Hi Hk. rewrite HC by done.
        repeat case_decide; try done; exfalso; naive_solver lia. }
    split; [done|]. intros i k Hi Hk. rewrite HA by done.
    rewrite decide_True; [done | lia].
  Qed.
End InPlaceLoops.

(** ** The regularized basis *)

Section BasisFacts.
  Context `{Double}.
  Import DenseMatrix Basis_Regularized.

  Variable orders : list nat.

Lemma BilinearFormNaturalToMy_spec (b : t) (A : DenseMatrix) (n : nat) :
    shape n n A ->
    let a := position_scales orders n (monomial_scales_ b) in
    shape n n (BilinearFormNaturalToMy orders b A) /\
    forall i k, i < n -> k < n ->
      get (BilinearFormNaturalToMy orders b A) i k
      = (get A i k * vec_get a k * vec_get a i)%D.
  Proof.
    intros Hs a. unfold BilinearFormNaturalToMy.
    destruct Hs as (Hr & Hc & Hl). rewrite Hr. fold a.
    apply (entrywise_loop n (fun i k x => (x * vec_get a k * vec_get a i)%D)).
    done.
  Qed.
End BasisFacts.

(** ** Matrices filled from their upper triangle *)

Section MirroredFill.
  Context `{Double}.
  Import DenseMatrix.

  (** [A(l, k) = A(k, l) = entry(k, l)] for [k <= l]: every entry ends up
      with the value computed for its smaller and its larger index. *)
Lemma mirrored_fill_spec (nrows : nat) (entry : nat -> nat -> double)
      (M0 : DenseMatrix) :
    shape nrows nrows M0 ->
    let M := for_loop 0 nrows (fun k A =>
               for_loop k nrows (fun l A =>
                 let v := entry k l in
                 let A := set A k l v in
                 set A l k v) A) M0 in
    shape nrows nrows M /\
    forall i j, i < nrows -> j < nrows -> get M i j = entry (i `min` j) (i `max` j).
  Proof.
    intros Hs M. unfold M.
    pose (P := fun (K L : nat) (A : DenseMatrix) =>
      shape nrows nrows A /\
      forall i j, i < nrows -> j < nrows ->
        (i `min` j < K \/ (i `min` j = K /\ i `max` j < L)) ->
        get A i j = entry (i `min` j) (i `max` j)).
    match goal with |- context [for_loop 0 nrows ?b M0] =>
      assert (P nrows 0 (for_loop 0 nrows b M0)) as [HsM HM] end.
    { apply (for_loop_ind (fun K A => P K 0 A)); [lia | |].
      - split; [done|]. intros i j Hi Hj [Hlt|[_ Hlt]]; lia.
      - intros k A Hk [HsA HA].
        assert (P k nrows (for_loop k nrows
                  (fun l M1 => let v := entry k l in
                               let M2 := set M1 k l v in set M2 l k v) A)) as [HsB HB].
        { apply (for_loop_ind (fun L B => P k L B)); [lia | |].
          - split; [done|]. intros i j Hi Hj [Hlt|[Heq Hlt]]; [apply HA; auto|lia].
          - intros l B Hl [HsB HB]. split; [by do 2 apply shape_set|].
            intros i j Hi Hj Hij. simpl.
            rewrite (get_set nrows nrows) by (try apply shape_set; done || lia).
            rewrite (get_set nrows nrows) by (done || lia).
            destruct (decide (i = l /\ j = k)) as [[-> ->]|Hn1]; [f_equal; lia|].
            destruct (decide (i = k /\ j = l)) as [[-> ->]|Hn2]; [f_equal; lia|].
            apply HB; [done..|].
            destruct Hij as [Hlt|[Heq Hlt]]; [by left|]. right. split; [done|].
            destruct (decide (i `max` j = l)) as [Hmax|Hmax]; [|lia].
            exfalso. destruct (Nat.min_spec i j) as [[? ?]|[? ?]];
              destruct (Nat.max_spec i j) as [[? ?]|[? ?]]; intuition lia. }
        split; [done|]. intros i j Hi Hj [Hlt|[_ Hlt]]; [|lia].
        apply HB; [done..|].
        destruct (decide (i `min` j < k)) as [?|?]; [by left|]. right.
        split; [lia|]. destruct (Nat.max_spec i j) as [[? ->]|[? ->]]; lia. }
    split; [done|]. intros i j Hi Hj. apply HM; [done..|]. left.
    destruct (Nat.min_spec i j) as [[? ->]|[? ->]]; lia.
  Qed.
End MirroredFill.

(** ** The DG stiffness matrix *)

Section StiffnessFacts.
  Context `{Double}.
  Import DenseMatrix DG_Modal.

  Variable d_ : nat.
  Variable monomials : list (list nat).
  Variable MonomialSetPosition : list nat -> nat.
  Variable integrals : nat -> nat -> double.
  Variable Ktmp : nat -> nat -> double.

  Local Abbreviation sentry :=
    (stiffness_entry d_ monomials MonomialSetPosition integrals Ktmp).

  (** A double loop whose body never changes the accumulator. *)
Lemma idle_double_loop (n : nat) (body : nat -> nat -> double -> double) (s : double) :
    (forall i j t, i < n -> j < n -> body i j t = t) ->
    for_loop 0 n (fun i t => for_loop 0 n (fun j t => body i j t) t) s = s.
  Proof.
    intros Hidle.
    apply (for_loop_ind (fun _ t => t = s)); [lia | done |].
    intros i t Hi ->.
    apply (for_loop_ind (fun _ t => t = s)); [lia | done |].
    intros j t Hj ->. apply Hidle; lia.
  Qed.

  (** A monomial with no variable in it has no gradient: its products with
      every other monomial contribute nothing. *)
Lemma stiffness_entry_constant_l (k l : nat) :
    (forall i, i < d_ -> id_at (multi_index_of monomials k) i = 0) ->
    sentry k l = d_zero.
  Proof.
    intros Hk. unfold stiffness_entry.
    destruct (add_multi_index d_ _ _) as [mi n].
    apply idle_double_loop. intros i j t Hi Hj. by rewrite Hk.
  Qed.

Lemma stiffness_entry_constant_r (k l : nat) :
    (forall i, i < d_ -> id_at (multi_index_of monomials l) i = 0) ->
    sentry k l = d_zero.
  Proof.
    intros Hl. unfold stiffness_entry.
    destruct (add_multi_index d_ _ _) as [mi n].
    apply idle_double_loop. intros i j t Hi Hj.
    rewrite (Hl j) by done. by rewrite andb_false_r.
  Qed.

Lemma stiffness_assemble_spec (M0 : DenseMatrix) :
    shape (length monomials) (length monomials) M0 ->
    let M := stiffness_assemble d_ monomials MonomialSetPosition integrals Ktmp M0 in
    shape (length monomials) (length monomials) M /\
    forall i j, i < length monomials -> j < length monomials ->
      get M i j = sentry (i `min` j) (i `max` j).
  Proof. intros Hs. by apply mirrored_fill_spec. Qed.
End StiffnessFacts.

(** ** Matrices written block by block *)

Section ConsistentWrites.
  Context `{Double}.
  Import DenseMatrix.

  Variables n size : nat.
  (* the value every write to [(i, j)] stores, and the places iteration
     [(k, l)] writes to *)
  Variable G : nat -> nat -> double.
  Variable W : nat -> nat -> list (nat * nat).
  Variable body : nat -> nat -> DenseMatrix -> DenseMatrix.

  Hypothesis body_spec : forall k l B, k < size -> l < size -> shape n n B ->
    shape n n (body k l B) /\
    forall i j, i < n -> j < n ->
      get (body k l B) i j = if decide ((i, j) ∈ W k l) then G i j else get B i j.

  (** A double loop whose writes to a place always store the same value:
      a place written at least once holds that value, the others what they
      held before. *)
Lemma consistent_writes (A : DenseMatrix) :
    shape n n A ->
    let A' := for_loop 0 size (fun k B => for_loop 0 size (fun l B => body k l B) B) A in
    shape n n A' /\
    forall i j, i < n -> j < n ->
      (forall k l, k < size -> l < size -> (i, j) ∈ W k l -> get A' i j = G i j) /\
      ((forall k l, k < size -> l < size -> (i, j) ∉ W k l) -> get A' i j = get A i j).
  Proof.
    intros Hs A'. unfold A'.
    pose (before := fun (K L k l : nat) => k < K \/ (k = K /\ l < L)).
    pose (P := fun (K L : nat) (B : DenseMatrix) =>
      shape n n B /\
      forall i j, i < n -> j < n ->
        (forall k l, before K L k l -> k < size -> l < size -> (i, j) ∈ W k l ->
           get B i j = G i j) /\
        ((forall k l, before K L k l -> k < size -> l < size -> (i, j) ∉ W k l) ->
           get B i j = get A i j)).
    match goal with |- context [for_loop 0 size ?b A] =>
      assert (P size 0 (for_loop 0 size b A)) as [HsA HA] end.
    { apply (for_loop_ind (fun K B => P K 0 B)); [lia | |].
      - split; [done|]. intros i j Hi Hj. split; [|done].
        intros k l [Hb|[_ Hb]]; lia.
      - intros K B HK [HsB HB].
        assert (P K size (for_loop 0 size (fun l B => body K l B) B)) as [HsC HC].
        { apply (for_loop_ind (fun L C => P K L C)); [lia | |].
          - split; [done|]. intros i j Hi Hj. destruct (HB i j Hi Hj) as [HB1 HB2].
            split.
            + intros k l [Hb|[_ Hb]]; [|lia]. apply HB1. by left.
            + intros Hno. apply HB2. intros k l [Hb|[_ Hb]]; [|lia].
              apply Hno. by left.
          - intros L C HL [HsC HC].
            destruct (body_spec K L C ltac:(lia) ltac:(lia) HsC) as [HsD HD].
            split; [done|]. intros i j Hi Hj. rewrite HD by done.
            destruct (HC i j Hi Hj) as [HC1 HC2].
            case_decide as Hin.
            + split; [done|]. intros Hno. exfalso.
              apply (Hno K L); [right; lia | lia | lia | done].
            + split.
              * intros k l Hb Hk Hl Hkl. apply (HC1 k l); [|done..].
                destruct Hb as [Hb|[-> Hb]]; [by left|]. right. split; [done|].
                destruct (decide (l = L)) as [->|Hne]; [done | lia].
              * intros Hno. apply HC2. intros k l Hb. apply Hno.
                destruct Hb as [Hb|[-> Hb]]; [by left | right; lia]. }
        split; [done|]. intros i j Hi Hj. destruct (HC i j Hi Hj) as [HC1 HC2].
        split.
        + intros k l Hb Hk Hl. apply HC1; [|done..].
          destruct Hb as [Hb|[_ Hb]]; [|lia].
          destruct (decide (k = K)) as [->|Hne]; [right; lia | left; lia].
        + intros Hno. apply HC2. intros k l Hb. apply Hno.
          destruct Hb as [Hb|[-> Hb]]; left; lia. }
    split; [done|]. intros i j Hi Hj. destruct (HA i j Hi Hj) as [HA1 HA2].
    split.
    - intros k l Hk Hl. apply HA1; [left; lia | done..].
    - intros Hno. apply HA2. intros k l _. apply Hno.
  Qed.
End ConsistentWrites.

(** ** The DG penalty matrix *)

Section PenaltyFacts.
  Context `{Double}.
  Import DenseMatrix DG_Modal.

  Variable size : nat.
  Variables coef00 coef01 coef11 : nat -> nat -> double.
  Variable Kf : double.

  (** The value each place of the interface matrix receives. *)
  Local Abbreviation block_value := (fun i j =>
    if decide (i < size) then
      if decide (j < size) then (Kf * coef00 i j)%D else (- Kf * coef01 i (j - size))%D
    else
      if decide (j < size) then (- Kf * coef01 j (i - size))%D
      else (Kf * coef11 (i - size) (j - size))%D).

Lemma elem_of_four (p a b c d : nat * nat) :
    p ∈ [a; b; c; d] <-> p = a \/ p = b \/ p = c \/ p = d.
  Proof. rewrite !elem_of_cons, elem_of_nil. tauto. Qed.

Lemma penalty_fill_interface (A : DenseMatrix) :
    shape (2 * size) (2 * size) A ->
    let A' := penalty_fill size 2 coef00 coef01 coef11 Kf A in
    shape (2 * size) (2 * size) A' /\
    forall i j, i < 2 * size -> j < 2 * size -> get A' i j = block_value i j.
  Proof.
    intros Hs A'. unfold A', penalty_fill.
    pose (W := fun k l : nat =>
      [(k, l); (k, size + l); (size + k, size + l); (size + l, k)]).
    destruct (consistent_writes (2 * size) size block_value W
                (fun k l A =>
                   let A := set A k l (Kf * coef00 k l)%D in
                   if Nat.ltb 1 2 then
                     let A := set A k (size + l) (- Kf * coef01 k l)%D in
                     let A := set A (size + k) (size + l) (Kf * coef11 k l)%D in
                     set A (size + l) k (- Kf * coef01 k l)%D
                   else A)) with (A := A) as [Hs' He]; [|done|].
    - intros k l B Hk Hl HsB. simpl.
      split; [by repeat apply shape_set|].
      intros i j Hi Hj.
      rewrite !(get_set (2 * size) (2 * size)) by (repeat apply shape_set; done || lia).
      unfold W. repeat case_decide;
        repeat match goal with
               | Hd : _ /\ _ |- _ => destruct Hd as [-> ->]
               | Hd : _ ∈ _ |- _ => apply elem_of_four in Hd
               | Hd : _ ∉ _ |- _ => rewrite elem_of_four in Hd
               end;
        try lia; try done;
        try (replace (size + l - size) with l by lia);
        try (replace (size + k - size) with k by lia);
        try done;
        try (exfalso; intuition congruence);
        try (exfalso; intuition (simplify_eq; lia)).
    - split; [done|]. intros i j Hi Hj. destruct (He i j Hi Hj) as [Hw _].
      destruct (decide (i < size)) as [Hil|Hil]; destruct (decide (j < size)) as [Hjl|Hjl].
      + apply (Hw i j); [done..|]. apply elem_of_four. by left.
      + apply (Hw i (j - size)); [lia..|]. apply elem_of_four. right. left.
        f_equal. lia.
      + apply (Hw j (i - size)); [lia..|]. apply elem_of_four. right. right. right.
        f_equal. lia.
      + apply (Hw (i - size) (j - size)); [lia..|]. apply elem_of_four.
        right. right. left. f_equal; lia.
  Qed.

Lemma penalty_fill_boundary (A : DenseMatrix) :
    shape size size A ->
    let A' := penalty_fill size 1 coef00 coef01 coef11 Kf A in
    shape size size A' /\
    forall k l, k < size -> l < size -> get A' k l = (Kf * coef00 k l)%D.
  Proof.
    intros Hs A'. unfold A', penalty_fill.
    pose (W := fun k l : nat => [(k, l)]).
    destruct (consistent_writes size size (fun k l => (Kf * coef00 k l)%D) W
                (fun k l A =>
                   let A := set A k l (Kf * coef00 k l)%D in
                   if Nat.ltb 1 1 then
                     let A := set A k (size + l) (- Kf * coef01 k l)%D in
                     let A := set A (size + k) (size + l) (Kf * coef11 k l)%D in
                     set A (size + l) k (- Kf * coef01 k l)%D
                   else A)) with (A := A) as [Hs' He]; [|done|].
    - intros k l B Hk Hl HsB. simpl. split; [by apply shape_set|].
      intros i j Hi Hj. rewrite (get_set size size) by done. unfold W.
      repeat case_decide;
        repeat match goal with
               | Hd : _ /\ _ |- _ => destruct Hd as [-> ->]
               | Hd : _ ∈ _ |- _ => apply list_elem_of_singleton in Hd
               | Hd : _ ∉ _ |- _ => rewrite list_elem_of_singleton in Hd
               end;
        try done.
      match goal with Hn : ~ (_ /\ _), He : _ = _ |- _ =>
        exfalso; apply Hn; by simplify_eq end.
    - split; [done|]. intros k l Hk Hl. destruct (He k l Hk Hl) as [Hw _].
      apply (Hw k l); [done..|]. by apply list_elem_of_singleton.
  Qed.
End PenaltyFacts.

(** ** Boundary conditions of the CELL system *)

Section ApplyBCsCellFacts.
  Context `{Double}.
  Import DenseMatrix OperatorDiffusionMFD.

  Variable mesh_ : Mesh.
  Variable bc_model : list BCModel.
  Variables bc_value bc_mixed : list double.

  Local Abbreviation step := (ApplyBCs_Cell_face mesh_ bc_model bc_value bc_mixed).
  Local Abbreviation new_matrix := (Cell_face_matrix mesh_ bc_model bc_mixed).
  Local Abbreviation saves := (Cell_face_saves_shadow bc_model).

  (** One face touches its own matrix and shadow copy only. *)
Lemma ApplyBCs_Cell_face_spec (f : nat) (op : Op) :
    matrices (step f op)
    = <[f := new_matrix f (default empty (matrices op !! f))]> (matrices op) /\
    matrices_shadow (step f op)
    = (if saves f then <[f := default empty (matrices op !! f)]> (matrices_shadow op)
       else matrices_shadow op) /\
    op_rhs_face (step f op) = op_rhs_face op /\
    length (op_rhs_cell (step f op)) = length (op_rhs_cell op).
  Proof.
    unfold ApplyBCs_Cell_face, Cell_face_matrix, Cell_face_saves_shadow.
    destruct (bc_model_at bc_model f); simpl; rewrite ?vec_set_length;
      split_and!; try done.
    - destruct (matrices op !! f) as [A|] eqn:HA; simpl.
      + symmetry. by apply list_insert_id.
      + symmetry. apply list_insert_ge. by apply lookup_ge_None.
    - destruct (matrices op !! f) as [A|] eqn:HA; simpl.
      + symmetry. by apply list_insert_id.
      + symmetry. apply list_insert_ge. by apply lookup_ge_None.
  Qed.

  (** The loop over the owned faces, as far as face [k]. *)
Lemma ApplyBCs_Cell_loop (op : Op) (k : nat) :
    let op' := for_loop 0 k step op in
    length (matrices op') = length (matrices op) /\
    length (matrices_shadow op') = length (matrices_shadow op) /\
    op_rhs_face op' = op_rhs_face op /\
    length (op_rhs_cell op') = length (op_rhs_cell op) /\
    (forall f, matrices op' !! f
               = if decide (f < k) then new_matrix f <$> matrices op !! f
                 else matrices op !! f) /\
    (forall f, f < length (matrices op) ->
               matrices_shadow op' !! f
               = if decide (f < k /\ saves f = true /\ f < length (matrices_shadow op))
                 then matrices op !! f else matrices_shadow op !! f).
  Proof.
    simpl.
    pose (P := fun (k : nat) (t : Op) =>
      length (matrices t) = length (matrices op) /\
      length (matrices_shadow t) = length (matrices_shadow op) /\
      op_rhs_face t = op_rhs_face op /\
      length (op_rhs_cell t) = length (op_rhs_cell op) /\
      (forall f, matrices t !! f
                 = if decide (f < k) then new_matrix f <$> matrices op !! f
                   else matrices op !! f) /\
      (forall f, f < length (matrices op) ->
                 matrices_shadow t !! f
                 = if decide (f < k /\ saves f = true /\ f < length (matrices_shadow op))
                   then matrices op !! f else matrices_shadow op !! f)).
    assert (P k (for_loop 0 k step op)) as HP; [|exact HP].
    apply for_loop_ind; [lia | |].
    - unfold P. split_and!; done.
    - intros i t _ (Hlm & Hls & Hrf & Hrc & Hm & Hs).
      destruct (ApplyBCs_Cell_face_spec i t) as (Hm' & Hs' & Hrf' & Hrc').
      unfold P. rewrite Hm', Hs', Hrf', Hrc'.
      assert (matrices t !! i = matrices op !! i) as Hti.
      { rewrite Hm. rewrite decide_False; [done | lia]. }
      split_and!.
      + by rewrite length_insert.
      + destruct (saves i); [by rewrite length_insert | done].
      + done.
      + done.
      + intros f. destruct (decide (f = i)) as [->|Hne].
        * rewrite decide_True by lia. rewrite Hti.
          destruct (matrices op !! i) as [A|] eqn:HA; simpl.
          -- rewrite list_lookup_insert_eq; [done|]. rewrite Hlm.
             by eapply lookup_lt_Some.
          -- apply lookup_ge_None_2. rewrite length_insert, Hlm.
             by apply lookup_ge_None.
        * rewrite list_lookup_insert_ne by done. rewrite Hm.
          repeat case_decide; try done; lia.
      + intros f Hf. destruct (saves i) eqn:Hsi.
        * destruct (decide (f = i)) as [->|Hne].
          -- destruct (decide (i < length (matrices_shadow op))) as [Hil|Hil].
             ++ rewrite list_lookup_insert_eq by lia. rewrite decide_True by (split_and!; lia || done).
                rewrite Hti. destruct (lookup_lt_is_Some_2 _ _ Hf) as [A HA].
                by rewrite HA.
             ++ rewrite decide_False by lia.
                rewrite !lookup_ge_None_2; [done | lia |]. rewrite length_insert. lia.
          -- rewrite list_lookup_insert_ne by done. rewrite Hs by done.
             repeat case_decide; try done; exfalso; naive_solver lia.
        * rewrite Hs by done.
          destruct (decide (f = i)) as [->|Hne].
          -- rewrite !decide_False; [done | |]; intros (_ & Hsv & _); congruence || lia.
          -- repeat case_decide; try done; exfalso; naive_solver lia.
  Qed.

  (** The right-hand side of a cell changes only through a face that has a
      boundary condition and this cell as its first cell. *)
Lemma ApplyBCs_Cell_loop_rhs (op : Op) (k c : nat) :
    (forall f, f < k -> bc_model_at bc_model f <> OPERATOR_BC_NONE ->
               id_at (face_get_cells mesh_ USED f) 0 <> c) ->
    op_rhs_cell (for_loop 0 k step op) !! c = op_rhs_cell op !! c.
  Proof.
    intros Hc.
    pose (P := fun (i : nat) (t : Op) => op_rhs_cell t !! c = op_rhs_cell op !! c).
    assert (P k (for_loop 0 k step op)) as HP; [|exact HP].
    apply for_loop_ind; [lia | done |].
    intros i t Hi Ht. unfold P, ApplyBCs_Cell_face.
    specialize (Hc i ltac:(lia)).
    destruct (bc_model_at bc_model i); simpl; try done;
      unfold vec_set; rewrite list_lookup_insert_ne; done || by apply Hc.
  Qed.
End ApplyBCsCellFacts.

(** ** Elimination of a row and a column in a square block *)

Lemma NoDup_0_1 : NoDup [0; 1].
Proof.
  apply NoDup_cons; split; [|apply NoDup_singleton].
  apply not_elem_of_cons; split; [lia | apply not_elem_of_nil].
Qed.

Lemma lt_of_elem_0_1 (g n : nat) : 2 <= n -> g ∈ [0; 1] -> g < n.
Proof.
  intros Hn Hg.
  repeat (apply elem_of_cons in Hg as [->|Hg]; [lia|]). by apply elem_of_nil in Hg.
Qed.

Section EliminationFacts.
  Context `{Double}.
  Import DenseMatrix OperatorDiffusionMFD.

  (** The elimination loop on a matrix of [N] rows and columns whose first
      [length ids] rows belong to the entities [ids]. *)
Lemma eliminate_block_spec (ids : list nat) (N n : nat) (value : double) (w : Work) :
    let k := length ids in
    let w' := eliminate_face_block ids k n value w in
    shape N N (Acell w) ->
    k <= N -> n < N ->
    NoDup ids ->
    (forall g, g ∈ ids -> g < length (rhs_face w)) ->
    shape N N (Acell w') /\
    shadow w' = shadow w /\ flag w' = flag w /\ rhs_cell w' = rhs_cell w /\
    length (rhs_face w') = length (rhs_face w) /\
    (forall i j, i < N -> j < N ->
       get (Acell w') i j =
         if decide ((j = n /\ i < k) \/ (i = n /\ j < k))
         then d_zero else get (Acell w) i j) /\
    (forall m g, ids !! m = Some g ->
       vec_get (rhs_face w') g = (vec_get (rhs_face w) g - get (Acell w) m n * value)%D) /\
    (forall g, g ∉ ids -> rhs_face w' !! g = rhs_face w !! g).
  Proof.
    intros k w' Hs HkN Hn Hnd Hrange. unfold w', eliminate_face_block.
    pose (P := fun (q : nat) (t : Work) =>
      shape N N (Acell t) /\
      shadow t = shadow w /\ flag t = flag w /\ rhs_cell t = rhs_cell w /\
      length (rhs_face t) = length (rhs_face w) /\
      (forall i j, i < N -> j < N ->
         get (Acell t) i j =
           if decide ((j = n /\ i < q) \/ (i = n /\ j < q))
           then d_zero else get (Acell w) i j) /\
      (forall m g, ids !! m = Some g ->
         vec_get (rhs_face t) g =
           if decide (m < q) then (vec_get (rhs_face w) g - get (Acell w) m n * value)%D
           else vec_get (rhs_face w) g) /\
      (forall g, g ∉ ids -> rhs_face t !! g = rhs_face w !! g)).
    match goal with |- context [for_loop 0 k ?b w] =>
      assert (P k (for_loop 0 k b w)) as HP end.
    { apply for_loop_ind; [lia | |].
      - unfold P. split_and!; try done.
        all: intros; rewrite decide_False by lia; done.
      - intros q t Hq (Hst & Hsh & Hfl & Hrc & Hlen & HA & Hrf & Hout).
        destruct (lookup_lt_is_Some_2 ids q ltac:(fold k; lia)) as [gq Hgq].
        rewrite (id_at_lookup _ _ _ Hgq).
        assert (gq < length (rhs_face t)) as Hgq_lt.
        { rewrite Hlen. apply Hrange. by eapply list_elem_of_lookup_2. }
        unfold P; simpl. split_and!; try done.
        + by do 2 apply shape_set.
        + by rewrite vec_set_length.
        + intros i j Hi Hj.
          rewrite (get_set N N) by (try apply shape_set; done || lia).
          rewrite (get_set N N) by (done || lia).
          rewrite HA by done.
          repeat case_decide; try done; exfalso; intuition lia.
        + intros m g Hm.
          destruct (decide (m = q)) as [->|Hne].
          * assert (g = gq) as -> by congruence.
            rewrite vec_get_set_eq by done. rewrite decide_True by lia.
            rewrite (Hrf q gq Hgq). rewrite decide_False by lia.
            rewrite HA by lia. rewrite decide_False; [done | lia].
          * assert (gq <> g) as Hg.
            { intros ->. apply Hne. by eapply NoDup_lookup. }
            rewrite vec_get_set_ne by done. rewrite (Hrf m g Hm).
            repeat case_decide; try done; lia.
        + intros g Hg. unfold vec_set. rewrite list_lookup_insert_ne; [by apply Hout|].
          intros ->. apply Hg. by eapply list_elem_of_lookup_2. }
    destruct HP as (Hst & Hsh & Hfl & Hrc & Hlen & HA & Hrf & Hout).
    split_and!; try done.
    intros m g Hm. rewrite (Hrf m g Hm). rewrite decide_True; [done|].
    apply lookup_lt_Some in Hm. done.
  Qed.
End EliminationFacts.

(** ** ModifyMatrices *)

Section ModifyMatricesFacts.
  Context `{Double}.
  Import DenseMatrix OperatorDiffusionMFD.

  (** The loop over the faces of one cell. *)
Lemma ModifyMatrices_faces_spec (faces : list nat) (uc : double)
      (A : DenseMatrix) (rhs : list double) :
    let nfaces := length faces in
    let s' := ModifyMatrices_faces nfaces faces uc (A, rhs) in
    shape (nfaces + 1) (nfaces + 1) A ->
    NoDup faces ->
    (forall g, g ∈ faces -> g < length rhs) ->
    shape (nfaces + 1) (nfaces + 1) s'.1 /\
    length s'.2 = length rhs /\
    (forall i j, i <= nfaces -> j <= nfaces ->
       get s'.1 i j =
         if decide ((i < nfaces /\ j = nfaces) \/ (i = nfaces /\ j < nfaces))
         then d_zero else get A i j) /\
    (forall n f, faces !! n = Some f ->
       vec_get s'.2 f = (vec_get rhs f - get A n nfaces * uc)%D) /\
    (forall g, g ∉ faces -> s'.2 !! g = rhs !! g).
  Proof.
    intros nfaces s' Hs Hnd Hrange. unfold s', ModifyMatrices_faces.
    pose (P := fun (q : nat) (t : DenseMatrix * list double) =>
      shape (nfaces + 1) (nfaces + 1) t.1 /\
      length t.2 = length rhs /\
      (forall i j, i <= nfaces -> j <= nfaces ->
         get t.1 i j =
           if decide ((i < q /\ j = nfaces) \/ (i = nfaces /\ j < q))
           then d_zero else get A i j) /\
      (forall n f, faces !! n = Some f ->
         vec_get t.2 f =
           if decide (n < q) then (vec_get rhs f - get A n nfaces * uc)%D
           else vec_get rhs f) /\
      (forall g, g ∉ faces -> t.2 !! g = rhs !! g)).
    match goal with |- context [for_loop 0 nfaces ?b (A, rhs)] =>
      assert (P nfaces (for_loop 0 nfaces b (A, rhs))) as HP end.
    { apply for_loop_ind; [lia | |].
      - unfold P; simpl. split_and!; try done.
        all: intros; rewrite decide_False by lia; done.
      - intros q [At rt] Hq (Hst & Hlen & HA & Hrf & Hout). simpl in Hst, Hlen, HA, Hrf, Hout.
        destruct (lookup_lt_is_Some_2 faces q ltac:(fold nfaces; lia)) as [fq Hfq].
        rewrite (id_at_lookup _ _ _ Hfq).
        assert (fq < length rt) as Hfq_lt.
        { rewrite Hlen. apply Hrange. by eapply list_elem_of_lookup_2. }
        unfold P; simpl. split_and!.
        + by do 2 apply shape_set.
        + by rewrite vec_set_length.
        + intros i j Hi Hj.
          rewrite (get_set (nfaces + 1) (nfaces + 1)) by (try apply shape_set; done || lia).
          rewrite (get_set (nfaces + 1) (nfaces + 1)) by (done || lia).
          rewrite HA by done.
          repeat case_decide; try done; exfalso; intuition lia.
        + intros n f Hn.
          destruct (decide (n = q)) as [->|Hne].
          * assert (f = fq) as -> by congruence.
            rewrite vec_get_set_eq by done. rewrite decide_True by lia.
            rewrite (Hrf q fq Hfq). rewrite decide_False by lia.
            rewrite HA by lia. rewrite decide_False; [done | lia].
          * assert (fq <> f) as Hg.
            { intros ->. apply Hne. by eapply NoDup_lookup. }
            rewrite vec_get_set_ne by done. rewrite (Hrf n f Hn).
            repeat case_decide; try done; lia.
        + intros g Hg. unfold vec_set. rewrite list_lookup_insert_ne; [by apply Hout|].
          intros ->. apply Hg. by eapply list_elem_of_lookup_2. }
    destruct HP as (Hst & Hlen & HA & Hrf & Hout).
    split_and!; try done.
    intros n f Hn. rewrite (Hrf n f Hn). rewrite decide_True; [done|].
    by apply lookup_lt_Some in Hn.
  Qed.
End ModifyMatricesFacts.

Section ExactResidual.
  Context `{Double}.
  Hypothesis Dring : ring_theory d_zero d_one d_add d_mul d_sub d_opp (@eq double).
  Add Ring double_ring_residual : Dring.

  (** Moving the term [a * u] to the right-hand side keeps the residual. *)
Lemma residual_moved (S a u x r : double) :
    (S + d_zero * x - (r - a * u) = S + a * u - r)%D.
  Proof. ring. Qed.

  (** Adding [t] to a diagonal entry and [t * p] to the right-hand side
      keeps the residual at [p]. *)
Lemma residual_shifted (a f t p : double) :
    ((a + t) * p - (f + t * p) = a * p - f)%D.
  Proof. ring. Qed.
End ExactResidual.

(** ** Calls of Advance *)

Section AdvanceFacts.
  Context `{Double} {Env : Type}.
  Import Richards_PK.
  Variable ext : Collaborators Env.




  (** [wrap_int] stays among the [int] values, and counts like [Z] up to a
      multiple of [2^32]. *)
Lemma wrap_int_is_int (z : Z) : is_int (wrap_int z).
  Proof.
    unfold is_int, wrap_int.
    pose proof (Z.mod_pos_bound (z + 2147483648) 4294967296 ltac:(lia)). lia.
  Qed.

Lemma wrap_int_small (z : Z) : is_int z -> wrap_int z = z.
  Proof.
    unfold is_int, wrap_int. intros Hz. rewrite Z.mod_small by lia. lia.
  Qed.

Lemma wrap_int_succ (n : Z) :
    is_int n ->
    wrap_int (n + 1) = (if Z.eqb n 2147483647 then -2147483648 else n + 1)%Z.
  Proof.
    intros Hn. destruct (Z.eqb_spec n 2147483647) as [->|Hne]; [reflexivity|].
    apply wrap_int_small. unfold is_int in *. lia.
  Qed.

Lemma wrap_int_add (a b : Z) : wrap_int (wrap_int a + b) = wrap_int (a + b).
  Proof.
    unfold wrap_int. f_equal.
    replace ((a + 2147483648) mod 4294967296 - 2147483648 + b + 2147483648)%Z
      with ((a + 2147483648) mod 4294967296 + b)%Z by lia.
    rewrite Zplus_mod_idemp_l. f_equal. lia.
  Qed.

  (** One more call brings the counter one call nearer to 0. *)
Lemma calls_until_zero_succ (n : Z) :
    is_int n -> n <> 0%Z ->
    (wrap_int (n + 1) = 0%Z /\ calls_until_zero n = 1%Z) \/
    (wrap_int (n + 1) <> 0%Z /\
     calls_until_zero (wrap_int (n + 1)) = (calls_until_zero n - 1)%Z).
  Proof.
    intros Hn Hne. rewrite wrap_int_succ by done. unfold calls_until_zero, is_int in *.
    destruct (Z.eqb_spec n 2147483647) as [->|Hmax]; [right; by vm_compute|].
    destruct (Z.ltb_spec n 0), (Z.ltb_spec (n + 1) 0); lia.
  Qed.

Lemma bind_returned {A B : Type} (m : Run Env A) (k : A -> Run Env B)
      (s : PK Env) (a : A) (s1 : PK Env) :
    m s = Returned a s1 -> bind m k s = k a s1.
  Proof. intros Hm. unfold bind. by rewrite Hm. Qed.

Lemma bind_threw {A B : Type} (m : Run Env A) (k : A -> Run Env B) (s : PK Env) :
    m s = Exception -> bind m k s = Exception.
  Proof. intros Hm. unfold bind. by rewrite Hm. Qed.


  (** Lines 556-574 case by case. *)
Lemma Advance_init_throws (time : double) (s : PK Env) :
    ComputeUDot ext time s = None -> Advance_init ext time s = Exception.
  Proof.
    intros HU. unfold Advance_init. apply bind_threw. unfold call_for. by rewrite HU.
  Qed.


Lemma Advance_init_plain (time : double) (s : PK Env) (udot : list double) (s1 : PK Env) :
    ComputeUDot ext time s = Some (udot, s1) ->
    (ti_method (control s1) = FLOW_TIME_INTEGRATION_PICARD /\
     flow_status_ (control s1) <> FLOW_STATUS_STEADY_STATE_INIT) \/
    ti_method (control s1) = FLOW_TIME_INTEGRATION_OTHER ->
    Advance_init ext time s = call (update_precon ext time) s1.
  Proof.
    intros HU Hti. unfold Advance_init.
    rewrite (bind_returned _ _ s udot s1) by (unfold call_for; by rewrite HU).
    rewrite (bind_returned _ _ s1 (ti_method (control s1)) s1) by done.
    rewrite (bind_returned _ _ s1 tt s1); [done|].
    destruct Hti as [[-> Hst]| ->]; [|done].
    rewrite (bind_returned _ _ s1 (flow_status_ (control s1)) s1) by done.
    by destruct (flow_status_ (control s1)).
  Qed.

Lemma Advance_init_steady (time : double) (s : PK Env) (udot : list double)
      (s1 s2 : PK Env) :
    ComputeUDot ext time s = Some (udot, s1) ->
    ti_method (control s1) = FLOW_TIME_INTEGRATION_PICARD ->
    flow_status_ (control s1) = FLOW_STATUS_STEADY_STATE_INIT ->
    AdvanceToSteadyState ext s1 = Some s2 ->
    Advance_init ext time s
    = call (update_precon ext time) (on_control (set_block_picard 1) s2).
  Proof.
    intros HU Hti Hst HA. unfold Advance_init.
    rewrite (bind_returned _ _ s udot s1) by (unfold call_for; by rewrite HU).
    rewrite (bind_returned _ _ s1 (ti_method (control s1)) s1) by done.
    rewrite (bind_returned _ _ s1 tt (on_control (set_block_picard 1) s2)); [done|].
    rewrite Hti.
    rewrite (bind_returned _ _ s1 (flow_status_ (control s1)) s1) by done.
    rewrite Hst.
    rewrite (bind_returned _ _ s1 tt s2) by (unfold call; by rewrite HA).
    done.
  Qed.


Lemma Advance_count_spec (s : PK Env) : Advance_count s = Returned 0%Z (counted s).
  Proof. destruct s as [[status ti itrs block b1 b2] nu]. reflexivity. Qed.

  (** [Advance] after its first three lines. *)
Lemma Advance_entered (dT_MPC : double) (s : PK Env) :
    let s0 := entered ext dT_MPC s in
    let time := T_physics (numeric s0) in
    Advance ext dT_MPC s
    = bind (if Z.eqb (num_itrs (control s0)) 0 then Advance_init ext time else ret tt)
        (fun _ => bind (Advance_step ext time) (fun _ => Advance_count)) s0.
  Proof.
    destruct s as [[status ti itrs block b1 b2] [sol dt dtn tp en]].
    unfold Advance, entered, bind, put, get, on_numeric. simpl.
    destruct (d_leb d_zero _); reflexivity.
  Qed.

Lemma control_entered (dT_MPC : double) (s : PK Env) :
    control (entered ext dT_MPC s) = control s.
  Proof.
    unfold entered, on_numeric. simpl. by destruct (d_leb d_zero _).
  Qed.

Lemma Advance_step_blocked (time : double) (s : PK Env) :
    ti_method (control s) = FLOW_TIME_INTEGRATION_PICARD ->
    block_picard (control s) <> 0%Z ->
    Advance_step ext time s = Returned tt (handed_on s).
  Proof.
    intros Hti Hb. unfold Advance_step, bind, get. rewrite Hti.
    destruct (Z.eqb_spec (block_picard (control s)) 0); [done|]. reflexivity.
  Qed.


Lemma passed_through_counted (dT_MPC : double) (s : PK Env) :
    counted (handed_on (entered ext dT_MPC s)) = passed_through ext dT_MPC s.
  Proof.
    destruct s as [[status ti itrs block b1 b2] [sol dt dtn tp en]].
    unfold counted, handed_on, entered, passed_through, on_numeric. simpl.
    by destruct (d_leb d_zero _).
  Qed.

  (** The blocked Picard phase with a counter that is not 0: one call. *)
Lemma Advance_passes_through (dT_MPC : double) (s : PK Env) :
    ti_method (control s) = FLOW_TIME_INTEGRATION_PICARD ->
    block_picard (control s) <> 0%Z ->
    num_itrs (control s) <> 0%Z ->
    Advance ext dT_MPC s = Returned 0%Z (passed_through ext dT_MPC s).
  Proof.
    intros Hti Hb Hn. rewrite Advance_entered. cbv zeta.
    rewrite control_entered.
    destruct (Z.eqb_spec (num_itrs (control s)) 0); [done|].
    unfold bind at 1. unfold ret. unfold bind.
    rewrite Advance_step_blocked by (by rewrite control_entered).
    rewrite Advance_count_spec. by rewrite passed_through_counted.
  Qed.

  (** A run of calls in the blocked Picard phase that ends before the
      counter has come back to 0, or as it does. *)
Lemma Advance_all_passes_through (dTs : list double) (s : PK Env) :
    ti_method (control s) = FLOW_TIME_INTEGRATION_PICARD ->
    block_picard (control s) <> 0%Z ->
    is_int (num_itrs (control s)) ->
    (dTs <> [] -> num_itrs (control s) <> 0%Z) ->
    (Z.of_nat (length dTs) <= calls_until_zero (num_itrs (control s)))%Z ->
    exists s',
      Advance_all ext dTs s = Returned tt s' /\
      s' = fold_left (fun s dT_MPC => passed_through ext dT_MPC s) dTs s /\
      solution (numeric s') = solution (numeric s) /\
      env (numeric s') = env (numeric s) /\
      ti_method (control s') = FLOW_TIME_INTEGRATION_PICARD /\
      block_picard (control s') = block_picard (control s) /\
      num_itrs (control s') = wrap_int (num_itrs (control s) + Z.of_nat (length dTs)) /\
      (forall dT_MPC, last dTs = Some dT_MPC ->
         dT (numeric s') = dT_MPC /\ dTnext (numeric s') = dT_MPC).
  Proof.
    revert s. induction dTs as [|d dTs IH]; intros s Hti Hb Hint Hne Hlen.
    - exists s. simpl. split_and!; try done.
      rewrite Z.add_0_r. by rewrite wrap_int_small.
    - assert (num_itrs (control s) <> 0%Z) as Hn by (by apply Hne).
      pose proof (Advance_passes_through d s Hti Hb Hn) as Hrun.
      set (s1 := passed_through ext d s) in *.
      assert (num_itrs (control s1) = wrap_int (num_itrs (control s) + 1)) as Hn1 by done.
      destruct (IH s1) as (s' & Hall & Hfold & Hsol & Henv & Hti' & Hb' & Hn' & Hlast).
      + done.
      + done.
      + rewrite Hn1. apply wrap_int_is_int.
      + intros Hnil. rewrite Hn1.
        destruct (calls_until_zero_succ _ Hint Hn) as [[_ Hone]|[Hnz _]]; [|done].
        destruct dTs; [done|]. simpl in Hlen. lia.
      + rewrite Hn1.
        destruct (calls_until_zero_succ _ Hint Hn) as [[Hz Hone]|[_ Heq]].
        * rewrite Hz. simpl in Hlen. rewrite Hone in Hlen.
          destruct dTs; [by vm_compute|]. simpl in Hlen. lia.
        * rewrite Heq. simpl in Hlen. lia.
      + exists s'. simpl. unfold bind. rewrite Hrun. fold s1.
        split_and!; try done.
        * rewrite Hn', Hn1. rewrite wrap_int_add. f_equal. lia.
        * intros d' Hd'. destruct dTs as [|d2 dTs].
          -- simpl in Hd'. injection Hd' as <-. simpl in Hall. unfold ret in Hall.
             injection Hall as <-. done.
          -- apply Hlast. by rewrite last_cons_cons in Hd'.
  Qed.




End AdvanceFacts.

(** ** Time derivative *)

Section TimeDerivativeFacts.
  Context `{Double}.
  Import Richards_PK.

  (** Two vectors updated side by side. *)
Lemma paired_update_loop (n : nat) (G1 G2 : nat -> double -> double)
      (v1 v2 : list double) :
    let r := for_loop 0 n (fun c '(a, b) =>
               (vec_set a c (G1 c (vec_get a c)), vec_set b c (G2 c (vec_get b c))))
               (v1, v2) in
    r = (for_loop 0 n (fun c a => vec_set a c (G1 c (vec_get a c))) v1,
         for_loop 0 n (fun c b => vec_set b c (G2 c (vec_get b c))) v2).
  Proof.
    simpl. induction n as [|n IH]; [done|].
    rewrite !for_loop_S by lia. rewrite IH. done.
  Qed.
End TimeDerivativeFacts.

(** ** Scaling the matrix of an interface *)

Section InterfaceScaling.
  Context `{Double}.
  Import DenseMatrix Basis_Regularized.

  Variable m : nat.
  Variables a1 a2 : list double.

  Local Abbreviation interface_scaled := (interface_scaled m a1 a2).
  Local Abbreviation half := (fun x : nat => if decide (x < m) then x else x - m).

Local Ltac settle :=
    repeat match goal with
    | |- context [decide ?P] =>
        first [ rewrite (decide_True (P := P)) by lia
              | rewrite (decide_False (P := P)) by lia ]
    end.

Lemma interface_scaling_spec (A : DenseMatrix) :
    shape (2 * m) (2 * m) A ->
    let A' :=
      for_loop 0 m (fun k A =>
        for_loop 0 m (fun i A =>
          let A := set A i k (get A i k * vec_get a1 k * vec_get a1 i)%D in
          let A := set A i (k + m) (get A i (k + m) * vec_get a1 i * vec_get a2 k)%D in
          let A := set A (i + m) k (get A (i + m) k * vec_get a2 i * vec_get a1 k)%D in
          set A (i + m) (k + m) (get A (i + m) (k + m) * vec_get a2 i * vec_get a2 k)%D)
          A) A in
    shape (2 * m) (2 * m) A' /\
    forall r c, r < 2 * m -> c < 2 * m -> get A' r c = interface_scaled r c (get A r c).
  Proof.
    intros Hs A'. unfold A'.
    pose (P := fun (K I : nat) (B : DenseMatrix) =>
      shape (2 * m) (2 * m) B /\
      forall r c, r < 2 * m -> c < 2 * m ->
        get B r c = if decide (half c < K \/ (half c = K /\ half r < I))
                    then interface_scaled r c (get A r c) else get A r c).
    match goal with |- context [for_loop 0 m ?b A] =>
      assert (P m 0 (for_loop 0 m b A)) as [HsA HA] end.
    { apply (for_loop_ind (fun K B => P K 0 B)); [lia | |].
      - split; [done|]. intros r c Hr Hc. rewrite decide_False; [done | lia].
      - intros K B HK [HsB HB].
        match goal with |- P _ _ (for_loop 0 m ?b B) =>
          assert (P K m (for_loop 0 m b B)) as [HsC HC] end.
        { apply (for_loop_ind (fun I C => P K I C)); [lia | |].
          - split; [done|]. intros r c Hr Hc. rewrite HB by done.
            repeat case_decide; try done; exfalso; lia.
          - intros I C HI [HsC HC]. split; [by repeat apply shape_set|].
            intros r c Hr Hc. cbv zeta.
            rewrite !(get_set (2 * m) (2 * m)) by (repeat apply shape_set; done || lia).
            rewrite !HC by lia.
            unfold Basis_Regularized.interface_scaled, side_scale.
            destruct (decide (r < m)) as [Hrm|Hrm]; destruct (decide (c < m)) as [Hcm|Hcm];
              settle;
              repeat (case_decide; settle);
              repeat match goal with
              | Hd : _ /\ _ |- _ => destruct Hd
              end; subst; settle;
              rewrite ?Nat.add_sub; try done; exfalso; lia. }
        split; [done|]. intros r c Hr Hc. rewrite HC by done.
        repeat case_decide; try done; exfalso; lia. }
    split; [done|]. intros r c Hr Hc. rewrite HA by done.
    rewrite decide_True; [done|]. case_decide; lia.
  Qed.
End InterfaceScaling.

(** ** Symmetry through the change of basis *)

Section SymmetryKept.
  Context `{Double}.
  Import DenseMatrix Basis_Regularized.

  Variable orders : list nat.
  Hypothesis Hmul : forall x y z : double, (x * y * z = x * z * y)%D.

Lemma BilinearFormNaturalToMy_interface_spec (bll brr : t) (A : DenseMatrix) (m : nat) :
    shape (2 * m) (2 * m) A ->
    let a1 := position_scales orders m (monomial_scales_ bll) in
    let a2 := position_scales orders m (monomial_scales_ brr) in
    let A' := BilinearFormNaturalToMy_interface orders bll brr A in
    shape (2 * m) (2 * m) A' /\
    forall r c, r < 2 * m -> c < 2 * m ->
      get A' r c = interface_scaled m a1 a2 r c (get A r c).
  Proof.
    intros Hs a1 a2 A'. unfold A', BilinearFormNaturalToMy_interface.
    destruct Hs as (Hr & Hc & Hl). rewrite Hr.
    replace (2 * m / 2) with m by (by rewrite Nat.mul_comm, Nat.div_mul).
    by apply (interface_scaling_spec m a1 a2).
  Qed.

Lemma BilinearFormNaturalToMy_interface_keeps_symmetry (bll brr : t) (A : DenseMatrix)
      (m : nat) :
    shape (2 * m) (2 * m) A -> is_symmetric A ->
    is_symmetric (BilinearFormNaturalToMy_interface orders bll brr A).
  Proof.
    intros HsA HA k l Hk Hl.
    destruct (BilinearFormNaturalToMy_interface_spec bll brr A m HsA) as [(Hr' & _) He].
    rewrite Hr' in Hk, Hl. rewrite !He by done.
    destruct HsA as (Hr & _). rewrite (HA k l) by (by rewrite Hr).
    unfold interface_scaled. repeat case_decide; try done; try apply Hmul; exfalso; lia.
  Qed.
End SymmetryKept.

(** ** What a failing cell leaves behind *)

Section FailureFacts.
  Context `{Double}.
  Import DenseMatrix OperatorDiffusionMFD.

  Variable mesh_ : Mesh.
  Variable junk : nat -> double.
  Variables OK FAILED : Z.
  Variable Tensor : Type.
  Variable Tensor_unit : Tensor.
  Variable K_ : option (list Tensor).
  Variable mfd : MFD3D_Diffusion.Routine -> nat -> Tensor -> DenseMatrix -> Z * DenseMatrix.
  Variables mfd_primary_ mfd_secondary_ : DiffusionMethod.
  Variable surface_mesh : bool.
  Variable scalar_rho_mu_ : bool.
  Variables rho_ mu_ : double.
  Variables rho_cv_ mu_cv_ : list double.

  Local Abbreviation attempt_of :=
    (mass_matrix_of_cell mesh_ junk OK FAILED Tensor Tensor_unit K_ mfd
       mfd_primary_ mfd_secondary_ surface_mesh).
  Local Abbreviation mass_step :=
    (CreateMassMatrices_cell mesh_ junk OK FAILED Tensor Tensor_unit K_ mfd
       mfd_primary_ mfd_secondary_ surface_mesh scalar_rho_mu_ rho_ mu_ rho_cv_ mu_cv_).
  Local Abbreviation stored := (fun c =>
    scale (Wff (attempt_of c))
      (if scalar_rho_mu_ then (rho_ / mu_)%D
       else (vec_get rho_cv_ c / vec_get mu_cv_ c)%D)).
  Local Abbreviation mass_message :=
    ("OperatorDiffusion: unexpected failure in WhetStone."%string).

  (** The loop of [CreateMassMatrices_] as far as cell [k], when [c0] is the
      first cell that fails. *)
Lemma CreateMassMatrices_loop_failure (W0 : list DenseMatrix) (c0 k : nat) :
    c0 < length W0 ->
    ok (attempt_of c0) = FAILED ->
    (forall c, c < c0 -> ok (attempt_of c) <> FAILED) ->
    let r := for_loop 0 k mass_step (W0, None) in
    length r.1 = length W0 /\
    r.2 = (if decide (k <= c0) then None else Some mass_message) /\
    (forall c, c < length W0 ->
       r.1 !! c = if decide (c < k /\ c <= c0) then Some (stored c) else W0 !! c).
  Proof.
    intros Hc0 Hfail Hfirst. simpl.
    pose (P := fun (q : nat) (r : list DenseMatrix * Thrown) =>
      length r.1 = length W0 /\
      r.2 = (if decide (q <= c0) then None else Some mass_message) /\
      (forall c, c < length W0 ->
         r.1 !! c = if decide (c < q /\ c <= c0) then Some (stored c) else W0 !! c)).
    assert (P k (for_loop 0 k mass_step (W0, None))) as HP; [|exact HP].
    apply for_loop_ind; [lia | |]; unfold P.
    - simpl. split_and!; done.
    - intros i [W thrown] _ (Hlen & Hthr & HW). simpl in Hlen, Hthr, HW.
      unfold CreateMassMatrices_cell.
      destruct (decide (i <= c0)) as [Hle|Hgt].
      + subst thrown. simpl.
        destruct (Z.eqb_spec (ok (attempt_of i)) FAILED) as [Heq|Hne]; simpl.
        * assert (i = c0) as ->.
          { destruct (decide (i = c0)) as [|Hn]; [done|].
            exfalso. apply (Hfirst i); [lia | done]. }
          split_and!.
          -- by rewrite length_insert.
          -- by rewrite decide_False by lia.
          -- intros c Hc. destruct (decide (c = c0)) as [->|Hn].
             ++ rewrite list_lookup_insert_eq by lia. by rewrite decide_True by lia.
             ++ rewrite list_lookup_insert_ne by done. rewrite HW by done.
                repeat case_decide; try done; exfalso; lia.
        * assert (i <> c0) as Hic by congruence.
          split_and!.
          -- by rewrite length_insert.
          -- by rewrite decide_True by lia.
          -- intros c Hc. destruct (decide (c = i)) as [->|Hn].
             ++ rewrite list_lookup_insert_eq by lia. by rewrite decide_True by lia.
             ++ rewrite list_lookup_insert_ne by done. rewrite HW by done.
                repeat case_decide; try done; exfalso; lia.
      + subst thrown. simpl. split_and!; try done.
        * by rewrite decide_False by lia.
        * intros c Hc. rewrite HW by done.
          repeat case_decide; try done; exfalso; lia.
  Qed.

  Variable Tensor_unit_2d : Tensor.

  Local Abbreviation stiffness_of :=
    (stiffness_of_cell mesh_ junk OK FAILED Tensor K_ mfd mfd_primary_ Tensor_unit_2d).
  Local Abbreviation nodal_step :=
    (UpdateMatricesNodal_cell mesh_ junk OK FAILED Tensor K_ mfd mfd_primary_
       Tensor_unit_2d).
  Local Abbreviation nodal_message :=
    ("Stiffness_MFD: unexpected failure of LAPACK in WhetStone."%string).

  (** The loop of [UpdateMatricesNodal_] as far as cell [k], when [c0] is
      the first cell that fails. *)
Lemma UpdateMatricesNodal_loop_failure (matrices : list DenseMatrix) (c0 k : nat) :
    ok (stiffness_of c0) = FAILED ->
    (forall c, c < c0 -> ok (stiffness_of c) <> FAILED) ->
    let r := for_loop 0 k nodal_step (mkNodal matrices 0%Z None) in
    length (nodal_matrices r) = length matrices /\
    nodal_thrown r = (if decide (k <= c0) then None else Some nodal_message) /\
    (forall c, c < length matrices ->
       nodal_matrices r !! c
       = if decide (c < k /\ c < c0) then Some (Wff (stiffness_of c)) else matrices !! c).
  Proof.
    intros Hfail Hfirst. simpl.
    pose (P := fun (q : nat) (r : NodalState) =>
      length (nodal_matrices r) = length matrices /\
      nodal_thrown r = (if decide (q <= c0) then None else Some nodal_message) /\
      (forall c, c < length matrices ->
         nodal_matrices r !! c
         = if decide (c < q /\ c < c0) then Some (Wff (stiffness_of c))
           else matrices !! c)).
    assert (P k (for_loop 0 k nodal_step (mkNodal matrices 0%Z None))) as HP; [|exact HP].
    apply for_loop_ind; [lia | |]; unfold P.
    - simpl. split_and!; done.
    - intros i [ms nf thrown] _ (Hlen & Hthr & HW). simpl in Hlen, Hthr, HW.
      unfold UpdateMatricesNodal_cell. simpl.
      destruct (decide (i <= c0)) as [Hle|Hgt].
      + subst thrown. simpl.
        destruct (Z.eqb_spec (ok (stiffness_of i)) FAILED) as [Heq|Hne]; simpl.
        * assert (i = c0) as ->.
          { destruct (decide (i = c0)) as [|Hn]; [done|].
            exfalso. apply (Hfirst i); [lia | done]. }
          split_and!; try done.
          -- by rewrite decide_False by lia.
          -- intros c Hc. rewrite HW by done.
             repeat case_decide; try done; exfalso; lia.
        * assert (i <> c0) as Hic by congruence.
          split_and!.
          -- by rewrite length_insert.
          -- by rewrite decide_True by lia.
          -- intros c Hc. destruct (decide (c = i)) as [->|Hn].
             ++ rewrite list_lookup_insert_eq by lia. by rewrite decide_True by lia.
             ++ rewrite list_lookup_insert_ne by done. rewrite HW by done.
                repeat case_decide; try done; exfalso; lia.
      + subst thrown. simpl. split_and!; try done.
        * by rewrite decide_False by lia.
        * intros c Hc. rewrite HW by done.
          repeat case_decide; try done; exfalso; lia.
  Qed.
End FailureFacts.

(** ** Face rows of the mixed matrices, without any law of arithmetic *)

Section MixedFaceRows.
  Context `{Double}.
  Import DenseMatrix OperatorDiffusionMFD.

  (** The cell-column entry of a face row is the negated sum the code
      accumulated over the row, term by term in the same order. *)
Definition face_rows_closed (nf : nat) (A : DenseMatrix) : Prop :=
    shape (nf + 1) (nf + 1) A /\
    forall n, n < nf -> get A n nf = (- d_sum nf (get A n))%D.

Lemma face_rows_intro (nf : nat) (A : DenseMatrix) (g : nat -> nat -> double) :
    shape (nf + 1) (nf + 1) A ->
    (forall i j, i < nf -> j < nf -> get A i j = g i j) ->
    (forall i, i < nf -> get A i nf = (- d_sum nf (g i))%D) ->
    face_rows_closed nf A.
  Proof.
    intros Hs Hg Hlast. split; [done|]. intros n Hn. rewrite Hlast by done.
    f_equal. apply d_sum_ext. intros j Hj. symmetry. by apply Hg.
  Qed.

  (** The sum of a face row, taken from left to right as [d_sum] does, is
      [S + (-S)] for the sum [S] of its face entries. *)
Lemma face_row_sum (nf : nat) (A : DenseMatrix) (n : nat) :
    face_rows_closed nf A -> n < nf ->
    row_sum A n = (d_sum nf (get A n) + - d_sum nf (get A n))%D.
  Proof.
    intros [(Hr & Hc & Hl) Hrow] Hn. unfold row_sum. rewrite Hc.
    replace (nf + 1) with (S nf) by lia. rewrite d_sum_S. by rewrite Hrow.
  Qed.

Lemma fill_not_scaled_face_rows (nf : nat) (Wff : DenseMatrix) (kf : list double)
      (A0 : DenseMatrix) :
    shape (nf + 1) (nf + 1) A0 -> face_rows_closed nf (fill_not_scaled nf Wff kf A0).
  Proof.
    intros Hs. unfold fill_not_scaled.
    pose (g := fun n m => (get Wff n m * vec_get kf n)%D).
    match goal with |- context [for_loop 0 nf ?b (A0, d_zero)] =>
      destruct (rows_fill nf b
        (fun n m '(Acell, rowsum) => (set Acell n m (g n m), (rowsum + g n m)%D))
        g (fun _ rs => rs) false A0) as (A1 & Heq & Hs1 & He1); [done..|]
    end.
    rewrite Heq.
    match goal with |- context [for_loop 0 nf ?b ?A] =>
      destruct (cell_row_fill nf b (fun _ x => x) A) as (Hs2 & He2);
        [done | by apply shape_set |]
    end.
    apply (face_rows_intro nf _ g); [done | |].
    - intros i j Hi Hj. rewrite He2 by lia. rewrite decide_False by lia.
      rewrite (get_set_ne (nf + 1) (nf + 1)) by (done || lia).
      rewrite He1 by lia. by rewrite !decide_True by lia.
    - intros i Hi. rewrite He2 by lia. rewrite decide_False by lia.
      rewrite (get_set_ne (nf + 1) (nf + 1)) by (done || lia).
      rewrite He1 by lia. rewrite decide_True by lia. by rewrite decide_False by lia.
  Qed.

Lemma fill_scaled_face_rows (nf : nat) (Wff : DenseMatrix) (kf : list double)
      (A0 : DenseMatrix) :
    shape (nf + 1) (nf + 1) A0 -> face_rows_closed nf (fill_scaled nf Wff kf A0).
  Proof.
    intros Hs. unfold fill_scaled.
    pose (g := fun n m => get Wff n m).
    match goal with |- context [for_loop 0 nf ?b (A0, d_zero)] =>
      destruct (rows_fill nf b
        (fun n m '(Acell, rowsum) => (set Acell n m (g n m), (rowsum + g n m)%D))
        g (fun n rs => (rs * vec_get kf n)%D) false A0) as (A1 & Heq & Hs1 & He1); [done..|]
    end.
    rewrite Heq.
    match goal with |- context [for_loop 0 nf ?b ?A] =>
      destruct (cell_row_fill nf b (fun m x => (x * vec_get kf m)%D) A) as (Hs2 & He2);
        [done | by apply shape_set |]
    end.
    apply (face_rows_intro nf _ g); [done | |].
    - intros i j Hi Hj. rewrite He2 by lia. rewrite decide_False by lia.
      rewrite (get_set_ne (nf + 1) (nf + 1)) by (done || lia).
      rewrite He1 by lia. by rewrite !decide_True by lia.
    - intros i Hi. rewrite He2 by lia. rewrite decide_False by lia.
      rewrite (get_set_ne (nf + 1) (nf + 1)) by (done || lia).
      rewrite He1 by lia. rewrite decide_True by lia. by rewrite decide_False by lia.
  Qed.

Lemma mirrored_face_rows (nf : nat)
      (body : nat -> DenseMatrix * double -> DenseMatrix * double)
      (inner : nat -> nat -> DenseMatrix * double -> DenseMatrix * double)
      (g : nat -> nat -> double) (A0 : DenseMatrix) :
    (forall n B ms, body n (B, ms) =
       let '(B1, rs) := for_loop 0 nf (inner n) (B, d_zero) in
       (set (set B1 n nf (- rs)%D) nf n (- rs)%D, (ms + rs)%D)) ->
    (forall n m B r, inner n m (B, r) = (set B n m (g n m), (r + g n m)%D)) ->
    shape (nf + 1) (nf + 1) A0 ->
    forall A1 matsum, for_loop 0 nf body (A0, d_zero) = (A1, matsum) ->
      face_rows_closed nf (set A1 nf nf matsum).
  Proof.
    intros Hbody Hinner Hs A1 matsum Hloop.
    destruct (rows_fill nf body inner g (fun _ rs => rs) true A0)
      as (A1' & Heq & Hs1 & He1); [done..|].
    rewrite Hloop in Heq. injection Heq as -> ->.
    apply (face_rows_intro nf _ g); [by apply shape_set | |].
    - intros i j Hi Hj.
      rewrite (get_set_ne (nf + 1) (nf + 1)) by (done || lia).
      rewrite He1 by lia. by rewrite !decide_True by lia.
    - intros i Hi.
      rewrite (get_set_ne (nf + 1) (nf + 1)) by (done || lia).
      rewrite He1 by lia. rewrite decide_True by lia. by rewrite decide_False by lia.
  Qed.

Lemma fill_divk_face_rows (nf : nat) (Wff : DenseMatrix) (kc : double) (kf : list double)
      (A0 : DenseMatrix) :
    shape (nf + 1) (nf + 1) A0 -> face_rows_closed nf (fill_divk nf Wff kc kf A0).
  Proof.
    intros Hs. unfold fill_divk.
    match goal with |- context [for_loop 0 nf ?b (A0, d_zero)] =>
      destruct (for_loop 0 nf b (A0, d_zero)) as [A1 matsum] eqn:Hloop;
      apply (mirrored_face_rows nf b
        (fun n m '(Acell, rowsum) =>
           let tmp := (get Wff n m * vec_get kf n * vec_get kf m / kc)%D in
           (set Acell n m tmp, (rowsum + tmp)%D))
        (fun n m => (get Wff n m * vec_get kf n * vec_get kf m / kc)%D) A0); done
    end.
  Qed.

Lemma fill_withgrad_face_rows (nf : nat) (Wff : DenseMatrix) (kf : list double)
      (A0 : DenseMatrix) :
    shape (nf + 1) (nf + 1) A0 -> face_rows_closed nf (fill_withgrad nf Wff kf A0).
  Proof.
    intros Hs. unfold fill_withgrad.
    match goal with |- context [for_loop 0 nf ?b (A0, d_zero)] =>
      destruct (for_loop 0 nf b (A0, d_zero)) as [A1 matsum] eqn:Hloop;
      apply (mirrored_face_rows nf b
        (fun n m '(Acell, rowsum) =>
           let tmp := (get Wff n m * vec_get kf n * vec_get kf m)%D in
           (set Acell n m tmp, (rowsum + tmp)%D))
        (fun n m => (get Wff n m * vec_get kf n * vec_get kf m)%D) A0); done
    end.
  Qed.

Lemma add_artificial_diffusion_shape (k_face : list double) (nf : nat)
      (faces : list nat) (Wff : DenseMatrix) (kc : double) (A0 : DenseMatrix) :
    shape (nf + 1) (nf + 1) A0 ->
    shape (nf + 1) (nf + 1) (add_artificial_diffusion k_face nf faces Wff kc A0).
  Proof.
    intros Hs. unfold add_artificial_diffusion.
    apply (for_loop_ind (fun _ A => shape (nf + 1) (nf + 1) A)); [lia | done |].
    intros n A Hn HsA. destruct (d_ltb d_zero _); [|done].
    by repeat apply shape_set.
  Qed.

Lemma UpdateMatricesMixed_cell_shape (mesh_ : Mesh) (upwind_ : Upwind)
      (scaled_constraint_ : bool) (junk : nat -> double) (k_cell : option (list double))
      (k_face : list double) (k_twin : option (list double)) (c : nat) (Wff : DenseMatrix) :
    let nf := length (cell_get_faces mesh_ c) in
    shape (nf + 1) (nf + 1)
      (UpdateMatricesMixed_cell mesh_ upwind_ scaled_constraint_ junk
         k_cell k_face k_twin c Wff).
  Proof.
    intros nf. unfold UpdateMatricesMixed_cell. fold nf.
    pose proof (shape_alloc junk (nf + 1) (nf + 1)) as Hs0.
    destruct upwind_, scaled_constraint_; simpl;
      try apply add_artificial_diffusion_shape;
      first [ by apply fill_scaled_face_rows | by apply fill_not_scaled_face_rows
            | by apply fill_divk_face_rows ].
  Qed.

Lemma UpdateMatricesMixed_cell_face_rows (mesh_ : Mesh) (upwind_ : Upwind)
      (scaled_constraint_ : bool) (junk : nat -> double) (k_cell : option (list double))
      (k_face : list double) (k_twin : option (list double)) (c : nat) (Wff : DenseMatrix) :
    upwind_ <> OPERATOR_UPWIND_AMANZI_ARTIFICIAL_DIFFUSION ->
    face_rows_closed (length (cell_get_faces mesh_ c))
      (UpdateMatricesMixed_cell mesh_ upwind_ scaled_constraint_ junk
         k_cell k_face k_twin c Wff).
  Proof.
    intros Hart. unfold UpdateMatricesMixed_cell.
    set (nf := length (cell_get_faces mesh_ c)).
    pose proof (shape_alloc junk (nf + 1) (nf + 1)) as Hs0.
    destruct upwind_, scaled_constraint_; simpl; try done;
      first [ by apply fill_scaled_face_rows | by apply fill_not_scaled_face_rows
            | by apply fill_divk_face_rows ].
  Qed.

Lemma UpdateMatricesMixedWithGrad_cell_face_rows (mesh_ : Mesh) (junk : nat -> double)
      (k_face : list double) (k_twin : option (list double))
      (Wff_divk : nat -> DenseMatrix) (c : nat) :
    face_rows_closed (length (cell_get_faces mesh_ c))
      (UpdateMatricesMixedWithGrad_cell mesh_ junk k_face k_twin Wff_divk c).
  Proof.
    unfold UpdateMatricesMixedWithGrad_cell.
    apply fill_withgrad_face_rows. apply shape_alloc.
  Qed.
End MixedFaceRows.

(** ** The whole of ApplyBCs on the FACE+CELL system *)

Lemma for_loop_split {S : Type} (lo mid hi : nat) (body : nat -> S -> S) (s : S) :
  lo <= mid <= hi ->
  for_loop lo hi body s = for_loop mid hi body (for_loop lo mid body s).
Proof.
  intros Hle. unfold for_loop.
  replace (hi - lo) with ((mid - lo) + (hi - mid)) by lia.
  rewrite seq_app, foldl_app. do 3 f_equal. lia.
Qed.

Lemma for_loop_one {S : Type} (lo : nat) (body : nat -> S -> S) (s : S) :
  for_loop lo (Datatypes.S lo) body s = body lo s.
Proof. rewrite for_loop_S by lia. by rewrite for_loop_nil. Qed.

Section DirichletStep.
Import DenseMatrix OperatorDiffusionMFD.

(** One Dirichlet face, from any state of the loop. *)
Lemma ApplyBCs_face_Dirichlet `{Double} (mesh_ : Mesh)
    (bc_model : list BCModel) (bc_value bc_mixed : list double)
    (primary : bool) (c : nat) (faces : list nat) (n f : nat) (w : Work) :
  let nfaces := length faces in
  let v := vec_get bc_value f in
  let A := Acell w in
  let w' := ApplyBCs_face mesh_ bc_model bc_value bc_mixed primary c faces nfaces n w in
  let A' := Acell w' in
  shape (nfaces + 1) (nfaces + 1) A ->
  NoDup faces ->
  (forall g, g ∈ faces -> g < length (rhs_face w)) ->
  c < length (rhs_cell w) ->
  faces !! n = Some f ->
  bc_model !! f = Some OPERATOR_BC_DIRICHLET ->
  (forall m g, m <> n -> faces !! m = Some g ->
     vec_get (rhs_face w') g = (vec_get (rhs_face w) g - get A m n * v)%D) /\
  vec_get (rhs_cell w') c = (vec_get (rhs_cell w) c - get A nfaces n * v)%D /\
  (forall m, m <= nfaces -> m <> n -> get A' m n = d_zero /\ get A' n m = d_zero) /\
  (if primary
   then vec_get (rhs_face w') f = v /\ get A' n n = d_one
   else vec_get (rhs_face w') f = (vec_get (rhs_face w) f - get A n n * v)%D /\
        get A' n n = d_zero) /\
  (forall i j, i <= nfaces -> j <= nfaces -> i <> n -> j <> n -> get A' i j = get A i j) /\
  (forall g, g ∉ faces -> rhs_face w' !! g = rhs_face w !! g) /\
  (forall c', c' <> c -> rhs_cell w' !! c' = rhs_cell w !! c') /\
  shape (nfaces + 1) (nfaces + 1) A' /\
  length (rhs_face w') = length (rhs_face w) /\
  length (rhs_cell w') = length (rhs_cell w).
Proof.
  intros nfaces v A w' A' Hs Hnd Hrange Hc Hn Hbc.
  assert (n < nfaces) as Hn_lt by (by apply lookup_lt_Some in Hn).
  unfold A', w', ApplyBCs_face.
  rewrite (id_at_lookup _ _ _ Hn).
  unfold bc_model_at. rewrite Hbc. simpl.
  unfold ApplyBCs_Dirichlet. fold v.
  set (w0 := save_shadow w).
  assert (Acell w0 = A /\ rhs_face w0 = rhs_face w /\ rhs_cell w0 = rhs_cell w)
    as (HA0 & Hrf0 & Hrc0).
  { unfold w0, save_shadow. by destruct (flag w). }
  destruct (eliminate_face_block_spec faces n v w0)
    as (Hs1 & _ & _ & Hrc1 & Hlen1 & HA1 & Hrf1 & Hout1);
    [by rewrite HA0 | done | by rewrite Hrf0 | done |].
  fold nfaces in Hs1, Hrc1, Hlen1, HA1, Hrf1, Hout1 |- *.
  set (w1 := eliminate_face_block faces nfaces n v w0) in *.
  rewrite HA0 in HA1, Hrf1. rewrite Hrf0 in Hrf1, Hout1, Hlen1. rewrite Hrc0 in Hrc1.
  assert (f < length (rhs_face w)) as Hf_lt.
  { apply Hrange. by eapply list_elem_of_lookup_2. }
  destruct primary; simpl.
  - split_and!.
    + intros m g Hne Hm. rewrite vec_get_set_ne; [by apply Hrf1|].
      intros ->. apply Hne. by eapply NoDup_lookup.
    + rewrite Hrc1. rewrite vec_get_set_eq by done.
      rewrite (get_set_ne (nfaces + 1) (nfaces + 1)) by (done || lia).
      rewrite HA1 by lia. rewrite decide_False; [done | lia].
    + intros m Hm Hne.
      rewrite !(get_set (nfaces + 1) (nfaces + 1))
        by (repeat apply shape_set; done || lia).
      rewrite !HA1 by lia.
      split; repeat case_decide; try done; exfalso; intuition lia.
    + by rewrite vec_get_set_eq by lia.
    + rewrite !(get_set (nfaces + 1) (nfaces + 1))
        by (repeat apply shape_set; done || lia).
      repeat case_decide; try done; exfalso; intuition lia.
    + intros i j Hi Hj Hin Hjn.
      rewrite !(get_set (nfaces + 1) (nfaces + 1))
        by (repeat apply shape_set; done || lia).
      rewrite !HA1 by lia.
      repeat case_decide; try done; exfalso; intuition lia.
    + intros g Hg. unfold vec_set. rewrite list_lookup_insert_ne; [by apply Hout1|].
      intros ->. apply Hg. by eapply list_elem_of_lookup_2.
    + intros c' Hc'. rewrite Hrc1. unfold vec_set. by rewrite list_lookup_insert_ne.
    + by repeat apply shape_set.
    + by rewrite vec_set_length.
    + rewrite vec_set_length. by rewrite Hrc1.
  - split_and!.
    + intros m g Hne Hm. by apply Hrf1.
    + rewrite Hrc1. rewrite vec_get_set_eq by done.
      rewrite HA1 by lia. rewrite decide_False; [done | lia].
    + intros m Hm Hne.
      rewrite !(get_set (nfaces + 1) (nfaces + 1))
        by (repeat apply shape_set; done || lia).
      rewrite !HA1 by lia.
      split; repeat case_decide; try done; exfalso; intuition lia.
    + by rewrite (Hrf1 n f Hn).
    + rewrite !(get_set (nfaces + 1) (nfaces + 1))
        by (repeat apply shape_set; done || lia).
      rewrite !HA1 by lia.
      repeat case_decide; try done; exfalso; intuition lia.
    + intros i j Hi Hj Hin Hjn.
      rewrite !(get_set (nfaces + 1) (nfaces + 1))
        by (repeat apply shape_set; done || lia).
      rewrite !HA1 by lia.
      repeat case_decide; try done; exfalso; intuition lia.
    + intros g Hg. by apply Hout1.
    + intros c' Hc'. rewrite Hrc1. unfold vec_set. by rewrite list_lookup_insert_ne.
    + by repeat apply shape_set.
    + done.
    + rewrite vec_set_length. by rewrite Hrc1.
Qed.
End DirichletStep.

Section ApplyBCsWhole.
  Context `{Double}.
  Import DenseMatrix OperatorDiffusionMFD.

  Variable mesh_ : Mesh.
  Variable bc_model : list BCModel.
  Variables bc_value bc_mixed : list double.
  Variable primary : bool.

  Local Abbreviation face_step := (ApplyBCs_face mesh_ bc_model bc_value bc_mixed primary).
  Local Abbreviation Dirichlet_at faces k i := (met bc_model faces OPERATOR_BC_DIRICHLET k i).
  Local Abbreviation Mixed_at faces k i := (met bc_model faces OPERATOR_BC_MIXED k i).

  (** The entry [(i, j)] of the local matrix [A] once the first [k] faces
      are done, and the cell entry [r] of the right-hand side. *)
  Local Abbreviation entry_after faces A k i j :=
    (if decide (Dirichlet_at faces k i \/ Dirichlet_at faces k j)
     then (if decide (i = j) then (if primary then d_one else d_zero) else d_zero)
     else if decide (i = j /\ Mixed_at faces k i)
     then (get A i i + vec_get bc_mixed (id_at faces i) * face_area mesh_ (id_at faces i))%D
     else get A i j).
  Local Abbreviation cell_entry_after faces A k r0 :=
    (for_loop 0 k (fun n r =>
       if decide (bc_model_at bc_model (id_at faces n) = OPERATOR_BC_DIRICHLET)
       then (r - get A (length faces) n * vec_get bc_value (id_at faces n))%D else r) r0).

Lemma met_S (faces : list nat) (b : BCModel) (k i : nat) :
    met bc_model faces b (S k) i <->
    met bc_model faces b k i \/
    (i = k /\ k < length faces /\ bc_model_at bc_model (id_at faces k) = b).
  Proof. unfold met. split; [intros (Hi & Hl & Hb) | intros [(Hi & Hl & Hb)|(-> & Hl & Hb)]].
    - destruct (decide (i = k)) as [->|Hne]; [right; done | left; split_and!; [lia|done..]].
    - split_and!; [lia | done..].
    - split_and!; [lia | done..].
  Qed.

  (** One face of any kind. *)
Lemma ApplyBCs_face_step (c : nat) (faces : list nat) (n f : nat) (w : Work) :
    let nfaces := length faces in
    let w' := face_step c faces nfaces n w in
    let A := Acell w in
    shape (nfaces + 1) (nfaces + 1) A ->
    NoDup faces ->
    (forall g, g ∈ faces -> g < length (rhs_face w)) ->
    c < length (rhs_cell w) ->
    faces !! n = Some f ->
    shape (nfaces + 1) (nfaces + 1) (Acell w') /\
    length (rhs_face w') = length (rhs_face w) /\
    length (rhs_cell w') = length (rhs_cell w) /\
    (forall c', c' <> c -> rhs_cell w' !! c' = rhs_cell w !! c') /\
    (forall i j, i <= nfaces -> j <= nfaces ->
       get (Acell w') i j =
         match bc_model_at bc_model f with
         | OPERATOR_BC_DIRICHLET =>
             if decide (i = n \/ j = n)
             then (if decide (i = j) then (if primary then d_one else d_zero) else d_zero)
             else get A i j
         | OPERATOR_BC_MIXED =>
             if decide (i = n /\ j = n)
             then (get A n n + vec_get bc_mixed f * face_area mesh_ f)%D else get A i j
         | _ => get A i j
         end) /\
    vec_get (rhs_cell w') c =
      match bc_model_at bc_model f with
      | OPERATOR_BC_DIRICHLET =>
          (vec_get (rhs_cell w) c - get A nfaces n * vec_get bc_value f)%D
      | _ => vec_get (rhs_cell w) c
      end.
  Proof.
    intros nfaces w' A Hs Hnd Hrange Hc Hn.
    assert (n < nfaces) as Hn_lt by (by apply lookup_lt_Some in Hn).
    destruct (bc_model_at bc_model f) eqn:Hbc.
    - unfold w', ApplyBCs_face. rewrite (id_at_lookup _ _ _ Hn), Hbc. done.
    - assert (bc_model !! f = Some OPERATOR_BC_DIRICHLET) as Hbc'.
      { unfold bc_model_at in Hbc. destruct (bc_model !! f) as [b|]; simpl in Hbc; by subst. }
      destruct (ApplyBCs_face_Dirichlet mesh_ bc_model bc_value bc_mixed primary c faces
                  n f w Hs Hnd Hrange Hc Hn Hbc')
        as (_ & Hrc & Hzero & Hdiag & Hrest & _ & Hother & Hs' & Hlf & Hlc).
      fold nfaces w' A in Hrc, Hzero, Hdiag, Hrest, Hother, Hs', Hlf, Hlc.
      split_and!; try done.
      intros i j Hi Hj.
      destruct (decide (i = n)) as [->|Hin]; destruct (decide (j = n)) as [->|Hjn].
      + rewrite decide_True by auto. rewrite decide_True by done.
        destruct primary; by destruct Hdiag.
      + rewrite decide_True by auto. rewrite decide_False by done.
        by destruct (Hzero j Hj Hjn).
      + rewrite decide_True by auto. rewrite decide_False by done.
        by destruct (Hzero i Hi Hin).
      + rewrite decide_False by tauto. by apply Hrest.
    - unfold w', ApplyBCs_face. rewrite (id_at_lookup _ _ _ Hn), Hbc. simpl.
      split_and!; try done. by rewrite vec_set_length.
    - unfold w', ApplyBCs_face. rewrite (id_at_lookup _ _ _ Hn), Hbc. simpl.
      assert (Acell (save_shadow w) = A /\ rhs_face (save_shadow w) = rhs_face w /\
              rhs_cell (save_shadow w) = rhs_cell w) as (-> & -> & ->).
      { unfold save_shadow. by destruct (flag w). }
      split_and!; try done.
      + by apply shape_set.
      + by rewrite vec_set_length.
      + intros i j Hi Hj. rewrite (get_set (nfaces + 1) (nfaces + 1)) by (done || lia).
        done.
  Qed.

  (** The loop over the faces of cell [c], stopped after [k] faces. *)
Lemma ApplyBCs_faces_inv (c : nat) (faces : list nat) (w0 : Work) (k : nat) :
    let nfaces := length faces in
    let A := Acell w0 in
    let t := for_loop 0 k (face_step c faces nfaces) w0 in
    shape (nfaces + 1) (nfaces + 1) A ->
    NoDup faces ->
    (forall g, g ∈ faces -> g < length (rhs_face w0)) ->
    c < length (rhs_cell w0) ->
    k <= nfaces ->
    shape (nfaces + 1) (nfaces + 1) (Acell t) /\
    length (rhs_face t) = length (rhs_face w0) /\
    length (rhs_cell t) = length (rhs_cell w0) /\
    (forall c', c' <> c -> rhs_cell t !! c' = rhs_cell w0 !! c') /\
    (forall i j, i <= nfaces -> j <= nfaces ->
       get (Acell t) i j = entry_after faces A k i j) /\
    vec_get (rhs_cell t) c = cell_entry_after faces A k (vec_get (rhs_cell w0) c).
  Proof.
    intros nfaces A t Hs Hnd Hrange Hc Hk.
    pose (P := fun (k : nat) (t : Work) =>
      shape (nfaces + 1) (nfaces + 1) (Acell t) /\
      length (rhs_face t) = length (rhs_face w0) /\
      length (rhs_cell t) = length (rhs_cell w0) /\
      (forall c', c' <> c -> rhs_cell t !! c' = rhs_cell w0 !! c') /\
      (forall i j, i <= nfaces -> j <= nfaces ->
         get (Acell t) i j = entry_after faces A k i j) /\
      vec_get (rhs_cell t) c = cell_entry_after faces A k (vec_get (rhs_cell w0) c)).
    assert (P k t) as HP; [|exact HP].
    unfold t. clear t. revert Hk. induction k as [|k IH]; intros Hk.
    - rewrite for_loop_nil. unfold P. split_and!; try done.
      intros i j Hi Hj.
      rewrite decide_False by (unfold met; lia).
      rewrite decide_False by (unfold met; lia). done.
    - rewrite for_loop_S by lia. specialize (IH ltac:(lia)).
      set (t := for_loop 0 k (face_step c faces nfaces) w0) in *.
      destruct IH as (Hst & Hlf & Hlc & Hoc & HA & Hrc).
      destruct (lookup_lt_is_Some_2 faces k ltac:(fold nfaces; lia)) as [f Hf].
      destruct (ApplyBCs_face_step c faces k f t)
        as (Hst' & Hlf' & Hlc' & Hoc' & HA' & Hrc');
        [done | done | by rewrite Hlf | by rewrite Hlc | done |].
      fold nfaces in Hst', Hlf', Hlc', Hoc', HA', Hrc'.
      pose proof (id_at_lookup _ _ _ Hf) as Hid.
      unfold P. split_and!.
      + done.
      + by rewrite Hlf'.
      + by rewrite Hlc'.
      + intros c' Hc'. rewrite Hoc' by done. by apply Hoc.
      + intros i j Hi Hj. rewrite (HA' i j Hi Hj).
        assert (forall b i0, met bc_model faces b (S k) i0 <->
                  met bc_model faces b k i0 \/ (i0 = k /\ bc_model_at bc_model f = b)) as HmS.
        { intros b i0. rewrite met_S. rewrite Hid. fold nfaces. intuition lia. }
        assert (forall b, ~ met bc_model faces b k k) as Hkk by (unfold met; intros b; lia).
        destruct (bc_model_at bc_model f) eqn:Hbc.
        * rewrite HA by done.
          rewrite (decide_ext (Dirichlet_at faces (S k) i \/ Dirichlet_at faces (S k) j)
                     (Dirichlet_at faces k i \/ Dirichlet_at faces k j))
            by (rewrite !HmS; naive_solver).
          rewrite (decide_ext (i = j /\ Mixed_at faces (S k) i) (i = j /\ Mixed_at faces k i))
            by (rewrite !HmS; naive_solver).
          done.
        * destruct (decide (i = k \/ j = k)) as [Hor|Hnor].
          -- rewrite (decide_True (P := Dirichlet_at faces (S k) i \/ Dirichlet_at faces (S k) j))
               by (rewrite !HmS; naive_solver).
             done.
          -- rewrite HA by done.
             rewrite (decide_ext (Dirichlet_at faces (S k) i \/ Dirichlet_at faces (S k) j)
                        (Dirichlet_at faces k i \/ Dirichlet_at faces k j))
               by (rewrite !HmS; naive_solver).
             rewrite (decide_ext (i = j /\ Mixed_at faces (S k) i) (i = j /\ Mixed_at faces k i))
               by (rewrite !HmS; naive_solver).
             done.
        * rewrite HA by done.
          rewrite (decide_ext (Dirichlet_at faces (S k) i \/ Dirichlet_at faces (S k) j)
                     (Dirichlet_at faces k i \/ Dirichlet_at faces k j))
            by (rewrite !HmS; naive_solver).
          rewrite (decide_ext (i = j /\ Mixed_at faces (S k) i) (i = j /\ Mixed_at faces k i))
            by (rewrite !HmS; naive_solver).
          done.
        * destruct (decide (i = k /\ j = k)) as [[-> ->]|Hnand].
          -- rewrite HA by lia.
             rewrite (decide_False (P := Dirichlet_at faces k k \/ Dirichlet_at faces k k))
               by (intros [Hm|Hm]; exact (Hkk _ Hm)).
             rewrite (decide_False (P := k = k /\ Mixed_at faces k k))
               by (intros [_ Hm]; exact (Hkk _ Hm)).
             rewrite (decide_False (P := Dirichlet_at faces (S k) k \/ Dirichlet_at faces (S k) k))
               by (rewrite !HmS; intros [[Hm|[_ Hm]]|[Hm|[_ Hm]]];
                   [exact (Hkk _ Hm) | discriminate | exact (Hkk _ Hm) | discriminate]).
             rewrite (decide_True (P := k = k /\ Mixed_at faces (S k) k))
               by (rewrite !HmS; auto).
             by rewrite Hid.
          -- rewrite HA by done.
             rewrite (decide_ext (Dirichlet_at faces (S k) i \/ Dirichlet_at faces (S k) j)
                        (Dirichlet_at faces k i \/ Dirichlet_at faces k j))
               by (rewrite !HmS; naive_solver).
             rewrite (decide_ext (i = j /\ Mixed_at faces (S k) i) (i = j /\ Mixed_at faces k i))
               by (rewrite !HmS; naive_solver).
             done.
      + rewrite for_loop_S by lia. rewrite Hid. rewrite Hrc'. rewrite Hrc.
        destruct (bc_model_at bc_model f) eqn:Hbc.
        * by rewrite decide_False.
        * rewrite decide_True by done.
          rewrite HA by lia.
          rewrite decide_False by (unfold met; fold nfaces; lia).
          rewrite decide_False by lia. done.
        * by rewrite decide_False.
        * by rewrite decide_False.
  Qed.

  (** One owned cell. *)
Lemma ApplyBCs_cell_spec (c : nat) (op : Op) :
    let faces := cell_get_faces mesh_ c in
    let nfaces := length faces in
    let A := default empty (matrices op !! c) in
    let op' := ApplyBCs_cell mesh_ bc_model bc_value bc_mixed primary c op in
    c < length (matrices op) ->
    shape (nfaces + 1) (nfaces + 1) A ->
    NoDup faces ->
    (forall g, g ∈ faces -> g < length (op_rhs_face op)) ->
    c < length (op_rhs_cell op) ->
    length (matrices op') = length (matrices op) /\
    length (op_rhs_face op') = length (op_rhs_face op) /\
    length (op_rhs_cell op') = length (op_rhs_cell op) /\
    (forall c', c' <> c ->
       matrices op' !! c' = matrices op !! c' /\
       op_rhs_cell op' !! c' = op_rhs_cell op !! c') /\
    (forall i j, i <= nfaces -> j <= nfaces ->
       get (default empty (matrices op' !! c)) i j = entry_after faces A nfaces i j) /\
    vec_get (op_rhs_cell op') c
    = cell_entry_after faces A nfaces (vec_get (op_rhs_cell op) c).
  Proof.
    intros faces nfaces A op' Hc Hs Hnd Hrange Hrc.
    unfold op', ApplyBCs_cell. fold faces nfaces A.
    set (w0 := mkWork A (default empty (matrices_shadow op !! c)) true
                 (op_rhs_face op) (op_rhs_cell op)).
    destruct (ApplyBCs_faces_inv c faces w0 nfaces)
      as (Hst & Hlf & Hlc & Hoc & HA & Hcell); [done..| lia |].
    fold nfaces in Hst, Hlf, Hlc, Hoc, HA, Hcell. simpl in *.
    split_and!; try done.
    - by rewrite length_insert.
    - intros c' Hc'. split; [by rewrite list_lookup_insert_ne | by apply Hoc].
    - intros i j Hi Hj. rewrite list_lookup_insert_eq by done. simpl. by apply HA.
  Qed.

  (** The loop over the owned cells, stopped after [k] cells. *)
Lemma ApplyBCs_cells_inv (op0 : Op) (k : nat) :
    let op := for_loop 0 k (ApplyBCs_cell mesh_ bc_model bc_value bc_mixed primary) op0 in
    (forall c, c < ncells_owned mesh_ ->
       c < length (matrices op0) /\
       shape (length (cell_get_faces mesh_ c) + 1) (length (cell_get_faces mesh_ c) + 1)
         (default empty (matrices op0 !! c)) /\
       c < length (op_rhs_cell op0) /\
       NoDup (cell_get_faces mesh_ c) /\
       (forall g, g ∈ cell_get_faces mesh_ c -> g < length (op_rhs_face op0))) ->
    k <= ncells_owned mesh_ ->
    length (matrices op) = length (matrices op0) /\
    length (op_rhs_face op) = length (op_rhs_face op0) /\
    length (op_rhs_cell op) = length (op_rhs_cell op0) /\
    (forall c, k <= c ->
       matrices op !! c = matrices op0 !! c /\
       op_rhs_cell op !! c = op_rhs_cell op0 !! c) /\
    (forall c, c < k ->
       (forall i j, i <= length (cell_get_faces mesh_ c) ->
          j <= length (cell_get_faces mesh_ c) ->
          get (default empty (matrices op !! c)) i j
          = entry_after (cell_get_faces mesh_ c) (default empty (matrices op0 !! c))
              (length (cell_get_faces mesh_ c)) i j) /\
       vec_get (op_rhs_cell op) c
       = cell_entry_after (cell_get_faces mesh_ c) (default empty (matrices op0 !! c))
           (length (cell_get_faces mesh_ c)) (vec_get (op_rhs_cell op0) c)).
  Proof.
    intros op Hfit. unfold op. clear op. induction k as [|k IH]; intros Hk.
    - rewrite for_loop_nil. split_and!; try done. intros c Hc. lia.
    - rewrite for_loop_S by lia. specialize (IH ltac:(lia)).
      set (op := for_loop 0 k _ op0) in *.
      destruct IH as (Hlm & Hlf & Hlc & Hlater & Hdone).
      destruct (Hfit k ltac:(lia)) as (Hkm & Hks & Hkc & Hknd & Hkr).
      destruct (Hlater k ltac:(lia)) as [Hmk Hrk].
      destruct (ApplyBCs_cell_spec k op)
        as (Hlm' & Hlf' & Hlc' & Hother & HA & Hcell).
      { by rewrite Hlm. }
      { by rewrite Hmk. }
      { done. }
      { by rewrite Hlf. }
      { by rewrite Hlc. }
      rewrite Hmk in HA, Hcell.
      split_and!.
      + by rewrite Hlm'.
      + by rewrite Hlf'.
      + by rewrite Hlc'.
      + intros c Hc. destruct (Hother c ltac:(lia)) as [-> ->]. apply Hlater. lia.
      + intros c Hc. destruct (decide (c = k)) as [->|Hne].
        * split; [exact HA|]. rewrite Hcell. unfold vec_get. by rewrite Hrk.
        * destruct (Hother c Hne) as [Hm Hr]. destruct (Hdone c ltac:(lia)) as [HAc Hcc].
          split.
          -- intros i j Hi Hj. rewrite Hm. by apply HAc.
          -- unfold vec_get at 1. rewrite Hr. exact Hcc.
  Qed.

  (** The run of [ApplyBCs] goes through every face of every owned cell. *)
Lemma ApplyBCs_cut (PutScalarGhosted : double -> list double -> list double)
      (GatherGhostedToMaster : list double -> list double) (op : Op) (c n : nat) :
    c < ncells_owned mesh_ -> n < length (cell_get_faces mesh_ c) ->
    ApplyBCs mesh_ bc_model bc_value bc_mixed PutScalarGhosted GatherGhostedToMaster
      primary op
    = ApplyBCs_resumes mesh_ bc_model bc_value bc_mixed PutScalarGhosted
        GatherGhostedToMaster primary c n op
        (face_step c (cell_get_faces mesh_ c) (length (cell_get_faces mesh_ c)) n
           (ApplyBCs_reaches mesh_ bc_model bc_value bc_mixed PutScalarGhosted
              primary c n op)).
  Proof.
    intros Hc Hn. unfold ApplyBCs, ApplyBCs_resumes, ApplyBCs_reaches.
    set (op0 := mkOp (matrices op) (matrices_shadow op)
                  (PutScalarGhosted d_zero (op_rhs_face op)) (op_rhs_cell op)).
    rewrite (for_loop_split 0 c (ncells_owned mesh_)) by lia.
    rewrite (for_loop_split c (S c) (ncells_owned mesh_)) by lia.
    rewrite for_loop_one.
    set (opc := for_loop 0 c _ op0).
    assert (ApplyBCs_cell mesh_ bc_model bc_value bc_mixed primary c opc
            = let w0 := mkWork (default empty (matrices opc !! c))
                          (default empty (matrices_shadow opc !! c))
                          true (op_rhs_face opc) (op_rhs_cell opc) in
              let w := for_loop (S n) (length (cell_get_faces mesh_ c))
                         (face_step c (cell_get_faces mesh_ c)
                            (length (cell_get_faces mesh_ c)))
                         (face_step c (cell_get_faces mesh_ c)
                            (length (cell_get_faces mesh_ c)) n
                            (for_loop 0 n
                               (face_step c (cell_get_faces mesh_ c)
                                  (length (cell_get_faces mesh_ c))) w0)) in
              mkOp (<[c := Acell w]> (matrices opc)) (<[c := shadow w]> (matrices_shadow opc))
                   (rhs_face w) (rhs_cell w)) as ->.
    { unfold ApplyBCs_cell. cbv zeta.
      rewrite (for_loop_split 0 (S n) (length (cell_get_faces mesh_ c))) by lia.
      rewrite (for_loop_S 0 n) by lia. done. }
    done.
  Qed.
End ApplyBCsWhole.

(* ===================================================================== *)
(** * Part III. The claims                                                *)
(* ===================================================================== *)

(** ** Boundary conditions *)

Section Claim_ApplyBCs.
Import DenseMatrix OperatorDiffusionMFD.

(** C1.  [ApplyBCs] on the FACE+CELL system, for an operator whose vectors
    fit the mesh.  Let [c] be an owned cell and [n] a local face of it whose
    face [f] carries a Dirichlet condition with value [v]; let [A] be the
    local matrix of [c] that [ApplyBCs] receives.
    - The run goes through the body of the inner loop for [n]: it is the
      rest of the loops applied to what the body makes of the state the
      loops have reached.
    - At that point column [n] of the local matrix still holds the entries
      of [A], but for the rows of the Dirichlet faces met before, which are
      zero.
    - The body subtracts [Acell(m, n) * v] from the right-hand-side entry of
      every other local face row [m] and [A(nfaces, n) * v] from the cell
      entry, and zeroes row [n] and column [n], cell row and cell column
      included.
    - When [primary] is true the right-hand-side entry of [f] becomes [v]
      and [Acell(n, n)] becomes 1; when it is false neither is done: the
      diagonal entry stays zeroed and the entry of [f] keeps the value left
      by the subtraction.
    - Nothing else of the matrix or of the right-hand side is changed by the
      body.
    - In the operator [ApplyBCs] returns, row [n] and column [n] of the local
      matrix of [c] are zero off the diagonal, the diagonal entry is 1 when
      [primary] is true and 0 when it is false, an entry in no row or column
      of a Dirichlet face is the entry of [A] (plus [bc_mixed * area] on the
      diagonal of a mixed face), and the cell entry of the right-hand side
      is the one received less [A(nfaces, k) * value] for each Dirichlet
      face [k] of the cell, taken in the order of the faces. *)
Theorem ApplyBCs_Dirichlet_elimination `{Double} (mesh_ : Mesh)
    (bc_model : list BCModel) (bc_value bc_mixed : list double)
    (PutScalarGhosted : double -> list double -> list double)
    (GatherGhostedToMaster : list double -> list double)
    (primary : bool) (op : Op) (c n f : nat) :
  let faces := cell_get_faces mesh_ c in
  let nfaces := length faces in
  let v := vec_get bc_value f in
  let A := default empty (matrices op !! c) in
  let before :=
    ApplyBCs_reaches mesh_ bc_model bc_value bc_mixed PutScalarGhosted primary c n op in
  let after := ApplyBCs_face mesh_ bc_model bc_value bc_mixed primary c faces nfaces n before in
  let result :=
    ApplyBCs mesh_ bc_model bc_value bc_mixed PutScalarGhosted GatherGhostedToMaster
      primary op in
  let A' := default empty (matrices result !! c) in
  let Dirichlet k i := met bc_model faces OPERATOR_BC_DIRICHLET k i in
  fits mesh_ PutScalarGhosted op ->
  c < ncells_owned mesh_ ->
  faces !! n = Some f ->
  bc_model !! f = Some OPERATOR_BC_DIRICHLET ->
  result
  = ApplyBCs_resumes mesh_ bc_model bc_value bc_mixed PutScalarGhosted
      GatherGhostedToMaster primary c n op after /\
  (forall m, m <= nfaces ->
     get (Acell before) m n = if decide (Dirichlet n m) then d_zero else get A m n) /\
  (forall m g, m <> n -> faces !! m = Some g ->
     vec_get (rhs_face after) g
     = (vec_get (rhs_face before) g - get (Acell before) m n * v)%D) /\
  vec_get (rhs_cell after) c = (vec_get (rhs_cell before) c - get A nfaces n * v)%D /\
  (forall m, m <= nfaces -> m <> n ->
     get (Acell after) m n = d_zero /\ get (Acell after) n m = d_zero) /\
  (if primary
   then vec_get (rhs_face after) f = v /\ get (Acell after) n n = d_one
   else vec_get (rhs_face after) f = (vec_get (rhs_face before) f - get A n n * v)%D /\
        get (Acell after) n n = d_zero) /\
  (forall i j, i <= nfaces -> j <= nfaces -> i <> n -> j <> n ->
     get (Acell after) i j = get (Acell before) i j) /\
  (forall g, g ∉ faces -> rhs_face after !! g = rhs_face before !! g) /\
  (forall c', c' <> c -> rhs_cell after !! c' = rhs_cell before !! c') /\
  (forall m, m <= nfaces -> m <> n -> get A' m n = d_zero /\ get A' n m = d_zero) /\
  get A' n n = (if primary then d_one else d_zero) /\
  (forall i j, i <= nfaces -> j <= nfaces ->
     ~ Dirichlet nfaces i -> ~ Dirichlet nfaces j ->
     get A' i j
     = if decide (i = j /\ met bc_model faces OPERATOR_BC_MIXED nfaces i)
       then (get A i i + vec_get bc_mixed (id_at faces i) * face_area mesh_ (id_at faces i))%D
       else get A i j) /\
  vec_get (op_rhs_cell result) c
  = for_loop 0 nfaces (fun k r =>
      if decide (bc_model_at bc_model (id_at faces k) = OPERATOR_BC_DIRICHLET)
      then (r - get A nfaces k * vec_get bc_value (id_at faces k))%D else r)
      (vec_get (op_rhs_cell op) c).
Proof.
  intros faces nfaces v A before after result A' Dirichlet Hfit Hc Hn Hbc.
  assert (n < nfaces) as Hn_lt by (by apply lookup_lt_Some in Hn).
  pose proof (id_at_lookup _ _ _ Hn) as Hid.
  assert (bc_model_at bc_model f = OPERATOR_BC_DIRICHLET) as Hbc_at
    by (unfold bc_model_at; by rewrite Hbc).
  set (op0 := mkOp (matrices op) (matrices_shadow op)
                (PutScalarGhosted d_zero (op_rhs_face op)) (op_rhs_cell op)).
  assert (forall c', c' < ncells_owned mesh_ ->
            c' < length (matrices op0) /\
            shape (length (cell_get_faces mesh_ c') + 1) (length (cell_get_faces mesh_ c') + 1)
              (default empty (matrices op0 !! c')) /\
            c' < length (op_rhs_cell op0) /\
            NoDup (cell_get_faces mesh_ c') /\
            (forall g, g ∈ cell_get_faces mesh_ c' -> g < length (op_rhs_face op0)))
    as Hfit0 by exact Hfit.
  destruct (Hfit0 c Hc) as (Hcm & Hcs & Hcc & Hcnd & Hcr).
  fold faces nfaces in Hcs, Hcnd, Hcr. simpl in Hcs, Hcm, Hcc, Hcr. fold A in Hcs.
  (* the cells before [c] *)
  destruct (ApplyBCs_cells_inv mesh_ bc_model bc_value bc_mixed primary op0 c Hfit0)
    as (Hlm & Hlf & Hlc & Hlater & _); [lia|].
  set (opc := for_loop 0 c _ op0) in *.
  destruct (Hlater c ltac:(lia)) as [Hmc Hrc_c]. simpl in Hmc, Hrc_c, Hlm, Hlf, Hlc.
  (* the faces of [c] before [n] *)
  set (w0 := mkWork (default empty (matrices opc !! c))
               (default empty (matrices_shadow opc !! c))
               true (op_rhs_face opc) (op_rhs_cell opc)).
  pose proof (ApplyBCs_faces_inv mesh_ bc_model bc_value bc_mixed primary c faces w0 n)
    as Hinv.
  cbv zeta in Hinv.
  change (for_loop 0 n
            (ApplyBCs_face mesh_ bc_model bc_value bc_mixed primary c faces (length faces))
            w0) with before in Hinv.
  destruct Hinv as (Hst & Hlfb & Hlcb & _ & HAb & _).
  { simpl. by rewrite Hmc. }
  { done. }
  { simpl. by rewrite Hlf. }
  { simpl. by rewrite Hlc. }
  { fold nfaces. lia. }
  fold nfaces in Hst, HAb.
  simpl in Hlfb, Hlcb, HAb. rewrite Hmc in HAb. fold A in HAb.
  assert (forall b, ~ met bc_model faces b n n) as Hnn by (unfold met; intros b; lia).
  assert (forall m, m <= nfaces ->
            get (Acell before) m n = if decide (Dirichlet n m) then d_zero else get A m n)
    as Hcol.
  { intros m Hm. rewrite HAb by (done || lia). unfold Dirichlet.
    destruct (decide (met bc_model faces OPERATOR_BC_DIRICHLET n m)) as [Hd|Hd].
    - rewrite decide_True by auto.
      rewrite decide_False; [done|]. destruct Hd as (Hlt & _). lia.
    - rewrite decide_False by (intros [Hm'|Hm']; [done | exact (Hnn _ Hm')]).
      rewrite decide_False; [done|]. intros [-> Hm']. exact (Hnn _ Hm'). }
  (* the body at [n] *)
  destruct (ApplyBCs_face_Dirichlet mesh_ bc_model bc_value bc_mixed primary c faces n f
              before)
    as (Hface & Hcell & Hzero & Hprim & Hrest & Hout & Hoc & _).
  { done. }
  { done. }
  { intros g Hg. rewrite Hlfb, Hlf. by apply Hcr. }
  { by rewrite Hlcb, Hlc. }
  { done. }
  { done. }
  fold nfaces v after in Hface, Hcell, Hzero, Hprim, Hrest, Hout, Hoc.
  (* the whole run *)
  destruct (ApplyBCs_cells_inv mesh_ bc_model bc_value bc_mixed primary op0
              (ncells_owned mesh_) Hfit0)
    as (_ & _ & _ & _ & Hdone); [lia|].
  destruct (Hdone c Hc) as [HA' Hcell']. clear Hdone.
  fold faces nfaces in HA', Hcell'. simpl in HA', Hcell'. fold A in HA', Hcell'.
  assert (matrices result
          = matrices (for_loop 0 (ncells_owned mesh_)
                        (ApplyBCs_cell mesh_ bc_model bc_value bc_mixed primary) op0))
    as Hres_m by reflexivity.
  assert (op_rhs_cell result
          = op_rhs_cell (for_loop 0 (ncells_owned mesh_)
                           (ApplyBCs_cell mesh_ bc_model bc_value bc_mixed primary) op0))
    as Hres_c by reflexivity.
  unfold A' at 1 2 3 4. rewrite Hres_m, Hres_c.
  assert (met bc_model faces OPERATOR_BC_DIRICHLET nfaces n) as Hdn.
  { unfold met. split_and!; [done | done | by rewrite Hid]. }
  split_and!.
  - by apply ApplyBCs_cut.
  - exact Hcol.
  - exact Hface.
  - rewrite Hcell. rewrite (Hcol nfaces) by lia.
    rewrite decide_False; [done|]. unfold Dirichlet, met. lia.
  - exact Hzero.
  - destruct primary; [exact Hprim|].
    destruct Hprim as [Hp1 Hp2]. split; [|exact Hp2].
    rewrite Hp1. rewrite (Hcol n) by lia.
    rewrite decide_False; [done|]. exact (Hnn _).
  - exact Hrest.
  - exact Hout.
  - exact Hoc.
  - intros m Hm Hne. rewrite !HA' by (done || lia). split.
    + rewrite (decide_True (P := met bc_model faces OPERATOR_BC_DIRICHLET nfaces m
                                 \/ met bc_model faces OPERATOR_BC_DIRICHLET nfaces n))
        by auto.
      by rewrite (decide_False (P := m = n)).
    + rewrite (decide_True (P := met bc_model faces OPERATOR_BC_DIRICHLET nfaces n
                                 \/ met bc_model faces OPERATOR_BC_DIRICHLET nfaces m))
        by auto.
      by rewrite (decide_False (P := n = m)).
  - rewrite HA' by lia. rewrite decide_True by auto. by rewrite decide_True.
  - intros i j Hi Hj Hdi Hdj. rewrite HA' by done.
    rewrite decide_False by (intros [?|?]; done). done.
  - exact Hcell'.
Qed.

(** The one-cell mesh with the local matrix [one_cell_Acell], Dirichlet
    values 5 and 7 on its two faces and [primary] set, seen at the second
    face.  The rows of the faces become unit rows, 27 stays in the corner,
    the right-hand side of the faces is 5 and 7 and that of the cell
    13 * 5 + 14 * 7 = 163; when the loop reaches the second face the entry
    (0, 1) is zero already, so that the 5 of the first face stays. *)
Lemma ApplyBCs_Dirichlet_elimination_witness :
  let result := @ApplyBCs Z_double one_cell_mesh
                  [OPERATOR_BC_DIRICHLET; OPERATOR_BC_DIRICHLET]
                  [5; 7]%Z [0; 0]%Z (fun _ v => v) (fun v => v) true one_cell_op in
  let before := @ApplyBCs_reaches Z_double one_cell_mesh
                  [OPERATOR_BC_DIRICHLET; OPERATOR_BC_DIRICHLET]
                  [5; 7]%Z [0; 0]%Z (fun _ v => v) true 0 1 one_cell_op in
  let A' := default (@DenseMatrix.empty Z_double) (@matrices Z_double result !! 0) in
  result = @mkOp Z_double [@DenseMatrix.mk Z_double 3 3 [1; 0; 0; 0; 1; 0; 0; 0; 27]%Z]
             [one_cell_Acell] [5; 7]%Z [163]%Z /\
  @get Z_double (@Acell Z_double before) 0 1 = 0%Z /\
  (@get Z_double A' 0 1 = 0%Z /\ @get Z_double A' 1 0 = 0%Z) /\
  (@get Z_double A' 2 1 = 0%Z /\ @get Z_double A' 1 2 = 0%Z) /\
  @get Z_double A' 1 1 = 1%Z /\
  @get Z_double A' 2 2 = 27%Z /\
  @vec_get Z_double (@op_rhs_cell Z_double result) 0 = 163%Z.
Proof.
  assert (@fits Z_double one_cell_mesh (fun _ v => v) one_cell_op) as Hfit.
  { intros c Hc. simpl in Hc. assert (c = 0) as -> by lia. simpl.
    split_and!; [lia | repeat split | lia | |].
    - apply NoDup_cons; split;
        [by apply not_elem_of_cons; split; [lia | apply not_elem_of_nil]
        | apply NoDup_singleton].
    - intros g Hg. repeat (apply elem_of_cons in Hg as [->|Hg]); try lia.
      by apply elem_of_nil in Hg. }
  destruct (@ApplyBCs_Dirichlet_elimination Z_double one_cell_mesh
    [OPERATOR_BC_DIRICHLET; OPERATOR_BC_DIRICHLET]
    [5; 7]%Z [0; 0]%Z (fun _ v => v) (fun v => v) true one_cell_op 0 1 1
    Hfit ltac:(simpl; lia) eq_refl eq_refl)
    as (_ & Hcol & _ & _ & _ & _ & _ & _ & _ & Hzero & Hdiag & Hkeep & Hcell).
  intros result before A'. split_and!.
  - reflexivity.
  - exact (Hcol 0 ltac:(simpl; lia)).
  - exact (proj1 (Hzero 0 ltac:(simpl; lia) ltac:(lia))).
  - exact (proj2 (Hzero 0 ltac:(simpl; lia) ltac:(lia))).
  - exact (proj1 (Hzero 2 ltac:(simpl; lia) ltac:(lia))).
  - exact (proj2 (Hzero 2 ltac:(simpl; lia) ltac:(lia))).
  - exact Hdiag.
  - exact (Hkeep 2 2 ltac:(simpl; lia) ltac:(simpl; lia)
             ltac:(unfold met; simpl; lia) ltac:(unfold met; simpl; lia)).
  - exact Hcell.
Defined.

End Claim_ApplyBCs.

Section More_ApplyBCs.
Import DenseMatrix OperatorDiffusionMFD.

(** X3.  [ApplyBCs] keeps the local matrix of a cell as it was before the
    boundary conditions in [matrices_shadow]: once the loop over the faces
    of cell [c] is through, [matrices_shadow[c]] is the matrix
    [matrices[c]] held on entry if some face of [c] carries a Dirichlet or
    mixed condition; otherwise [matrices_shadow[c]] and [matrices[c]] are
    both unchanged.  The matrices of the other cells are not touched. *)
Theorem ApplyBCs_keeps_original_as_shadow `{Double} (mesh_ : Mesh)
    (bc_model : list BCModel) (bc_value bc_mixed : list double)
    (primary : bool) (c : nat) (op : Op) :
  c < length (matrices op) ->
  c < length (matrices_shadow op) ->
  let touched :=
    existsb (fun f => touches_matrix (bc_model_at bc_model f)) (cell_get_faces mesh_ c) in
  let op' := ApplyBCs_cell mesh_ bc_model bc_value bc_mixed primary c op in
  matrices_shadow op' !! c
  = (if touched then matrices op !! c else matrices_shadow op !! c) /\
  (touched = false -> matrices op' !! c = matrices op !! c) /\
  (forall c', c' <> c ->
     matrices op' !! c' = matrices op !! c' /\
     matrices_shadow op' !! c' = matrices_shadow op !! c').
Proof.
  intros Hc Hcs touched op'.
  destruct (lookup_lt_is_Some_2 _ _ Hc) as [A0 HA0].
  destruct (lookup_lt_is_Some_2 _ _ Hcs) as [S0 HS0].
  unfold op', ApplyBCs_cell. rewrite HA0, HS0. simpl.
  destruct (ApplyBCs_faces_shadow mesh_ bc_model bc_value bc_mixed primary c
              (cell_get_faces mesh_ c) A0 S0 (op_rhs_face op) (op_rhs_cell op))
    as [Hsh HA].
  fold touched in Hsh, HA.
  split_and!.
  - rewrite list_lookup_insert_eq by done. rewrite Hsh. by destruct touched.
  - intros Ht. rewrite list_lookup_insert_eq by done. by rewrite HA.
  - intros c' Hne. by rewrite !list_lookup_insert_ne.
Qed.

(** A Dirichlet condition on face 0 of the one-cell mesh: the matrix the
    operator held is found in [matrices_shadow] afterwards. *)
Lemma ApplyBCs_keeps_original_as_shadow_witness :
  @matrices_shadow Z_double
    (@ApplyBCs_cell Z_double one_cell_mesh [OPERATOR_BC_DIRICHLET; OPERATOR_BC_NONE]
       [5; 0]%Z [0; 0]%Z true 0 one_cell_op) !! 0
  = Some one_cell_Acell.
Proof.
  destruct (@ApplyBCs_keeps_original_as_shadow Z_double one_cell_mesh
              [OPERATOR_BC_DIRICHLET; OPERATOR_BC_NONE] [5; 0]%Z [0; 0]%Z true 0
              one_cell_op ltac:(simpl; lia) ltac:(simpl; lia)) as (Hsh & _).
  exact Hsh.
Defined.

End More_ApplyBCs.

(** ** Fallback between discretization variants *)

Section Claim_fallback.
Import DenseMatrix OperatorDiffusionMFD.

(** C2, as the code has it.  On a mesh that is not a surface mesh,
    [CreateMassMatrices_] runs for each cell
    - the primary variant and, when its status is not OK, the secondary
      variant, if the primary one is monotone-for-hexahedra or
      optimized-for-monotonicity;
    - the primary variant alone, whatever its status, otherwise.
    [UpdateMatricesNodal_] runs [StiffnessMatrixMMatrix] for the primary
    variant optimized-for-monotonicity and [StiffnessMatrix] for any other,
    and, when the status is not OK, [StiffnessMatrix] once more, whatever
    secondary variant is configured.
    In both functions the loop over the cells raises the fatal error exactly
    when some cell ends with the status FAILED.
    The secondary variant is one of the four [InitDiffusion_] accepts
    (lines 923-935), none of them monotone. *)
Theorem fallback_chain_and_fatal_error `{Double} (mesh_ : Mesh) (junk : nat -> double)
    (OK FAILED : Z) (Tensor : Type) (Tensor_unit Tensor_unit_2d : Tensor)
    (K_ : option (list Tensor))
    (mfd : MFD3D_Diffusion.Routine -> nat -> Tensor -> DenseMatrix -> Z * DenseMatrix)
    (mfd_primary_ mfd_secondary_ : DiffusionMethod)
    (surface_mesh scalar_rho_mu_ : bool) (rho_ mu_ : double) (rho_cv_ mu_cv_ : list double)
    (c : nat) (Kc : Tensor) (W0 : DenseMatrix) (Wff_cells_ matrices : list DenseMatrix) :
  OK <> FAILED ->
  is_monotone mfd_secondary_ = false ->
  let primary := routine_of mfd_primary_ in
  let secondary := routine_of mfd_secondary_ in
  let a := mass_matrix_attempt OK FAILED Tensor mfd mfd_primary_ mfd_secondary_ false
             c Kc W0 in
  let first := mfd primary c Kc W0 in
  let nodal_primary :=
    match mfd_primary_ with
    | DIFFUSION_OPTIMIZED_FOR_MONOTONICITY => MFD3D_Diffusion.StiffnessMatrixMMatrix
    | _ => MFD3D_Diffusion.StiffnessMatrix
    end in
  let b := stiffness_attempt OK FAILED Tensor mfd mfd_primary_ c Kc W0 in
  let nodal_first := mfd nodal_primary c Kc W0 in
  (is_monotone mfd_primary_ = true -> first.1 = OK ->
     calls a = [primary] /\ (ok a, Wff a) = first) /\
  (is_monotone mfd_primary_ = true -> first.1 <> OK ->
     calls a = [primary; secondary] /\ (ok a, Wff a) = mfd secondary c Kc first.2) /\
  (is_monotone mfd_primary_ = false ->
     calls a = [primary] /\ (ok a, Wff a) = first) /\
  (nodal_first.1 = OK ->
     calls b = [nodal_primary] /\ (ok b, Wff b) = nodal_first) /\
  (nodal_first.1 <> OK ->
     calls b = [nodal_primary; MFD3D_Diffusion.StiffnessMatrix] /\
     (ok b, Wff b) = mfd MFD3D_Diffusion.StiffnessMatrix c Kc nodal_first.2) /\
  ((CreateMassMatrices_ mesh_ junk OK FAILED Tensor Tensor_unit K_ mfd
      mfd_primary_ mfd_secondary_ surface_mesh scalar_rho_mu_ rho_ mu_ rho_cv_ mu_cv_
      Wff_cells_).2 = None
   <-> forall c', c' < ncells_owned mesh_ ->
         ok (mass_matrix_of_cell mesh_ junk OK FAILED Tensor Tensor_unit K_ mfd
               mfd_primary_ mfd_secondary_ surface_mesh c') <> FAILED) /\
  (nodal_thrown (UpdateMatricesNodal_ mesh_ junk OK FAILED Tensor K_ mfd
                   mfd_primary_ Tensor_unit_2d matrices) = None
   <-> forall c', c' < ncells_owned mesh_ ->
         ok (stiffness_of_cell mesh_ junk OK FAILED Tensor K_ mfd
               mfd_primary_ Tensor_unit_2d c') <> FAILED).
Proof.
  intros Hdiff Hsec primary secondary a first nodal_primary b nodal_first.
  assert (Z.eqb FAILED OK = false) as HFO by (apply Z.eqb_neq; congruence).
  subst a b first nodal_first primary secondary nodal_primary.
  unfold mass_matrix_attempt, stiffness_attempt, stiffness_first.
  split_and!.
  - intros Hmono Hok.
    destruct mfd_primary_; try discriminate; simpl in *;
      rewrite !run_eq; simpl; rewrite Hok, Z.eqb_refl; simpl;
      (split; [done|]); rewrite <- Hok; apply pair_eta.
  - intros Hmono Hnok.
    destruct mfd_primary_; try discriminate; simpl in *;
      rewrite !run_eq; simpl;
      match goal with |- context [Z.eqb ?x OK] =>
        destruct (Z.eqb_spec x OK) as [?|_]; [done|] end; simpl;
      destruct mfd_secondary_; try discriminate; simpl;
      rewrite ?run_eq; simpl; by rewrite pair_eta.
  - intros Hmono.
    destruct mfd_primary_; try discriminate; simpl; rewrite HFO; simpl;
      rewrite !run_eq; simpl; by rewrite pair_eta.
  - intros Hok.
    destruct mfd_primary_; simpl in *;
      rewrite !run_eq; simpl; rewrite Hok, Z.eqb_refl; simpl;
      (split; [done|]); rewrite <- Hok; apply pair_eta.
  - intros Hnok.
    destruct mfd_primary_; simpl in *;
      rewrite !run_eq; simpl;
      match goal with |- context [Z.eqb ?x OK] =>
        destruct (Z.eqb_spec x OK) as [?|_]; [done|] end; simpl;
      rewrite ?run_eq; simpl; by rewrite pair_eta.
  - apply CreateMassMatrices_thrown.
  - apply UpdateMatricesNodal_thrown.
Qed.

(** Optimized-for-monotonicity first, the support operator second, in a
    WhetStone where only the latter succeeds: both routines are run, in this
    order. *)
Lemma fallback_chain_and_fatal_error_witness :
  @calls Z_double
    (@mass_matrix_attempt Z_double code_OK code_FAILED unit only_SO_succeeds
       DIFFUSION_OPTIMIZED_FOR_MONOTONICITY DIFFUSION_SUPPORT_OPERATOR false
       0 tt one_cell_Wff)
  = [MFD3D_Diffusion.MassMatrixInverseMMatrix; MFD3D_Diffusion.MassMatrixInverseSO].
Proof.
  destruct (@fallback_chain_and_fatal_error Z_double one_cell_mesh (fun _ => 7%Z)
              code_OK code_FAILED unit tt tt None only_SO_succeeds
              DIFFUSION_OPTIMIZED_FOR_MONOTONICITY DIFFUSION_SUPPORT_OPERATOR
              false true 1%Z 1%Z [] [] 0 tt one_cell_Wff [] [])
    as (_ & Hfallback & _).
  - discriminate.
  - reflexivity.
  - apply Hfallback; [reflexivity | discriminate].
Defined.

(** C2, as stated, fails.  With the two-point flux approximation as primary
    variant and the support operator as secondary one, in a cell where the
    former fails and the latter would succeed, [CreateMassMatrices_] runs the
    primary routine only and raises the fatal error: the secondary variant
    is never tried.  In [UpdateMatricesNodal_], with the primary variant
    optimized-for-monotonicity failing, the matrix is recomputed with
    [StiffnessMatrix] and no routine of the secondary variant is run. *)
Lemma secondary_variant_not_tried :
  let attempt :=
    @mass_matrix_attempt Z_double code_OK code_FAILED unit only_SO_succeeds
      DIFFUSION_TPFA DIFFUSION_SUPPORT_OPERATOR false 0 tt one_cell_Wff in
  let nodal :=
    @stiffness_attempt Z_double code_OK code_FAILED unit only_SO_succeeds
      DIFFUSION_OPTIMIZED_FOR_MONOTONICITY 0 tt one_cell_Wff in
  (only_SO_succeeds (routine_of DIFFUSION_TPFA) 0 tt one_cell_Wff).1 = code_FAILED /\
  (only_SO_succeeds (routine_of DIFFUSION_SUPPORT_OPERATOR) 0 tt one_cell_Wff).1
  = code_OK /\
  @calls Z_double attempt = [MFD3D_Diffusion.MassMatrixInverseTPFA] /\
  (@CreateMassMatrices_ Z_double one_cell_mesh (fun _ => 7%Z)
     code_OK code_FAILED unit tt None only_SO_succeeds
     DIFFUSION_TPFA DIFFUSION_SUPPORT_OPERATOR false true 1%Z 1%Z [] [] []).2
  = Some "OperatorDiffusion: unexpected failure in WhetStone."%string /\
  @calls Z_double nodal
  = [MFD3D_Diffusion.StiffnessMatrixMMatrix; MFD3D_Diffusion.StiffnessMatrix].
Proof. repeat split. Qed.

End Claim_fallback.

(** ** Two-point flux approximation *)

Section Claim_TPFA.
Import DenseMatrix OperatorDiffusionMFD.

(** C3.  In [UpdateMatricesTPFA_], with [T] the accumulated face values:
    - a cell whose tensor [isZero()] is skipped by the accumulation, and no
      quotient is evaluated for it;
    - an owned face [f] with [T[f] == 0.0] receives the zero matrix and no
      quotient is evaluated for it;
    - whenever [1.0 / T[f]] is evaluated, [T[f] == 0.0] is false;
    - the quotients on record are all there are: [1.0 / Mff(n, n)], with
      [Mff] the matrix [MassMatrixInverseTPFA] fills for the cell, for every
      local face of every owned cell whose tensor is not zero, and
      [1.0 / T[f]] for every owned face with [T[f] == 0.0] false, whose
      matrix is built from that reciprocal.
    The half-transmissibilities [1.0 / Mff(n, n)] of the accumulation divide
    by entries of [MassMatrixInverseTPFA], computed for tensors that are not
    zero, and no comparison with zero stands before them. *)
Theorem TPFA_zero_transmissibility_never_inverted `{Double} (mesh_ : Mesh)
    (junk : nat -> double) (Tensor : Type) (Tensor_unit : Tensor)
    (isZero : Tensor -> bool) (K_ : option (list Tensor))
    (MassMatrixInverseTPFA : nat -> Tensor -> DenseMatrix -> DenseMatrix)
    (GatherGhostedToMaster : list double -> list double)
    (matrices : list DenseMatrix) :
  let Kc := Kc_of Tensor Tensor_unit K_ in
  let T := (transmissibilities mesh_ junk Tensor Tensor_unit isZero K_
              MassMatrixInverseTPFA GatherGhostedToMaster).1 in
  let r := UpdateMatricesTPFA_ mesh_ junk Tensor Tensor_unit isZero K_
             MassMatrixInverseTPFA GatherGhostedToMaster matrices in
  (forall c s, isZero (Kc c) = true ->
     accumulate_cell mesh_ junk Tensor Tensor_unit isZero K_ MassMatrixInverseTPFA c s = s) /\
  (forall c n x, (DivHalf c n, x) ∈ r.2 ->
     c < ncells_owned mesh_ /\ isZero (Kc c) = false /\
     x = get (MassMatrixInverseTPFA c (Kc c)
                (alloc junk (length (cell_get_faces mesh_ c))
                            (length (cell_get_faces mesh_ c)))) n n) /\
  (forall f, f < nfaces_owned mesh_ -> f < length matrices ->
     d_eqb (vec_get T f) d_zero = true ->
     r.1 !! f = Some (zero_face mesh_ junk f) /\
     forall x, (DivFace f, x) ∉ r.2) /\
  (forall f x, (DivFace f, x) ∈ r.2 ->
     f < nfaces_owned mesh_ /\ x = vec_get T f /\ d_eqb x d_zero = false) /\
  (forall c n, c < ncells_owned mesh_ -> isZero (Kc c) = false ->
     n < length (cell_get_faces mesh_ c) ->
     (DivHalf c n,
      get (MassMatrixInverseTPFA c (Kc c)
             (alloc junk (length (cell_get_faces mesh_ c))
                         (length (cell_get_faces mesh_ c)))) n n) ∈ r.2) /\
  (forall f, f < nfaces_owned mesh_ -> f < length matrices ->
     d_eqb (vec_get T f) d_zero = false ->
     r.1 !! f = Some (coef_face mesh_ junk f (vec_get T f)) /\
     (DivFace f, vec_get T f) ∈ r.2).
Proof.
  intros Kc T r.
  pose proof (transmissibilities_log mesh_ junk Tensor Tensor_unit isZero K_
                MassMatrixInverseTPFA GatherGhostedToMaster) as Hlog1.
  pose proof (transmissibilities_complete mesh_ junk Tensor Tensor_unit isZero K_
                MassMatrixInverseTPFA GatherGhostedToMaster) as Hall1.
  unfold r, T, UpdateMatricesTPFA_.
  destruct (transmissibilities _ _ _ _ _ _ _ _) as [Ttmp log1].
  simpl in Hlog1 |- *.
  destruct (populate_inv mesh_ junk Ttmp log1 matrices) as (Hlen & Hlog & Hzero).
  destruct (populate_complete mesh_ junk Ttmp log1 matrices) as (Hold & Hall & Hcoef & _).
  assert (forall f x, (DivFace f, x)
            ∈ (for_loop 0 (nfaces_owned mesh_)
                 (populate_face mesh_ junk Ttmp) (matrices, log1)).2 ->
          f < nfaces_owned mesh_ /\ x = vec_get Ttmp f /\ d_eqb x d_zero = false) as Hface.
  { intros f x He. destruct (Hlog _ He) as [He1|(f' & Hf' & Hnz & Heq)].
    - destruct (Hlog1 _ He1) as (c & n & _ & _ & Heq). discriminate.
    - injection Heq as -> ->. done. }
  split_and!.
  - intros c s Hz. unfold accumulate_cell. fold Kc. by rewrite Hz.
  - intros c n x He. destruct (Hlog _ He) as [He1|(f' & _ & _ & Heq)]; [|discriminate].
    destruct (Hlog1 _ He1) as (c' & n' & Hc' & Hz & Heq). injection Heq as -> -> ->. done.
  - intros f Hf Hfl Hz. split; [by apply Hzero|].
    intros x He. destruct (Hface f x He) as (_ & -> & Hnz). congruence.
  - done.
  - intros c n Hc Hz Hn. apply Hold. by apply Hall1.
  - intros f Hf Hfl Hnz. split; [by apply Hcoef | by apply Hall].
Qed.

(** A division by zero does occur while accumulating.  The tensor of the
    cell is not zero (it is 1 across face 1), the diagonal entry for face 0
    is [0.0], and line 499 evaluates [1.0 / 0.0]: the accumulated value of
    face 0 is infinity, which is not [0.0], so that line 520 stores
    [1.0 / inf = 0.0] as the matrix of the face. *)
Lemma TPFA_half_transmissibility_divides_by_zero :
  axis_tensor_isZero (PrimFloat.zero, PrimFloat.one) = false /\
  layered_UpdateMatricesTPFA.2
  = [(DivHalf 0 0, PrimFloat.zero); (DivHalf 0 1, PrimFloat.one);
     (DivFace 0, PrimFloat.infinity); (DivFace 1, PrimFloat.one)] /\
  (DivHalf 0 0, PrimFloat.zero) ∈ layered_UpdateMatricesTPFA.2 /\
  @d_div F_double PrimFloat.one PrimFloat.zero = PrimFloat.infinity /\
  layered_transmissibilities.1 = [PrimFloat.infinity; PrimFloat.one] /\
  layered_UpdateMatricesTPFA.1
  = [@DenseMatrix.mk F_double 1 1 [PrimFloat.zero];
     @DenseMatrix.mk F_double 1 1 [PrimFloat.one]].
Proof.
  assert (layered_UpdateMatricesTPFA.2
          = [(DivHalf 0 0, PrimFloat.zero); (DivHalf 0 1, PrimFloat.one);
             (DivFace 0, PrimFloat.infinity); (DivFace 1, PrimFloat.one)]) as Hlog
    by (vm_compute; reflexivity).
  split_and!.
  - vm_compute. reflexivity.
  - exact Hlog.
  - rewrite Hlog. by left.
  - vm_compute. reflexivity.
  - vm_compute. reflexivity.
  - vm_compute. reflexivity.
Qed.

End Claim_TPFA.

(** ** Saturation limiting *)

Section Claim_consistency.
Import Richards_PK.

(** C4 on the ring of four cells.  Saturations [1, 0, 0, 0] before the call,
    previous-step saturations [1, 3/4, 1/2, 0], no flux, unit time step,
    porosity and volumes.  The call returns [1, 3/4, 1/2, 0].  Cell 2 and its
    neighbours 1 and 3 all held 0 before the call, so the interval spanned by
    the values before the update is [0, 0] for cell 2; its new value 1/2 is
    outside.  The bounds the code applied to cell 2 were read from [ws] after
    cell 1 had been overwritten with 3/4. *)
Lemma ImproveAlgebraicConsistency_reads_updated_neighbours :
  let ws0 := [1 # 1; 0; 0; 0]%Q in
  let ws_prev := [1 # 1; 3 # 4; 1 # 2; 0]%Q in
  let flux := [0; 0; 0; 0]%Q in
  let phi := [1; 1; 1; 1]%Q in
  @ImproveAlgebraicConsistency Q_double ring_mesh ring_adj (fun v => v)
    (1 # 1)%Q phi flux ws_prev ws0
  = Some [1 # 1; 3 # 4; 1 # 2; 0]%Q /\
  @saturation_range Q_double ring_adj ws0 2 (cell_get_faces ring_mesh 2)
  = Some (0, 0)%Q /\
  @saturation_range Q_double ring_adj [1 # 1; 3 # 4; 0; 0]%Q 2 (cell_get_faces ring_mesh 2)
  = Some (0, 3 # 4)%Q /\
  ~ @within_neighbour_range Q_double ring_mesh ring_adj ws0 2 (1 # 2)%Q.
Proof.
  intros ws0 ws_prev flux phi. split_and!.
  - vm_compute. reflexivity.
  - vm_compute. reflexivity.
  - vm_compute. reflexivity.
  - intros [_ (c2 & w2 & Hin & Hval & Hle)].
    simpl in Hin.
    repeat (apply elem_of_cons in Hin as [->|Hin]);
      [| | | by apply elem_of_nil in Hin];
      vm_compute in Hval; injection Hval as <-; vm_compute in Hle; discriminate.
Qed.

End Claim_consistency.

(** ** The Richards kernel *)

Section Claim_Advance.
Import Richards_PK.



End Claim_Advance.

(** ** The DG mass matrix *)

Section Claim_MassMatrix.
Import DenseMatrix DG_Modal.

(** C6, as the code has it.  Both overloads of [DG_Modal::MassMatrix] fill
    [M] from the pairs [(k, l)] with [k <= l] only, storing the value
    computed for the pair in [M(k, l)] and in its mirror [M(l, k)].  The
    matrix so filled is the same for the two overloads and is symmetric bit
    for bit, as an identity of stored values: no law of arithmetic is used,
    and whatever the freshly reshaped storage held is overwritten.  It is
    not the matrix returned: that is its image under the basis'
    [BilinearFormNaturalToMy], and with the regularized basis the entry
    [(i, k)] of the result is [M(i, k) * a[k] * a[i]], the two scales
    applied column first. *)
Theorem MassMatrix_mirrored_then_rescaled `{Double} (junk : nat -> double) (d_ : nat)
    (monomials : list (list nat)) (MonomialSetPosition : list nat -> nat)
    (integrals : nat -> nat -> double) (K00 : double) :
  let nrows := length monomials in
  let entry := mass_entry d_ monomials MonomialSetPosition integrals K00 in
  let M0 := assemble d_ monomials MonomialSetPosition integrals K00
              (alloc junk nrows nrows) in
  (forall k l, k <= l -> l < nrows -> get M0 k l = entry k l /\ get M0 l k = entry k l) /\
  is_symmetric M0 /\
  (forall basis : DenseMatrix -> DenseMatrix,
     MassMatrix junk d_ monomials MonomialSetPosition integrals K00 basis = basis M0 /\
     MassMatrix_integrals junk d_ monomials MonomialSetPosition integrals K00 basis
     = basis M0) /\
  (forall (orders : list nat) (b : Basis_Regularized.t),
     let a := Basis_Regularized.position_scales orders nrows
                (Basis_Regularized.monomial_scales_ b) in
     let M := MassMatrix junk d_ monomials MonomialSetPosition integrals K00
                (Basis_Regularized.BilinearFormNaturalToMy orders b) in
     shape nrows nrows M /\
     forall k l, k <= l -> l < nrows ->
       get M k l = (entry k l * vec_get a l * vec_get a k)%D /\
       get M l k = (entry k l * vec_get a k * vec_get a l)%D).
Proof.
  intros nrows entry M0.
  pose proof (shape_alloc junk nrows nrows) as Hs.
  destruct (assemble_spec d_ monomials MonomialSetPosition integrals K00 _ Hs) as [HsM HM].
  pose proof (assemble_symmetric d_ monomials MonomialSetPosition integrals K00 _ Hs)
    as Hsym.
  fold nrows in HsM, HM. fold M0 in HsM, HM, Hsym.
  assert (forall k l, k <= l -> l < nrows ->
            get M0 k l = entry k l /\ get M0 l k = entry k l) as Hentries.
  { intros k l Hkl Hl. rewrite !HM by lia.
    rewrite Nat.min_l, Nat.max_r by lia. rewrite Nat.min_r, Nat.max_l by lia. done. }
  split_and!; try done.
  - intros basis. unfold MassMatrix, MassMatrix_integrals.
    by rewrite assemble_readback_eq.
  - intros orders b a M.
    destruct (BilinearFormNaturalToMy_spec orders b M0 nrows HsM) as [HsM' He].
    split; [done|].
    intros k l Hkl Hl. unfold M, MassMatrix. fold nrows M0. rewrite !He by lia.
    destruct (Hentries k l Hkl Hl) as [-> ->]. done.
Qed.

(** C6, as stated, fails on doubles.  For polynomials of degree at most 3 on
    a cell of length 0.1 with the regularized basis, [M(1, 3)] is
    [(I4 * 1000) * 10 = 0.00125] and [M(3, 1)] is
    [(I4 * 10) * 1000 = 0.0012499999999999998] for the same integral
    [I4 = 1.25e-7]: the matrix returned is symmetric up to rounding only. *)
Lemma MassMatrix_regularized_not_symmetric :
  @d_eqb F_double (@get F_double short_cell_MassMatrix 1 3)
                  (@get F_double short_cell_MassMatrix 3 1) = false /\
  @get F_double short_cell_MassMatrix 1 3 = F_ratio 1 800 /\
  ~ @is_symmetric F_double short_cell_MassMatrix.
Proof.
  assert (@d_eqb F_double (@get F_double short_cell_MassMatrix 1 3)
                          (@get F_double short_cell_MassMatrix 3 1) = false) as Hne
    by (vm_compute; reflexivity).
  split_and!; [exact Hne | vm_compute; reflexivity |].
  intros Hsym.
  rewrite (Hsym 1 3) in Hne by (vm_compute; lia).
  vm_compute in Hne. discriminate.
Qed.

End Claim_MassMatrix.

(** ** Face values derived from cell values *)

Section Claim_DeriveFaceValues.
Import Richards_PK.

(** C7.  [DeriveFaceValuesFromCellValues] gives every owned face [f] the
    arithmetic mean of the cell values of its owned cells -- their sum
    divided by their number -- when there is at least one, and the reference
    atmospheric pressure when there is none; the entries of the other faces
    are left as they were. *)
Theorem DeriveFaceValues_mean_or_atmospheric `{Double} (mesh_ : Mesh)
    (atm_pressure : double) (ucells ufaces : list double) :
  nfaces_owned mesh_ <= length ufaces ->
  let r := DeriveFaceValuesFromCellValues mesh_ atm_pressure ucells ufaces in
  length r = length ufaces /\
  (forall f, f < nfaces_owned mesh_ ->
     let cells := face_get_cells mesh_ OWNED f in
     let ncells := length cells in
     r !! f = Some (if Nat.ltb 0 ncells
                    then (d_sum ncells (fun n => vec_get ucells (id_at cells n))
                          / d_of_int (Z.of_nat ncells))%D
                    else atm_pressure)) /\
  (forall f, nfaces_owned mesh_ <= f -> r !! f = ufaces !! f).
Proof.
  intros Hlen r.
  pose (F := fun f =>
    let cells := face_get_cells mesh_ OWNED f in
    let ncells := length cells in
    if Nat.ltb 0 ncells
    then (d_sum ncells (fun n => vec_get ucells (id_at cells n))
          / d_of_int (Z.of_nat ncells))%D
    else atm_pressure).
  assert (r = for_loop 0 (nfaces_owned mesh_) (fun f l => <[f := F f]> l) ufaces) as ->.
  { unfold r, DeriveFaceValuesFromCellValues. apply for_loop_ext.
    intros f t _. unfold F, vec_set. simpl. by destruct (Nat.ltb 0 _). }
  split; [apply for_loop_insert_length|]. split.
  - intros f Hf cells ncells. rewrite for_loop_insert_lookup by lia.
    by rewrite decide_True by done.
  - intros f Hf. destruct (decide (f < length ufaces)) as [Hin|Hout].
    + rewrite for_loop_insert_lookup by done. by rewrite decide_False by lia.
    + rewrite !lookup_ge_None_2; [done | lia |].
      rewrite for_loop_insert_length. lia.
Qed.

(** Cell values 2 and 4: face 0, between the two cells, gets 3; face 1, with
    no owned cell, the atmospheric pressure; the ghost face keeps its 9. *)
Lemma DeriveFaceValues_mean_or_atmospheric_witness :
  @DeriveFaceValuesFromCellValues Q_double two_face_mesh
    (101325 # 1)%Q [2 # 1; 4 # 1]%Q [0; 0; 9 # 1]%Q
  = [3 # 1; 101325 # 1; 9 # 1]%Q.
Proof.
  destruct (@DeriveFaceValues_mean_or_atmospheric Q_double two_face_mesh
              (101325 # 1)%Q [2 # 1; 4 # 1]%Q [0; 0; 9 # 1]%Q) as (Hlen & Hown & Hrest).
  { simpl. lia. }
  apply list_eq. intros [|[|[|f]]].
  - rewrite (Hown 0) by (simpl; lia). vm_compute. reflexivity.
  - rewrite (Hown 1) by (simpl; lia). vm_compute. reflexivity.
  - rewrite (Hrest 2) by (simpl; lia). reflexivity.
  - rewrite (Hrest (S (S (S f)))) by (simpl; lia). reflexivity.
Defined.

End Claim_DeriveFaceValues.

(** ** The blocked Picard phase *)

Section Claim_Picard.
Import Richards_PK.

(** C8.  [CalculateFlowDt] and the blocked Picard phase.
    - When [ti_method] is Picard and [block_picard == 1], [CalculateFlowDt]
      multiplies the stored [dT] by 1e+4 and returns the product; in every
      other configuration it returns the stored [dT] and changes nothing.
    - The call of [Advance] that starts the phase (Picard, steady-state
      status, [num_itrs == 0]) sets [block_picard] to 1 right after
      [AdvanceToSteadyState] has returned and before [update_precon] is
      called; if that returns with the flag still set, no Picard step
      follows and the call returns 0.
    - In the phase (Picard, [block_picard == 1]) with [num_itrs] not 0, a
      call [Advance(dT_MPC)] is a pass-through: it calls nothing, returns 0,
      leaves the solution and what the collaborators work on alone, sets
      both [dT] and the suggested next step [dTnext] to [dT_MPC] and counts
      itself; the kernel stays in the phase.
    - So does every run of later calls until the counter, an [int] that
      wraps around, is back at 0: that takes [2^32 - num_itrs] calls
      ([- num_itrs] for a negative counter).
    - The call that finds the counter at 0 again runs lines 556-574 once
      more, that is [ComputeUDot] and [update_precon]; if they return and
      leave the kernel in the phase it again takes no Picard step, hands
      [dT] on to [dTnext] and returns 0 with the solution as those two left
      it. *)
Theorem Picard_block_inflates_dT_and_passes_through `{Double} (Env : Type)
    (ext : Collaborators Env) (s : PK Env) (dT_MPC : double) :
  let ctl := control s in
  let nu := numeric s in
  let blocked :=
    ti_method ctl = FLOW_TIME_INTEGRATION_PICARD /\ block_picard ctl = 1%Z in
  let s0 := entered ext dT_MPC s in
  let time := T_physics (numeric s0) in
  (blocked ->
     CalculateFlowDt s
     = ((dT nu * d_of_int 10000)%D,
        mkPK ctl (set_dT (dT nu * d_of_int 10000)%D nu))) /\
  (~ blocked -> CalculateFlowDt s = (dT nu, s)) /\
  (ti_method ctl = FLOW_TIME_INTEGRATION_PICARD ->
   flow_status_ ctl = FLOW_STATUS_STEADY_STATE_INIT ->
   num_itrs ctl = 0%Z ->
   forall udot s1 s2 s3,
     ComputeUDot ext time s0 = Some (udot, s1) -> control s1 = control s0 ->
     AdvanceToSteadyState ext s1 = Some s2 ->
     update_precon ext time (on_control (set_block_picard 1) s2) = Some s3 ->
     ti_method (control s3) = FLOW_TIME_INTEGRATION_PICARD ->
     block_picard (control s3) = 1%Z ->
     Advance ext dT_MPC s = Returned 0%Z (counted (handed_on s3)) /\
     solution (numeric (counted (handed_on s3))) = solution (numeric s3) /\
     ti_method (control (counted (handed_on s3))) = FLOW_TIME_INTEGRATION_PICARD /\
     block_picard (control (counted (handed_on s3))) = 1%Z) /\
  (blocked -> num_itrs ctl <> 0%Z ->
   let s' := passed_through ext dT_MPC s in
   Advance ext dT_MPC s = Returned 0%Z s' /\
   solution (numeric s') = solution nu /\
   env (numeric s') = env nu /\
   dT (numeric s') = dT_MPC /\
   dTnext (numeric s') = dT_MPC /\
   ti_method (control s') = FLOW_TIME_INTEGRATION_PICARD /\
   block_picard (control s') = 1%Z /\
   num_itrs (control s') = wrap_int (num_itrs ctl + 1)) /\
  (blocked -> is_int (num_itrs ctl) -> num_itrs ctl <> 0%Z ->
   forall dTs, (Z.of_nat (length dTs) <= calls_until_zero (num_itrs ctl))%Z ->
   exists s',
     Advance_all ext dTs s = Returned tt s' /\
     solution (numeric s') = solution nu /\
     env (numeric s') = env nu /\
     ti_method (control s') = FLOW_TIME_INTEGRATION_PICARD /\
     block_picard (control s') = 1%Z /\
     num_itrs (control s') = wrap_int (num_itrs ctl + Z.of_nat (length dTs)) /\
     (forall dT_last, last dTs = Some dT_last ->
        dT (numeric s') = dT_last /\ dTnext (numeric s') = dT_last)) /\
  (blocked -> num_itrs ctl = 0%Z ->
   flow_status_ ctl <> FLOW_STATUS_STEADY_STATE_INIT ->
   (ComputeUDot ext time s0 = None -> Advance ext dT_MPC s = Exception) /\
   (forall udot s1,
      ComputeUDot ext time s0 = Some (udot, s1) -> control s1 = control s0 ->
      (update_precon ext time s1 = None -> Advance ext dT_MPC s = Exception) /\
      (forall s2, update_precon ext time s1 = Some s2 ->
         ti_method (control s2) = FLOW_TIME_INTEGRATION_PICARD ->
         block_picard (control s2) = 1%Z ->
         Advance ext dT_MPC s = Returned 0%Z (counted (handed_on s2)) /\
         solution (numeric (counted (handed_on s2))) = solution (numeric s2) /\
         dTnext (numeric (counted (handed_on s2))) = dT (numeric s2) /\
         dT (numeric (counted (handed_on s2))) = dT (numeric s2)))).
Proof.
  intros ctl nu blocked s0 time.
  pose proof (Advance_entered ext dT_MPC s) as Hrun. cbv zeta in Hrun.
  fold s0 time in Hrun.
  assert (control s0 = ctl) as Hctl0 by apply control_entered.
  rewrite Hctl0 in Hrun.
  split_and!.
  - intros [Hti Hb]. unfold CalculateFlowDt. fold ctl nu. rewrite Hti, Hb. reflexivity.
  - intros Hnb. unfold CalculateFlowDt. fold ctl nu.
    destruct s as [c n]. simpl in *.
    destruct (ti_method ctl) eqn:Hti; try reflexivity.
    destruct (Z.eqb_spec (block_picard ctl) 1) as [Hb|Hne]; [|reflexivity].
    exfalso. by apply Hnb.
  - intros Hti Hst Hn udot s1 s2 s3 HU Hc1 HA HP Hti3 Hb3.
    rewrite Hctl0 in Hc1. rewrite Hn in Hrun. simpl in Hrun.
    split; [|done]. rewrite Hrun.
    rewrite (bind_returned _ _ s0 tt s3).
    + rewrite (bind_returned _ _ s3 tt (handed_on s3)).
      * apply Advance_count_spec.
      * apply Advance_step_blocked; [done | lia].
    + rewrite (Advance_init_steady ext time s0 udot s1 s2 HU);
        [| by rewrite Hc1 | by rewrite Hc1 | done].
      unfold call. by rewrite HP.
  - intros [Hti Hb] Hn s'. split; [|done].
    apply Advance_passes_through; [done | fold ctl; lia | done].
  - intros [Hti Hb] Hint Hn dTs Hlen.
    destruct (Advance_all_passes_through ext dTs s)
      as (s' & Hall & _ & Hsol & Henv & Hti' & Hb' & Hn' & Hlast);
      [done | fold ctl; lia | done | done | done |].
    exists s'. split_and!; try done. by rewrite Hb'.
  - intros [Hti Hb] Hn Hst. rewrite Hn in Hrun. simpl in Hrun. split.
    + intros Hthrow. rewrite Hrun. apply bind_threw. by apply Advance_init_throws.
    + intros udot s1 HU Hc1. rewrite Hctl0 in Hc1.
      pose proof (Advance_init_plain ext time s0 udot s1 HU) as Hinit.
      rewrite Hc1 in Hinit. specialize (Hinit ltac:(by left)).
      split.
      * intros HP. rewrite Hrun. apply bind_threw. rewrite Hinit.
        unfold call. by rewrite HP.
      * intros s2 HP Hti2 Hb2. split; [|done]. rewrite Hrun.
        rewrite (bind_returned _ _ s0 tt s2) by (rewrite Hinit; unfold call; by rewrite HP).
        rewrite (bind_returned _ _ s2 tt (handed_on s2)).
        -- apply Advance_count_spec.
        -- apply Advance_step_blocked; [done | lia].
Qed.

(** A kernel in the phase with a step length of 2 whose counter stands at
    [INT_MAX]: [CalculateFlowDt] returns 20000, and a call of [Advance]
    passes through and brings the counter to [INT_MIN]. *)
Lemma Picard_block_inflates_dT_and_passes_through_witness :
  @CalculateFlowDt Q_double unit blocked_kernel
  = ((20000 # 1)%Q,
     @mkPK Q_double unit (control blocked_kernel)
       (@mkNumeric Q_double unit [1 # 1]%Q (20000 # 1)%Q 0%Q 0%Q tt)) /\
  @Advance Q_double unit idle_collaborators (3 # 1)%Q blocked_kernel
  = Returned 0%Z
      (@mkPK Q_double unit
         (mkControl FLOW_STATUS_TRANSIENT_STATE_COMPLETE
            FLOW_TIME_INTEGRATION_PICARD (-2147483648)%Z 1%Z false false)
         (@mkNumeric Q_double unit [1 # 1]%Q (3 # 1)%Q (3 # 1)%Q 0%Q tt)).
Proof.
  destruct (@Picard_block_inflates_dT_and_passes_through Q_double unit
              idle_collaborators blocked_kernel (3 # 1)%Q)
    as (Hdt & _ & _ & Hpass & _).
  split.
  - exact (Hdt ltac:(split; reflexivity)).
  - exact (proj1 (Hpass ltac:(split; reflexivity) ltac:(discriminate))).
Defined.

End Claim_Picard.

(** ** Local matrices of the mixed discretization *)

Section Claim_row_sums.
Import DenseMatrix OperatorDiffusionMFD.

(** C9.  For every owned cell [c], the local matrix stored by the mixed
    matrix update -- [UpdateMatricesMixed_] for any upwind option, with or
    without the scaled constraint, and [UpdateMatricesMixedWithGrad_] -- is
    [(nfaces+1) x (nfaces+1)].  In every branch but the artificial-diffusion
    one, which adds to four entries afterwards, the cell-column entry of each
    face row is the negated sum [S] the code accumulated over the face
    entries of that row, so that the row sums to [S + (-S)]; no law of
    arithmetic is used for this.  That every row, the cell row included,
    sums to zero and that constant vectors are annihilated follows once the
    arithmetic of [double] is exact (the laws of a commutative ring); on
    binary64 the cell row closes only up to rounding. *)
Theorem mixed_update_rows_close_up_to_rounding `{Double}
    (mesh_ : Mesh) (upwind_ : Upwind) (scaled_constraint_ : bool)
    (junk : nat -> double) (k_cell : option (list double)) (k_face : list double)
    (k_twin : option (list double)) (Wff_cells_ : list DenseMatrix)
    (Wff_divk : nat -> DenseMatrix) (matrices : list DenseMatrix) (c : nat) :
  c < ncells_owned mesh_ -> c < length matrices ->
  let nfaces := length (cell_get_faces mesh_ c) in
  exists A1 A2,
    UpdateMatricesMixed_ mesh_ upwind_ scaled_constraint_ junk
      k_cell k_face k_twin Wff_cells_ matrices !! c = Some A1 /\
    UpdateMatricesMixedWithGrad_ mesh_ junk k_face k_twin Wff_divk matrices !! c
    = Some A2 /\
    shape (nfaces + 1) (nfaces + 1) A1 /\
    shape (nfaces + 1) (nfaces + 1) A2 /\
    (upwind_ <> OPERATOR_UPWIND_AMANZI_ARTIFICIAL_DIFFUSION ->
     forall n, n < nfaces ->
       get A1 n nfaces = (- d_sum nfaces (get A1 n))%D /\
       row_sum A1 n = (d_sum nfaces (get A1 n) + - d_sum nfaces (get A1 n))%D) /\
    (forall n, n < nfaces ->
       get A2 n nfaces = (- d_sum nfaces (get A2 n))%D /\
       row_sum A2 n = (d_sum nfaces (get A2 n) + - d_sum nfaces (get A2 n))%D) /\
    (ring_theory d_zero d_one d_add d_mul d_sub d_opp (@eq double) ->
     annihilates_constants nfaces A1 /\ annihilates_constants nfaces A2).
Proof.
  intros Hc Hlen nfaces.
  unfold UpdateMatricesMixed_, UpdateMatricesMixedWithGrad_.
  rewrite !for_loop_insert_lookup by done. rewrite !decide_True by done.
  eexists _, _. split; [done|]. split; [done|].
  set (Wff := default DenseMatrix.empty (Wff_cells_ !! c)).
  pose proof (UpdateMatricesMixed_cell_shape mesh_ upwind_ scaled_constraint_ junk
                k_cell k_face k_twin c Wff) as Hs1.
  pose proof (UpdateMatricesMixedWithGrad_cell_face_rows mesh_ junk k_face k_twin
                Wff_divk c) as Hf2.
  split_and!.
  - exact Hs1.
  - exact (proj1 Hf2).
  - intros Hart n Hn.
    pose proof (UpdateMatricesMixed_cell_face_rows mesh_ upwind_ scaled_constraint_ junk
                  k_cell k_face k_twin c Wff Hart) as Hf1.
    split; [by apply Hf1 | by apply face_row_sum].
  - intros n Hn. split; [by apply Hf2 | by apply face_row_sum].
  - intros Dring. unfold annihilates_constants.
    destruct (UpdateMatricesMixed_cell_rows Dring mesh_ upwind_ scaled_constraint_ junk
                k_cell k_face k_twin c Wff) as [Hr1 Hz1].
    destruct (UpdateMatricesMixedWithGrad_cell_rows Dring mesh_ junk k_face k_twin
                Wff_divk c) as [Hr2 Hz2].
    destruct (zero_row_sums_consequences Dring _ _ Hr1 Hz1) as [Hq1 Hn1].
    destruct (zero_row_sums_consequences Dring _ _ Hr2 Hz2) as [Hq2 Hn2].
    done.
Qed.

(** The one-cell mesh over binary64 with flux upwinding: the face row 0.1
    0.1 closes with -0.2 and sums to [0.2 + (-0.2)]. *)
Lemma mixed_update_rows_close_up_to_rounding_witness :
  exists A1,
    flux_cell_matrices !! 0 = Some A1 /\
    @shape F_double 3 3 A1 /\
    @get F_double A1 0 2 = PrimFloat.opp (F_ratio 2 10) /\
    @row_sum F_double A1 0 = PrimFloat.add (F_ratio 2 10) (PrimFloat.opp (F_ratio 2 10)).
Proof.
  destruct (@mixed_update_rows_close_up_to_rounding F_double flux_cell_mesh
              OPERATOR_UPWIND_FLUX false (fun _ => PrimFloat.zero) None flux_cell_k_face
              None [flux_cell_Wff] (fun _ => flux_cell_Wff)
              [@DenseMatrix.empty F_double] 0)
    as (A1 & A2 & H1 & _ & Hs & _ & Hrow & _); [simpl; lia | simpl; lia |].
  exists A1. split; [exact H1|]. split; [exact Hs|].
  destruct (Hrow ltac:(discriminate) 0 ltac:(simpl; lia)) as [Hcol Hsum].
  vm_compute in H1. injection H1 as <-.
  split.
  - etransitivity; [exact Hcol|]. vm_compute. reflexivity.
  - etransitivity; [exact Hsum|]. vm_compute. reflexivity.
Defined.

(** On binary64 the rows do not all sum to zero.  One cell with two faces,
    inverse mass matrix 1 1 / 1 0.5, flux upwinding with face coefficients
    0.1 and 1, constraint not scaled: the matrix is 0.1 0.1 -0.2 / 1 0.5 -1.5 /
    -1.1 -0.6 1.7, and the cell row, summed from left to right, gives
    -2.220446049250313e-16 = -2^-52 and not 0. *)
Lemma mixed_update_cell_row_sum_not_zero :
  exists A,
    flux_cell_matrices !! 0 = Some A /\
    @row_sum F_double A 0 = PrimFloat.zero /\
    @row_sum F_double A 1 = PrimFloat.zero /\
    @row_sum F_double A 2 = PrimFloat.opp (F_ratio 1 4503599627370496) /\
    @d_eqb F_double (@row_sum F_double A 2) PrimFloat.zero = false /\
    ~ @zero_row_sums F_double A /\
    ~ @annihilates_constants F_double 2 A.
Proof.
  eexists. split; [vm_compute; reflexivity|].
  assert (forall x : PrimFloat.float,
            x = PrimFloat.opp (F_ratio 1 4503599627370496) ->
            x <> PrimFloat.zero) as Hne.
  { intros x -> Heq.
    assert (PrimFloat.eqb (PrimFloat.opp (F_ratio 1 4503599627370496))
              PrimFloat.zero = true) as Hb by (rewrite Heq; vm_compute; reflexivity).
    vm_compute in Hb. discriminate. }
  assert (forall A : @DenseMatrix F_double,
            @DenseMatrix.NumRows F_double A = 3 ->
            @row_sum F_double A 2 = PrimFloat.opp (F_ratio 1 4503599627370496) ->
            ~ @zero_row_sums F_double A) as Hrows.
  { intros A Hr Hs Hz. apply (Hne _ Hs). apply Hz. rewrite Hr. lia. }
  split_and!.
  - vm_compute. reflexivity.
  - vm_compute. reflexivity.
  - vm_compute. reflexivity.
  - vm_compute. reflexivity.
  - apply Hrows; vm_compute; reflexivity.
  - intros (_ & Hz & _). revert Hz. apply Hrows; vm_compute; reflexivity.
Qed.

(** X4.  How the rows are built when the constraint is not scaled and the
    upwind option is none, flux or second-order (lines 329-349): the face
    block holds [Wff(n, m) * kf[n]], the cell-column entry of a face row is
    the negated sum of the row's face entries, the cell row holds the negated
    column sums of the face block and the diagonal entry of the cell row the
    sum of all its entries.  The sums are those the code accumulates, in its
    order, so that no law of arithmetic is needed. *)
Theorem mixed_update_cell_row_from_column_sums `{Double} (mesh_ : Mesh)
    (upwind_ : Upwind) (junk : nat -> double) (k_cell : option (list double))
    (k_face : list double) (k_twin : option (list double)) (c : nat) (Wff : DenseMatrix) :
  upwind_ <> OPERATOR_UPWIND_AMANZI_DIVK ->
  upwind_ <> OPERATOR_UPWIND_AMANZI_ARTIFICIAL_DIFFUSION ->
  let faces := cell_get_faces mesh_ c in
  let nfaces := length faces in
  let kf := mixed_kf mesh_ upwind_ k_cell k_face k_twin c faces in
  let A := UpdateMatricesMixed_cell mesh_ upwind_ false junk k_cell k_face k_twin c Wff in
  (forall n m, n < nfaces -> m < nfaces -> get A n m = (get Wff n m * vec_get kf n)%D) /\
  (forall n, n < nfaces -> get A n nfaces = (- d_sum nfaces (get A n))%D) /\
  (forall n, n < nfaces -> get A nfaces n = (- d_sum nfaces (fun m => get A m n))%D) /\
  get A nfaces nfaces = d_sum nfaces (fun n => d_sum nfaces (get A n)).
Proof.
  intros Hdivk Hart faces nfaces kf A.
  assert (A = fill_not_scaled nfaces Wff kf (alloc junk (nfaces + 1) (nfaces + 1))) as ->.
  { unfold A, UpdateMatricesMixed_cell. fold faces nfaces kf.
    destruct upwind_; simpl; done. }
  apply fill_not_scaled_entries. apply shape_alloc.
Qed.

(** Flux upwinding on the one-cell mesh: face block 10 2 / 3 12, cell column
    -12 -15, cell row -13 -14, corner 27. *)
Lemma mixed_update_cell_row_from_column_sums_witness :
  let A := @UpdateMatricesMixed_cell Z_double one_cell_mesh OPERATOR_UPWIND_FLUX false
             (fun _ => 7%Z) None [2; 3]%Z None 0 one_cell_Wff in
  @get Z_double A 2 0 = (- (0 + @get Z_double A 0 0 + @get Z_double A 1 0))%Z /\
  A = one_cell_Acell.
Proof.
  destruct (@mixed_update_cell_row_from_column_sums Z_double one_cell_mesh
              OPERATOR_UPWIND_FLUX (fun _ => 7%Z) None [2; 3]%Z None 0 one_cell_Wff)
    as (_ & _ & Hcol & _); [discriminate | discriminate |].
  intros A. split; [exact (Hcol 0 ltac:(simpl; lia)) | reflexivity].
Defined.

End Claim_row_sums.

(** ** Flux reconstruction *)

Section Claim_UpdateFlux.
Import DenseMatrix OperatorDiffusionMFD.

(** C10.  [UpdateFlux] writes the flux entry of an owned face [f] exactly
    once.  If local face [n] of owned cell [c] is the first place where [f]
    occurs, cells taken in ascending order, the entry ends up as
    [0 - av(n) * dirs[n]], where [av] is the product of the local vector of
    [c] with [matrices_shadow[c]] when that matrix has rows and with
    [matrices[c]] otherwise; cells that come later and share [f] neither
    overwrite nor add to it.  An owned face of no owned cell keeps 0 and is
    never written.  The result does not depend on what [flux] held before
    the call, so repeating the call reproduces the same vector. *)
Theorem UpdateFlux_writes_each_face_once `{Double} (mesh_ : Mesh)
    (matrices matrices_shadow : list DenseMatrix) (u_cell u_face flux : list double)
    (f c n : nat) :
  let run := UpdateFlux mesh_ matrices matrices_shadow u_cell u_face in
  let w := UpdateFlux_work mesh_ matrices matrices_shadow u_cell u_face flux in
  let Ashadow := default DenseMatrix.empty (matrices_shadow !! c) in
  let M := if Nat.eqb (NumRows Ashadow) 0
           then default DenseMatrix.empty (matrices !! c) else Ashadow in
  let av := Multiply M (local_v mesh_ u_cell u_face c) in
  nfaces_owned mesh_ <= nfaces_wghost mesh_ ->
  nfaces_owned mesh_ <= length flux ->
  f < nfaces_owned mesh_ ->
  first_visit mesh_ f c n ->
  run flux !! f
    = Some (d_zero - vec_get av n * d_of_int (dir_at (cell_get_dirs mesh_ c) n))%D /\
  write_count f w = 1 /\
  (forall g, g < nfaces_owned mesh_ ->
     (forall c' n', c' < ncells_owned mesh_ -> cell_get_faces mesh_ c' !! n' <> Some g) ->
     run flux !! g = Some d_zero /\ write_count g w = 0) /\
  (forall flux', length flux' = length flux -> run flux' = run flux) /\
  run (run flux) = run flux.
Proof.
  intros run w Ashadow M av Hghost Hflux Hf Hfirst.
  destruct (UpdateFlux_first_visit mesh_ matrices matrices_shadow u_cell u_face
              (length flux) Hghost Hflux flux f c n eq_refl Hf Hfirst) as [Hval Hcount].
  assert (forall flux', length flux' = length flux -> run flux' = run flux) as Hindep.
  { intros flux' Hlen. unfold run, UpdateFlux, UpdateFlux_work. by rewrite Hlen. }
  split_and!; try done.
  - unfold run, UpdateFlux. rewrite Hval.
    unfold local_flux, local_av.
    unfold av, M, Ashadow. by destruct (Nat.eqb _ 0).
  - intros g Hg Hno.
    by apply (UpdateFlux_never_visited mesh_ matrices matrices_shadow u_cell u_face
                (length flux) Hghost Hflux).
  - apply Hindep.
    by apply (UpdateFlux_length mesh_ matrices matrices_shadow u_cell u_face
                (length flux) Hghost Hflux).
Qed.

(** The one-cell mesh again: local vector (2, 3, 1), no shadow matrix. *)
Lemma UpdateFlux_writes_each_face_once_witness :
  @UpdateFlux Z_double one_cell_mesh [one_cell_Acell]
    [@DenseMatrix.empty Z_double] [1]%Z [2; 3]%Z [9; 9]%Z !! 0 = Some 14%Z /\
  @write_count Z_double 0
    (@UpdateFlux_work Z_double one_cell_mesh [one_cell_Acell]
       [@DenseMatrix.empty Z_double] [1]%Z [2; 3]%Z [9; 9]%Z) = 1.
Proof.
  destruct (@UpdateFlux_writes_each_face_once Z_double one_cell_mesh [one_cell_Acell]
              [@DenseMatrix.empty Z_double] [1]%Z [2; 3]%Z [9; 9]%Z 0 0 0)
    as (Hval & Hcount & _).
  - simpl. lia.
  - simpl. lia.
  - simpl. lia.
  - split; [simpl; lia|]. split; [reflexivity|]. intros c' n' Hbefore. lia.
  - split; [exact Hval | exact Hcount].
Defined.

End Claim_UpdateFlux.

(* ===================================================================== *)
(** * Part IV. Further properties of the code                             *)
(* ===================================================================== *)

(** ** The regularized basis *)

Section More_Basis_Regularized.
Import DenseMatrix Basis_Regularized.

(** X5.  [Basis_Regularized::BilinearFormNaturalToMy] multiplies the entry
    [A(i, k)] by the scale of position [k] and then by the scale of position
    [i], each entry once.  Where the product does not depend on the order of
    its factors -- [(x * y) * z = (x * z) * y], which rounded arithmetic
    does not promise -- a symmetric matrix stays symmetric. *)
Theorem BilinearFormNaturalToMy_scales_entries `{Double} (orders : list nat)
    (b : Basis_Regularized.t) (A : DenseMatrix) :
  let n := NumRows A in
  let a := position_scales orders n (monomial_scales_ b) in
  let A' := BilinearFormNaturalToMy orders b A in
  shape n n A ->
  shape n n A' /\
  (forall i k, i < n -> k < n -> get A' i k = (get A i k * vec_get a k * vec_get a i)%D) /\
  ((forall x y z : double, (x * y * z = x * z * y)%D) ->
   is_symmetric A -> is_symmetric A').
Proof.
  intros n a A' Hs.
  destruct (BilinearFormNaturalToMy_spec orders b A n Hs) as [Hs' He].
  split; [done|]. split; [done|].
  intros Hmul Hsym k l Hk Hl.
  destruct Hs' as (Hr' & _). fold A' in Hr'. rewrite Hr' in Hk, Hl.
  unfold A'. rewrite !He by done.
  rewrite (Hsym k l) by done. apply Hmul.
Qed.

(** Degrees 0 and 1 in one variable with scales 1 and 3: the matrix
    2 5 / 5 7 becomes 2 15 / 15 63. *)
Lemma BilinearFormNaturalToMy_scales_entries_witness :
  @BilinearFormNaturalToMy Z_double [0; 1] (@Basis_Regularized.mk Z_double 1 1 [1; 3]%Z)
    (@DenseMatrix.mk Z_double 2 2 [2; 5; 5; 7]%Z)
  = @DenseMatrix.mk Z_double 2 2 [2; 15; 15; 63]%Z /\
  @is_symmetric Z_double
    (@BilinearFormNaturalToMy Z_double [0; 1] (@Basis_Regularized.mk Z_double 1 1 [1; 3]%Z)
       (@DenseMatrix.mk Z_double 2 2 [2; 5; 5; 7]%Z)).
Proof.
  split; [reflexivity|].
  destruct (@BilinearFormNaturalToMy_scales_entries Z_double [0; 1]
              (@Basis_Regularized.mk Z_double 1 1 [1; 3]%Z)
              (@DenseMatrix.mk Z_double 2 2 [2; 5; 5; 7]%Z)) as (_ & _ & Hsym).
  - repeat split.
  - apply Hsym.
    + intros x y z. simpl. lia.
    + intros [|[|k]] [|[|l]] Hk Hl; simpl in Hk, Hl; try lia; reflexivity.
Defined.

(** X8.  [Basis_Regularized::Init] only ever extends the table of scales:
    the entries it already holds are kept as they are, whatever cell volume
    or dimension the new call brings, the new ones up to [order] are
    [pow(volume, -k / d)], and a call whose order is already covered changes
    nothing at all. *)
Theorem Init_only_extends `{Double} (pow : double -> double -> double)
    (space_dimension : nat) (volume : double) (order : nat) (b : Basis_Regularized.t) :
  let k0 := length (monomial_scales_ b) in
  let b' := Init pow space_dimension volume order b in
  length (monomial_scales_ b') = k0 `max` (order + 1) /\
  (forall k, k < k0 -> monomial_scales_ b' !! k = monomial_scales_ b !! k) /\
  (forall k, k0 <= k <= order ->
     monomial_scales_ b' !! k
     = Some (pow volume (- d_of_int (Z.of_nat k) / d_of_int (Z.of_nat space_dimension))%D)) /\
  (order < k0 -> b' = b) /\
  (forall order', order' <= order ->
     Init pow space_dimension volume order' b' = b').
Proof.
  intros k0 b'.
  assert (order < k0 -> b' = b) as Hsame.
  { intros Hlt. unfold b', Init. fold k0.
    destruct (Nat.ltb_spec k0 (order + 1)); [lia | done]. }
  destruct (decide (order < k0)) as [Hlt|Hge].
  - rewrite (Hsame Hlt). split_and!; try done.
    + fold k0. lia.
    + intros k Hk. lia.
    + intros order' Hle. unfold Init. fold k0.
      destruct (Nat.ltb_spec k0 (order' + 1)); [lia | done].
  - set (F := fun k => (pow volume
               (- d_of_int (Z.of_nat k) / d_of_int (Z.of_nat space_dimension)))%D).
    destruct (vec_update_loop k0 (order + 1) (fun k _ => F k)
                (resize (order + 1) d_zero (monomial_scales_ b))) as [Hlen Hget].
    assert (monomial_scales_ b'
            = for_loop k0 (order + 1) (fun k v => vec_set v k (F k))
                (resize (order + 1) d_zero (monomial_scales_ b))) as Hb'.
    { unfold b', Init. fold k0. destruct (Nat.ltb_spec k0 (order + 1)); [done | lia]. }
    rewrite length_resize in Hlen, Hget.
    assert (length (monomial_scales_ b') = order + 1) as Hlen' by (by rewrite Hb').
    assert (forall k, k < order + 1 ->
              monomial_scales_ b' !! k
              = Some (if decide (k0 <= k) then F k
                      else vec_get (resize (order + 1) d_zero (monomial_scales_ b)) k))
      as Hlook.
    { intros k Hk. specialize (Hget k Hk). rewrite <- Hb' in Hget.
      unfold vec_get in Hget at 1.
      destruct (lookup_lt_is_Some_2 (monomial_scales_ b') k ltac:(lia)) as [x Hx].
      rewrite Hx in Hget |- *. simpl in Hget. rewrite Hget.
      repeat case_decide; try done; lia. }
    split_and!.
    + rewrite Hlen'. lia.
    + intros k Hk. rewrite Hlook by lia. rewrite decide_False by lia.
      unfold vec_get. rewrite lookup_resize by lia.
      destruct (lookup_lt_is_Some_2 (monomial_scales_ b) k Hk) as [x Hx].
      by rewrite Hx.
    + intros k Hk. rewrite Hlook by lia. by rewrite decide_True by lia.
    + done.
    + intros order' Hle. unfold Init. rewrite Hlen'.
      destruct (Nat.ltb_spec (order + 1) (order' + 1)); [lia | done].
Qed.

End More_Basis_Regularized.

(** ** The DG stiffness and penalty matrices *)

Section More_DG_Modal.
Import DenseMatrix DG_Modal.

(** X10.  [DG_Modal::StiffnessMatrix] fills [A] from the pairs [k <= l] and
    mirrors each value, so the matrix it hands to the basis is symmetric
    entry for entry and nothing of the freshly reshaped storage is left in
    it.  The row and the column of a monomial in which no variable occurs
    (the constant) are [0.0] exactly: the sum for such a pair is never added
    to. *)
Theorem StiffnessMatrix_symmetric_and_kills_constants `{Double} (junk : nat -> double)
    (d_ : nat) (monomials : list (list nat)) (MonomialSetPosition : list nat -> nat)
    (integrals : nat -> nat -> double) (Ktmp : nat -> nat -> double)
    (BilinearFormNaturalToMy : DenseMatrix -> DenseMatrix) :
  let nrows := length monomials in
  let A0 := stiffness_assemble d_ monomials MonomialSetPosition integrals Ktmp
              (alloc junk nrows nrows) in
  StiffnessMatrix junk d_ monomials MonomialSetPosition integrals Ktmp
    BilinearFormNaturalToMy = BilinearFormNaturalToMy A0 /\
  shape nrows nrows A0 /\
  is_symmetric A0 /\
  (forall k l, k <= l -> l < nrows ->
     get A0 k l = stiffness_entry d_ monomials MonomialSetPosition integrals Ktmp k l /\
     get A0 l k = get A0 k l) /\
  (forall k, k < nrows ->
     (forall i, i < d_ -> id_at (multi_index_of monomials k) i = 0) ->
     forall l, l < nrows -> get A0 k l = d_zero /\ get A0 l k = d_zero).
Proof.
  intros nrows A0.
  destruct (stiffness_assemble_spec d_ monomials MonomialSetPosition integrals Ktmp
              (alloc junk nrows nrows) (shape_alloc junk nrows nrows)) as [Hs He].
  fold A0 in Hs, He. split_and!.
  - done.
  - done.
  - destruct Hs as (Hr & _). intros k l Hk Hl. rewrite Hr in Hk, Hl.
    rewrite !He by done. by rewrite Nat.min_comm, Nat.max_comm.
  - intros k l Hkl Hl. rewrite !He by lia.
    rewrite Nat.min_l, Nat.max_r by lia. rewrite Nat.min_r, Nat.max_l by lia. done.
  - intros k Hk Hconst l Hl. rewrite !He by done.
    destruct (decide (k <= l)) as [Hle|Hgt].
    + rewrite Nat.min_l, Nat.max_r by lia. rewrite Nat.min_r, Nat.max_l by lia.
      split; by apply stiffness_entry_constant_l.
    + rewrite Nat.min_r, Nat.max_l by lia. rewrite Nat.min_l, Nat.max_r by lia.
      split; by apply stiffness_entry_constant_r.
Qed.

(** X11.  [DG_Modal::FaceMatrixPenalty] assigns every entry of the matrix
    it reshapes, so nothing of the old storage survives: on a boundary face
    the single block [Kf * coef00], on an interior face the four blocks
    [Kf * coef00], [- Kf * coef01], its mirror image and [Kf * coef11].  The
    two off-diagonal blocks hold the same values, so the matrix handed to
    the basis is symmetric whenever the face integrals [coef00] and [coef11]
    do not depend on the order of their two monomials. *)
Theorem FaceMatrixPenalty_blocks_and_symmetry `{Double} (junk : nat -> double)
    (size : nat) (coef00 coef01 coef11 : nat -> nat -> double) (Kf : double)
    (basis_cell basis_interface : DenseMatrix -> DenseMatrix) :
  let Ab := penalty_fill size 1 coef00 coef01 coef11 Kf (alloc junk (1 * size) (1 * size)) in
  let Ai := penalty_fill size 2 coef00 coef01 coef11 Kf (alloc junk (2 * size) (2 * size)) in
  FaceMatrixPenalty junk size 1 coef00 coef01 coef11 Kf basis_cell basis_interface
  = basis_cell Ab /\
  FaceMatrixPenalty junk size 2 coef00 coef01 coef11 Kf basis_cell basis_interface
  = basis_interface Ai /\
  shape size size Ab /\ shape (2 * size) (2 * size) Ai /\
  (forall k l, k < size -> l < size -> get Ab k l = (Kf * coef00 k l)%D) /\
  (forall k l, k < size -> l < size ->
     get Ai k l = (Kf * coef00 k l)%D /\
     get Ai k (size + l) = (- Kf * coef01 k l)%D /\
     get Ai (size + l) k = (- Kf * coef01 k l)%D /\
     get Ai (size + k) (size + l) = (Kf * coef11 k l)%D) /\
  ((forall k l, coef00 k l = coef00 l k) -> (forall k l, coef11 k l = coef11 l k) ->
   is_symmetric Ab /\ is_symmetric Ai).
Proof.
  intros Ab Ai.
  assert (shape size size (alloc junk (1 * size) (1 * size))) as Hs1.
  { rewrite Nat.mul_1_l. apply shape_alloc. }
  destruct (penalty_fill_boundary size coef00 coef01 coef11 Kf _ Hs1) as [HsB HB].
  destruct (penalty_fill_interface size coef00 coef01 coef11 Kf _
              (shape_alloc junk (2 * size) (2 * size))) as [HsI HI].
  fold Ab in HsB, HB. fold Ai in HsI, HI.
  split_and!; try done.
  - intros k l Hk Hl. split_and!.
    + rewrite HI by lia. by rewrite !decide_True by done.
    + rewrite HI by lia. rewrite decide_True by done. rewrite decide_False by lia.
      by replace (size + l - size) with l by lia.
    + rewrite HI by lia. rewrite decide_False by lia. rewrite decide_True by done.
      by replace (size + l - size) with l by lia.
    + rewrite HI by lia. rewrite !decide_False by lia.
      replace (size + k - size) with k by lia.
      by replace (size + l - size) with l by lia.
  - intros H00 H11. split.
    + destruct HsB as (Hr & _). intros k l Hk Hl. rewrite Hr in Hk, Hl.
      rewrite !HB by done. by rewrite (H00 k l).
    + destruct HsI as (Hr & _). intros k l Hk Hl. rewrite Hr in Hk, Hl.
      rewrite !HI by done.
      repeat case_decide; try lia; try done.
      * by rewrite (H00 k l).
      * by rewrite (H11 (k - size) (l - size)).
Qed.

(** X12.  The two-basis [Basis_Regularized::BilinearFormNaturalToMy]
    multiplies every entry of the matrix of an interface, once, by the scale
    of its row and the scale of its column, the scales of the first basis
    for the first half of the positions and of the second basis for the
    second half.  Where the product does not depend on the order of its
    factors a symmetric matrix stays symmetric. *)
Theorem BilinearFormNaturalToMy_interface_scales `{Double} (orders : list nat)
    (bll brr : Basis_Regularized.t) (A : DenseMatrix) (m : nat) :
  let a1 := Basis_Regularized.position_scales orders m
              (Basis_Regularized.monomial_scales_ bll) in
  let a2 := Basis_Regularized.position_scales orders m
              (Basis_Regularized.monomial_scales_ brr) in
  let scale := Basis_Regularized.side_scale m a1 a2 in
  let A' := Basis_Regularized.BilinearFormNaturalToMy_interface orders bll brr A in
  shape (2 * m) (2 * m) A ->
  shape (2 * m) (2 * m) A' /\
  (forall r c, r < 2 * m -> c < 2 * m ->
     get A' r c = if decide (r < m /\ c < m) then (get A r c * scale c * scale r)%D
                  else (get A r c * scale r * scale c)%D) /\
  ((forall x y z : double, (x * y * z = x * z * y)%D) ->
   is_symmetric A -> is_symmetric A').
Proof.
  intros a1 a2 scale A' Hs.
  destruct (BilinearFormNaturalToMy_interface_spec orders bll brr A m Hs) as [Hs' He].
  split_and!; try done.
  intros Hmul Hsym.
  by apply (BilinearFormNaturalToMy_interface_keeps_symmetry orders Hmul bll brr A m).
Qed.

(** One position on either side, with the scales 2 and 3. *)
Lemma BilinearFormNaturalToMy_interface_scales_witness :
  @Basis_Regularized.BilinearFormNaturalToMy_interface Z_double [0]
    (@Basis_Regularized.mk Z_double 0 1 [2]%Z) (@Basis_Regularized.mk Z_double 0 1 [3]%Z)
    (@DenseMatrix.mk Z_double 2 2 [1; 5; 5; 7]%Z)
  = @DenseMatrix.mk Z_double 2 2 [4; 30; 30; 63]%Z /\
  @shape Z_double 2 2
    (@Basis_Regularized.BilinearFormNaturalToMy_interface Z_double [0]
       (@Basis_Regularized.mk Z_double 0 1 [2]%Z) (@Basis_Regularized.mk Z_double 0 1 [3]%Z)
       (@DenseMatrix.mk Z_double 2 2 [1; 5; 5; 7]%Z)).
Proof.
  split; [reflexivity|].
  apply (@BilinearFormNaturalToMy_interface_scales Z_double [0]
           (@Basis_Regularized.mk Z_double 0 1 [2]%Z)
           (@Basis_Regularized.mk Z_double 0 1 [3]%Z)
           (@DenseMatrix.mk Z_double 2 2 [1; 5; 5; 7]%Z) 1).
  repeat split.
Defined.

End More_DG_Modal.


Section More_OperatorDiffusionMFD.
Import DenseMatrix OperatorDiffusionMFD.

(** X14.  [ApplyBCs] on the CELL system (one matrix per face) goes once over
    the owned faces.  A Dirichlet face and a face without condition keep
    their matrix and their shadow copy; a Neumann face has its matrix saved
    as shadow copy and multiplied by zero; a mixed face has its matrix saved
    and its entry (0, 0) replaced by [bc_mixed * factor] with
    [factor = area / (1 + bc_mixed * area / Aface(0, 0))].  Faces that are
    not owned, the number of matrices and the "face" part of the right-hand
    side are untouched, and the right-hand side of a cell changes only
    through a face with a condition whose first cell it is. *)
Theorem ApplyBCs_Cell_per_face `{Double} (mesh_ : Mesh)
    (bc_model : list BCModel) (bc_value bc_mixed : list double) (op : Op) :
  let op' := ApplyBCs_Cell mesh_ bc_model bc_value bc_mixed op in
  let nfaces_owned := nfaces_owned mesh_ in
  (forall f Aface, f < nfaces_owned -> matrices op !! f = Some Aface ->
     match bc_model_at bc_model f with
     | OPERATOR_BC_NEUMANN =>
         matrices op' !! f = Some (scale Aface d_zero) /\
         (f < length (matrices_shadow op) -> matrices_shadow op' !! f = Some Aface)
     | OPERATOR_BC_MIXED =>
         let area := face_area mesh_ f in
         let factor := (area / (d_one + vec_get bc_mixed f * area / get Aface 0 0))%D in
         matrices op' !! f = Some (set Aface 0 0 (vec_get bc_mixed f * factor)%D) /\
         (f < length (matrices_shadow op) -> matrices_shadow op' !! f = Some Aface)
     | _ =>
         matrices op' !! f = Some Aface /\
         matrices_shadow op' !! f = matrices_shadow op !! f
     end) /\
  (forall f, nfaces_owned <= f -> f < length (matrices op) ->
     matrices op' !! f = matrices op !! f /\
     matrices_shadow op' !! f = matrices_shadow op !! f) /\
  length (matrices op') = length (matrices op) /\
  length (matrices_shadow op') = length (matrices_shadow op) /\
  op_rhs_face op' = op_rhs_face op /\
  (forall c,
     (forall f, f < nfaces_owned -> bc_model_at bc_model f <> OPERATOR_BC_NONE ->
                id_at (face_get_cells mesh_ USED f) 0 <> c) ->
     op_rhs_cell op' !! c = op_rhs_cell op !! c).
Proof.
  intros op' nfo. subst op' nfo. unfold ApplyBCs_Cell.
  destruct (ApplyBCs_Cell_loop mesh_ bc_model bc_value bc_mixed op (nfaces_owned mesh_))
    as (Hlm & Hls & Hrf & _ & Hm & Hs).
  split_and!; try done.
  - intros f Aface Hf HA.
    assert (f < length (matrices op)) as Hfl by (by eapply lookup_lt_Some).
    specialize (Hm f). specialize (Hs f Hfl).
    rewrite decide_True in Hm by done. rewrite HA in Hm, Hs. simpl in Hm.
    unfold Cell_face_matrix in Hm. unfold Cell_face_saves_shadow in Hs.
    destruct (bc_model_at bc_model f); simpl.
    + split; [done|]. rewrite Hs. rewrite decide_False; [done | naive_solver].
    + split; [done|]. rewrite Hs. rewrite decide_False; [done | naive_solver].
    + split; [done|]. intros Hl. rewrite Hs. by rewrite decide_True.
    + split; [done|]. intros Hl. rewrite Hs. by rewrite decide_True.
  - intros f Hf Hfl. rewrite Hm, (Hs f Hfl).
    rewrite !decide_False; [done | | lia]. intros (Hlt & _). lia.
  - intros c Hc. by apply ApplyBCs_Cell_loop_rhs.
Qed.

(** X15.  [ApplyBCs] on the NODE system, at a Dirichlet node [v], the
    [n]-th node of a cell: row and column [n] of the cell matrix are zeroed,
    the diagonal entry becomes [1 / cells.size()] for the cells around [v]
    when [primary] holds, every other node of the cell has
    [Acell(m, n) * value] taken off its right-hand side, and the entry of
    [v] becomes [value] when [primary] holds.  The matrix found at the first
    such node is kept as shadow copy. *)
Theorem ApplyBCs_Node_Dirichlet_eliminates `{Double}
    (bc_model : list BCModel) (bc_value : list double) (node_get_cells : nat -> list nat)
    (primary : bool) (nodes : list nat) (n v : nat) (w : Work) :
  let nnodes := length nodes in
  let value := vec_get bc_value v in
  let w' := ApplyBCs_Node_node bc_model bc_value node_get_cells primary nodes nnodes n w in
  shape nnodes nnodes (Acell w) ->
  NoDup nodes ->
  (forall g, g ∈ nodes -> g < length (rhs_face w)) ->
  nodes !! n = Some v ->
  bc_model !! v = Some OPERATOR_BC_DIRICHLET ->
  (forall i j, i < nnodes -> j < nnodes ->
     get (Acell w') i j =
       if decide (i = n /\ j = n)
       then (if primary
             then (d_one / d_of_int (Z.of_nat (length (node_get_cells v))))%D
             else d_zero)
       else if decide (i = n \/ j = n) then d_zero else get (Acell w) i j) /\
  (forall m g, nodes !! m = Some g -> g <> v ->
     vec_get (rhs_face w') g = (vec_get (rhs_face w) g - get (Acell w) m n * value)%D) /\
  vec_get (rhs_face w') v
  = (if primary then value else (vec_get (rhs_face w) v - get (Acell w) n n * value)%D) /\
  (forall g, g ∉ nodes -> rhs_face w' !! g = rhs_face w !! g) /\
  shadow w' = (if flag w then Acell w else shadow w) /\
  flag w' = false /\
  rhs_cell w' = rhs_cell w.
Proof.
  intros nnodes value w' Hs Hnd Hrange Hn Hbc.
  assert (n < nnodes) as Hn_lt by (by apply lookup_lt_Some in Hn).
  assert (v < length (rhs_face w)) as Hv.
  { apply Hrange. by eapply list_elem_of_lookup_2. }
  unfold w', ApplyBCs_Node_node.
  rewrite (id_at_lookup _ _ _ Hn). unfold bc_model_at. rewrite Hbc. simpl.
  assert (Acell (save_shadow w) = Acell w /\ rhs_face (save_shadow w) = rhs_face w /\
          rhs_cell (save_shadow w) = rhs_cell w /\ flag (save_shadow w) = false /\
          shadow (save_shadow w) = (if flag w then Acell w else shadow w))
    as (HsA & Hsr & Hsc & Hsf & Hss).
  { unfold save_shadow. by destruct (flag w) eqn:Hfl. }
  destruct (eliminate_block_spec nodes nnodes n (vec_get bc_value v) (save_shadow w))
    as (Hst & Hsh & Hfl & Hrc & Hlen & HA & Hrf & Hout).
  { by rewrite HsA. } { done. } { done. } { done. } { by rewrite Hsr. }
  fold nnodes in Hst, Hsh, Hfl, Hrc, Hlen, HA, Hrf, Hout.
  rewrite HsA in HA, Hrf. rewrite Hsr in Hlen, Hrf, Hout.
  rewrite Hss in Hsh. rewrite Hsf in Hfl. rewrite Hsc in Hrc.
  destruct primary; simpl; split_and!; try done.
  - intros i j Hi Hj. rewrite (get_set nnodes nnodes) by (done || lia).
    rewrite HA by done.
    repeat case_decide; try done; exfalso; intuition lia.
  - intros m g Hm Hg. rewrite vec_get_set_ne by done. by apply Hrf.
  - rewrite vec_get_set_eq; [done | by rewrite Hlen].
  - intros g Hg. unfold vec_set. rewrite list_lookup_insert_ne; [by apply Hout|].
    intros ->. apply Hg. by eapply list_elem_of_lookup_2.
  - intros i j Hi Hj. rewrite HA by done.
    repeat case_decide; try done; exfalso; intuition lia.
  - intros m g Hm Hg. by apply Hrf.
  - by apply Hrf.
Qed.

(** A cell with the nodes 0 and 1, node 0 with the Dirichlet value 5 and one
    cell around it. *)
Lemma ApplyBCs_Node_Dirichlet_eliminates_witness :
  let w := @mkWork Z_double (@DenseMatrix.mk Z_double 2 2 [4; 3; 3; 6]%Z)
             (@DenseMatrix.empty Z_double) true [0; 0]%Z []%Z in
  let w' := @ApplyBCs_Node_node Z_double [OPERATOR_BC_DIRICHLET; OPERATOR_BC_NONE]
              [5; 0]%Z (fun _ => [0]) true [0; 1] 2 0 w in
  @Acell Z_double w' = @DenseMatrix.mk Z_double 2 2 [1; 0; 0; 6]%Z /\
  @vec_get Z_double (@rhs_face Z_double w') 0 = 5%Z /\
  @vec_get Z_double (@rhs_face Z_double w') 1 = (-15)%Z.
Proof.
  intros w w'.
  destruct (@ApplyBCs_Node_Dirichlet_eliminates Z_double
              [OPERATOR_BC_DIRICHLET; OPERATOR_BC_NONE] [5; 0]%Z (fun _ => [0]) true
              [0; 1] 0 0 w) as (_ & Hrhs & Hv & _).
  - repeat split.
  - exact NoDup_0_1.
  - intros g Hg. by apply lt_of_elem_0_1.
  - reflexivity.
  - reflexivity.
  - split_and!; [reflexivity | exact Hv | exact (Hrhs 1 1 eq_refl ltac:(lia))].
Defined.

(** X16.  [ModifyMatrices] on a cell [c] cuts the coupling between the
    faces and the cell: the cell column of the face rows and the face
    entries of the cell row become zero, the face block and the corner entry
    stay, and every face of the cell has [Acell(n, nfaces) * u_c[c]] taken
    off its right-hand side.  With exact arithmetic the face equations then
    have, for any value of the cell unknown, the residual they had with the
    cell unknown at [u_c[c]].  Other cells, the shadow copies and the cell
    part of the right-hand side are untouched. *)
Theorem ModifyMatrices_cell_cuts_coupling `{Double} (mesh_ : Mesh)
    (u_c : list double) (c : nat) (op : Op) (Acell : DenseMatrix) :
  let faces := cell_get_faces mesh_ c in
  let nfaces := length faces in
  let op' := ModifyMatrices_cell mesh_ u_c c op in
  matrices op !! c = Some Acell ->
  shape (nfaces + 1) (nfaces + 1) Acell ->
  NoDup faces ->
  (forall g, g ∈ faces -> g < length (op_rhs_face op)) ->
  exists Acell',
    matrices op' !! c = Some Acell' /\
    (forall i j, i <= nfaces -> j <= nfaces ->
       get Acell' i j =
         if decide ((i < nfaces /\ j = nfaces) \/ (i = nfaces /\ j < nfaces))
         then d_zero else get Acell i j) /\
    (forall n f, faces !! n = Some f ->
       vec_get (op_rhs_face op') f
       = (vec_get (op_rhs_face op) f - get Acell n nfaces * vec_get u_c c)%D) /\
    (ring_theory d_zero d_one d_add d_mul d_sub d_opp (@eq double) ->
     forall (lambda : nat -> double) (x : double) n f, faces !! n = Some f ->
       (d_sum nfaces (fun m => get Acell' n m * lambda m) + get Acell' n nfaces * x
        - vec_get (op_rhs_face op') f
        = d_sum nfaces (fun m => get Acell n m * lambda m)
          + get Acell n nfaces * vec_get u_c c
          - vec_get (op_rhs_face op) f)%D) /\
    (forall g, g ∉ faces -> op_rhs_face op' !! g = op_rhs_face op !! g) /\
    (forall c', c' <> c -> matrices op' !! c' = matrices op !! c') /\
    matrices_shadow op' = matrices_shadow op /\
    op_rhs_cell op' = op_rhs_cell op.
Proof.
  intros faces nfaces op' HA Hs Hnd Hrange.
  assert (c < length (matrices op)) as Hc by (by eapply lookup_lt_Some).
  destruct (ModifyMatrices_faces_spec faces (vec_get u_c c) Acell (op_rhs_face op)
              Hs Hnd Hrange) as (Hst & Hlen & Hget & Hrf & Hout).
  fold nfaces in Hst, Hlen, Hget, Hrf, Hout.
  unfold op', ModifyMatrices_cell. fold faces nfaces. rewrite HA. simpl.
  destruct (ModifyMatrices_faces nfaces faces (vec_get u_c c) (Acell, op_rhs_face op))
    as [A' rhs'] eqn:Hrun.
  simpl in Hst, Hlen, Hget, Hrf, Hout. simpl.
  exists A'. split_and!; try done.
  - by rewrite list_lookup_insert_eq.
  - intros Dring lambda x n f Hn.
    assert (n < nfaces) as Hn_lt by (by apply lookup_lt_Some in Hn).
    rewrite (Hrf n f Hn). rewrite (Hget n nfaces) by lia.
    rewrite decide_True by lia.
    rewrite (d_sum_ext nfaces (fun m => (get A' n m * lambda m)%D)
               (fun m => (get Acell n m * lambda m)%D)).
    + by apply residual_moved.
    + intros m Hm. rewrite (Hget n m) by lia. rewrite decide_False; [done | lia].
  - intros c' Hc'. by rewrite list_lookup_insert_ne.
Qed.

(** The one-cell mesh and its matrix, with the cell value 2. *)
Lemma ModifyMatrices_cell_cuts_coupling_witness :
  let op' := @ModifyMatrices_cell Z_double one_cell_mesh [2]%Z 0 one_cell_op in
  @matrices Z_double op' !! 0
  = Some (@DenseMatrix.mk Z_double 3 3 [10; 3; 0; 2; 12; 0; 0; 0; 27]%Z) /\
  @op_rhs_face Z_double op' = [24; 30]%Z.
Proof.
  intros op'.
  destruct (@ModifyMatrices_cell_cuts_coupling Z_double one_cell_mesh [2]%Z 0 one_cell_op
              one_cell_Acell) as (A' & HA' & _).
  - reflexivity.
  - repeat split.
  - exact NoDup_0_1.
  - intros g Hg. by apply lt_of_elem_0_1.
  - split; reflexivity.
Defined.

(** X17.  [AddNewtonCorrectionCell_] does nothing when the flux, [k_] or
    [dkdp_] is missing.  Otherwise every owned face gets a fresh matrix, of
    the size of its number of cells, that does not depend on the matrix it
    replaces: on a face with two cells only the column of the upwind cell
    [i] is filled, with [vmod] on the diagonal and [-vmod] in the other row;
    on a face with one cell the entry is [vmod] when that cell is upwind and
    zero when it is not.  Faces that are not owned keep their matrix. *)
Theorem AddNewtonCorrectionCell_fills_upwind_column `{Double} (mesh_ : Mesh)
    (junk : nat -> double) (fabs : double -> double) (face_normal_dir : nat -> nat -> Z)
    (scalar_rho_mu_ : bool) (rho_ : double) (new_Op_Face_Cell : list DenseMatrix)
    (jac_op_ : option (list DenseMatrix)) :
  let run := fun k_ dkdp_ flux =>
    AddNewtonCorrectionCell_ mesh_ junk fabs face_normal_dir k_ dkdp_ flux
      scalar_rho_mu_ rho_ new_Op_Face_Cell jac_op_ in
  (forall k_ dkdp_ flux, flux = None \/ k_ = None \/ dkdp_ = None ->
     run k_ dkdp_ flux = jac_op_) /\
  (forall kf dkdp_f flux_f,
     let before := match jac_op_ with Some m => m | None => new_Op_Face_Cell end in
     exists after,
       run (Some kf) (Some dkdp_f) (Some flux_f) = Some after /\
       length after = length before /\
       (forall f, nfaces_owned mesh_ <= f -> after !! f = before !! f) /\
       (forall f, f < nfaces_owned mesh_ -> f < length before ->
          let ncells := length (face_get_cells mesh_ USED f) in
          let v := vec_get flux_f f in
          let vmod := newton_vmod fabs scalar_rho_mu_ rho_ kf dkdp_f f v in
          let i := upwind_index mesh_ face_normal_dir f v in
          exists Aface,
            after !! f = Some Aface /\
            NumRows Aface = ncells /\ NumCols Aface = ncells /\
            i < 2 /\
            (ncells = 2 ->
               get Aface i i = vmod /\ get Aface (1 - i) i = (- vmod)%D /\
               get Aface i (1 - i) = d_zero /\ get Aface (1 - i) (1 - i) = d_zero) /\
            (ncells = 1 ->
               get Aface 0 0 = if Nat.eqb i 0 then vmod else d_zero))).
Proof.
  intros run. split.
  - intros k_ dkdp_ flux Hnone. unfold run, AddNewtonCorrectionCell_.
    destruct flux; [|done]. destruct k_; [|done]. destruct dkdp_; [|done].
    naive_solver.
  - intros kf dkdp_f flux_f before. unfold run, AddNewtonCorrectionCell_. fold before.
    eexists. split; [done|]. split_and!.
    + by rewrite for_loop_insert_length.
    + intros f Hf. destruct (decide (f < length before)) as [Hl|Hl].
      * rewrite for_loop_insert_lookup by done. rewrite decide_False; [done | lia].
      * rewrite !lookup_ge_None_2; [done | lia |]. rewrite for_loop_insert_length. lia.
    + intros f Hf Hl. cbv zeta.
      rewrite for_loop_insert_lookup by done. rewrite decide_True by done.
      eexists. split; [done|].
      unfold Newton_face_matrix.
      set (ncells := length (face_get_cells mesh_ USED f)).
      set (i := upwind_index mesh_ face_normal_dir f (vec_get flux_f f)).
      set (vmod := newton_vmod fabs scalar_rho_mu_ rho_ kf dkdp_f f (vec_get flux_f f)).
      assert (i < 2) as Hi.
      { unfold i, upwind_index. case_match; lia. }
      split_and!.
      * destruct (Nat.eqb ncells 2); [done|]. by destruct (Nat.eqb i 0).
      * destruct (Nat.eqb ncells 2); [done|]. by destruct (Nat.eqb i 0).
      * done.
      * intros ->. simpl.
        destruct i as [|[|i]]; [| |lia]; by split_and!.
      * intros ->. simpl.
        destruct i as [|[|i]]; [| |lia]; done.
Qed.

(** X18.  The methods [InitDiffusion_] accepts.  The secondary method is
    never one of the two monotone ones, which is what the fallback of
    [CreateMassMatrices_] relies on.  When the parameter list names no
    secondary method the primary name is used in its place: the two methods
    are then the same, and a monotone primary method, though valid, is
    turned down with the message for an unsupported secondary method.  A
    primary name that is not known is turned down whatever the secondary
    one. *)
Theorem InitDiffusion_secondary_never_monotone :
  (forall primary secondary mfd_primary_ mfd_secondary_,
     InitDiffusion_discretization primary secondary = inr (mfd_primary_, mfd_secondary_) ->
     primary_method primary = Some mfd_primary_ /\
     is_monotone mfd_secondary_ = false /\
     (secondary = None -> mfd_secondary_ = mfd_primary_)) /\
  (forall primary mfd_primary_,
     primary_method primary = Some mfd_primary_ ->
     InitDiffusion_discretization primary None
     = if is_monotone mfd_primary_ then inl (not_supported "secondary" primary)
       else inr (mfd_primary_, mfd_primary_)) /\
  (forall primary secondary,
     primary_method primary = None ->
     InitDiffusion_discretization primary secondary
     = inl (not_supported "primary" primary)).
Proof.
  split_and!.
  - intros primary secondary p s Hrun. unfold InitDiffusion_discretization in Hrun.
    destruct (primary_method primary) as [p'|] eqn:Hp; [|done].
    destruct (secondary_method (default primary secondary)) as [s'|] eqn:Hs; [|done].
    simplify_eq. split; [done|]. split.
    + unfold secondary_method in Hs.
      repeat (case_match; [by simplify_eq|]). done.
    + intros ->. simpl in Hs. unfold primary_method in Hp. unfold secondary_method in Hs.
      repeat match goal with
      | Hc : String.eqb _ _ = true |- _ => apply String.eqb_eq in Hc; subst; simpl in *
      | _ => case_match
      end; by simplify_eq.
  - intros primary p Hp. unfold InitDiffusion_discretization. rewrite Hp. simpl.
    unfold primary_method in Hp.
    repeat match goal with
    | Hc : String.eqb _ _ = true |- _ => apply String.eqb_eq in Hc; subst; simpl in *
    | _ => case_match
    end; by simplify_eq.
  - intros primary secondary Hp. unfold InitDiffusion_discretization. by rewrite Hp.
Qed.

(** X19.  When [c0] is the first cell whose mass matrix fails,
    [CreateMassMatrices_] raises its exception after it has stored the
    scaled matrix of [c0] itself: the cells up to and including [c0] hold
    their new matrices, the cells after [c0] hold what the resized vector
    held before. *)
Theorem CreateMassMatrices_failure_keeps_partial_result `{Double} (mesh_ : Mesh)
    (junk : nat -> double) (OK FAILED : Z) (Tensor : Type) (Tensor_unit : Tensor)
    (K_ : option (list Tensor))
    (mfd : MFD3D_Diffusion.Routine -> nat -> Tensor -> DenseMatrix -> Z * DenseMatrix)
    (mfd_primary_ mfd_secondary_ : DiffusionMethod)
    (surface_mesh scalar_rho_mu_ : bool) (rho_ mu_ : double) (rho_cv_ mu_cv_ : list double)
    (Wff_cells_ : list DenseMatrix) (c0 : nat) :
  let attempt := mass_matrix_of_cell mesh_ junk OK FAILED Tensor Tensor_unit K_ mfd
                   mfd_primary_ mfd_secondary_ surface_mesh in
  let factor := fun c =>
    if scalar_rho_mu_ then (rho_ / mu_)%D
    else (vec_get rho_cv_ c / vec_get mu_cv_ c)%D in
  let r := CreateMassMatrices_ mesh_ junk OK FAILED Tensor Tensor_unit K_ mfd
             mfd_primary_ mfd_secondary_ surface_mesh scalar_rho_mu_ rho_ mu_
             rho_cv_ mu_cv_ Wff_cells_ in
  c0 < ncells_owned mesh_ ->
  ok (attempt c0) = FAILED ->
  (forall c, c < c0 -> ok (attempt c) <> FAILED) ->
  r.2 = Some "OperatorDiffusion: unexpected failure in WhetStone."%string /\
  length r.1 = ncells_owned mesh_ /\
  (forall c, c <= c0 -> r.1 !! c = Some (scale (Wff (attempt c)) (factor c))) /\
  (forall c, c0 < c -> c < ncells_owned mesh_ ->
     r.1 !! c = Some (default DenseMatrix.empty (Wff_cells_ !! c))).
Proof.
  intros attempt factor r Hc0 Hfail Hfirst.
  pose (W0 := resize (ncells_owned mesh_) DenseMatrix.empty Wff_cells_).
  assert (length W0 = ncells_owned mesh_) as HlW by apply length_resize.
  destruct (CreateMassMatrices_loop_failure mesh_ junk OK FAILED Tensor Tensor_unit K_ mfd
              mfd_primary_ mfd_secondary_ surface_mesh scalar_rho_mu_ rho_ mu_
              rho_cv_ mu_cv_ W0 c0 (ncells_owned mesh_))
    as (Hlen & Hthr & HW); [lia | done | done |].
  subst r. unfold CreateMassMatrices_. fold W0. rewrite HlW in Hlen, HW.
  split_and!.
  - rewrite Hthr. by rewrite decide_False by lia.
  - done.
  - intros c Hc. rewrite HW by lia. by rewrite decide_True by lia.
  - intros c Hc Hcn. rewrite HW by lia. rewrite decide_False by lia.
    unfold W0. destruct (decide (c < length Wff_cells_)) as [Hl|Hl].
    + rewrite lookup_resize by done.
      destruct (lookup_lt_is_Some_2 _ _ Hl) as [A HA]. by rewrite HA.
    + rewrite lookup_resize_new by lia.
      by rewrite (lookup_ge_None_2 Wff_cells_ c) by lia.
Qed.

(** The one-cell mesh with the two-point flux approximation, in a WhetStone
    where it fails. *)
Lemma CreateMassMatrices_failure_keeps_partial_result_witness :
  let r := @CreateMassMatrices_ Z_double one_cell_mesh (fun _ => 7%Z)
             code_OK code_FAILED unit tt None only_SO_succeeds
             DIFFUSION_TPFA DIFFUSION_SUPPORT_OPERATOR false true 6%Z 2%Z [] [] [] in
  r.2 = Some "OperatorDiffusion: unexpected failure in WhetStone."%string /\
  r.1 = [@DenseMatrix.mk Z_double 2 2 [21; 21; 21; 21]%Z].
Proof.
  intros r.
  destruct (@CreateMassMatrices_failure_keeps_partial_result Z_double one_cell_mesh
              (fun _ => 7%Z) code_OK code_FAILED unit tt None only_SO_succeeds
              DIFFUSION_TPFA DIFFUSION_SUPPORT_OPERATOR false true 6%Z 2%Z [] [] [] 0)
    as (Hthr & _).
  - simpl. lia.
  - reflexivity.
  - intros c Hc. lia.
  - split; [exact Hthr | reflexivity].
Defined.

(** X20.  [UpdateMatricesNodal_] looks at the status before it stores the
    matrix: when [c0] is the first cell whose stiffness matrix fails, the
    cells before [c0] hold their new matrices while [c0] and every cell
    after it keep the matrix they had. *)
Theorem UpdateMatricesNodal_failure_keeps_old_matrix `{Double} (mesh_ : Mesh)
    (junk : nat -> double) (OK FAILED : Z) (Tensor : Type) (Tensor_unit_2d : Tensor)
    (K_ : option (list Tensor))
    (mfd : MFD3D_Diffusion.Routine -> nat -> Tensor -> DenseMatrix -> Z * DenseMatrix)
    (mfd_primary_ : DiffusionMethod) (matrices : list DenseMatrix) (c0 : nat) :
  let attempt := stiffness_of_cell mesh_ junk OK FAILED Tensor K_ mfd mfd_primary_
                   Tensor_unit_2d in
  let r := UpdateMatricesNodal_ mesh_ junk OK FAILED Tensor K_ mfd mfd_primary_
             Tensor_unit_2d matrices in
  c0 < ncells_owned mesh_ ->
  ok (attempt c0) = FAILED ->
  (forall c, c < c0 -> ok (attempt c) <> FAILED) ->
  nodal_thrown r = Some "Stiffness_MFD: unexpected failure of LAPACK in WhetStone."%string /\
  length (nodal_matrices r) = length matrices /\
  (forall c, c < c0 -> c < length matrices ->
     nodal_matrices r !! c = Some (Wff (attempt c))) /\
  (forall c, c0 <= c -> nodal_matrices r !! c = matrices !! c).
Proof.
  intros attempt r Hc0 Hfail Hfirst.
  destruct (UpdateMatricesNodal_loop_failure mesh_ junk OK FAILED Tensor K_ mfd
              mfd_primary_ Tensor_unit_2d matrices c0 (ncells_owned mesh_))
    as (Hlen & Hthr & HW); [done | done |].
  subst r. unfold UpdateMatricesNodal_.
  split_and!.
  - rewrite Hthr. by rewrite decide_False by lia.
  - done.
  - intros c Hc Hl. rewrite HW by done. by rewrite decide_True by lia.
  - intros c Hc. destruct (decide (c < length matrices)) as [Hl|Hl].
    + rewrite HW by done. by rewrite decide_False by lia.
    + rewrite !lookup_ge_None_2; [done | lia | lia].
Qed.

(** The one-cell mesh in a WhetStone whose stiffness routines fail: the
    matrix of the cell is the one found. *)
Lemma UpdateMatricesNodal_failure_keeps_old_matrix_witness :
  let r := @UpdateMatricesNodal_ Z_double one_cell_mesh (fun _ => 7%Z)
             code_OK code_FAILED unit None only_SO_succeeds
             DIFFUSION_SUPPORT_OPERATOR tt [one_cell_Acell] in
  nodal_thrown r = Some "Stiffness_MFD: unexpected failure of LAPACK in WhetStone."%string /\
  nodal_matrices r !! 0 = Some one_cell_Acell.
Proof.
  intros r.
  destruct (@UpdateMatricesNodal_failure_keeps_old_matrix Z_double one_cell_mesh
              (fun _ => 7%Z) code_OK code_FAILED unit tt None only_SO_succeeds
              DIFFUSION_SUPPORT_OPERATOR [one_cell_Acell] 0)
    as (Hthr & _ & _ & Hkeep).
  - simpl. lia.
  - reflexivity.
  - intros c Hc. lia.
  - split; [exact Hthr | exact (Hkeep 0 ltac:(lia))].
Defined.

End More_OperatorDiffusionMFD.


Section More_Richards_PK.
Import Richards_PK.

(** X23.  [AddTimeDerivative_MFD] adds
    [factor = rho * phi[c] * dSdP[c] * volume / dT_prec] to [Acc_cells[c]]
    and [factor * pressure_cells[c]] to [Fc_cells[c]] for every owned cell,
    and leaves the entries of the other cells alone.  With exact arithmetic
    the residual [Acc_cells[c] * p - Fc_cells[c]] at the pressure [p] given
    is therefore the same before and after. *)
Theorem AddTimeDerivative_MFD_adds_factor `{Double} (mesh_ : Mesh) (rho : double)
    (phi : list double) (DerivedSdP : list double -> list double)
    (pressure_cells : list double) (dT_prec : double) (Acc_cells Fc_cells : list double) :
  let after := AddTimeDerivative_MFD mesh_ rho phi DerivedSdP pressure_cells dT_prec
                 (Acc_cells, Fc_cells) in
  let factor := fun c =>
    (rho * vec_get phi c * vec_get (DerivedSdP pressure_cells) c * cell_volume mesh_ c
     / dT_prec)%D in
  let owned := fun c => c < ncells_owned mesh_ in
  length after.1 = length Acc_cells /\
  length after.2 = length Fc_cells /\
  (forall c, c < length Acc_cells ->
     vec_get after.1 c
     = if decide (owned c) then (vec_get Acc_cells c + factor c)%D
       else vec_get Acc_cells c) /\
  (forall c, c < length Fc_cells ->
     vec_get after.2 c
     = if decide (owned c)
       then (vec_get Fc_cells c + factor c * vec_get pressure_cells c)%D
       else vec_get Fc_cells c) /\
  (ring_theory d_zero d_one d_add d_mul d_sub d_opp (@eq double) ->
   forall c, c < length Acc_cells -> c < length Fc_cells ->
     (vec_get after.1 c * vec_get pressure_cells c - vec_get after.2 c
      = vec_get Acc_cells c * vec_get pressure_cells c - vec_get Fc_cells c)%D).
Proof.
  intros after factor owned.
  assert (after
          = (for_loop 0 (ncells_owned mesh_)
               (fun c a => vec_set a c ((fun c x => (x + factor c)%D) c (vec_get a c)))
               Acc_cells,
             for_loop 0 (ncells_owned mesh_)
               (fun c b => vec_set b c
                  ((fun c x => (x + factor c * vec_get pressure_cells c)%D) c (vec_get b c)))
               Fc_cells)) as ->.
  { unfold after, AddTimeDerivative_MFD.
    apply (paired_update_loop (ncells_owned mesh_)
             (fun c x => (x + factor c)%D)
             (fun c x => (x + factor c * vec_get pressure_cells c)%D)). }
  destruct (vec_update_loop 0 (ncells_owned mesh_) (fun c x => (x + factor c)%D) Acc_cells)
    as [Hl1 H1].
  destruct (vec_update_loop 0 (ncells_owned mesh_)
              (fun c x => (x + factor c * vec_get pressure_cells c)%D) Fc_cells)
    as [Hl2 H2].
  simpl. split_and!; try done.
  - intros c Hc. rewrite H1 by done. unfold owned.
    repeat case_decide; try done; lia.
  - intros c Hc. rewrite H2 by done. unfold owned.
    repeat case_decide; try done; lia.
  - intros Dring c Hc1 Hc2. rewrite H1, H2 by done.
    case_decide; [|done]. by apply residual_shifted.
Qed.

End More_Richards_PK.
